(** * rain: the per-torrent core of a BitTorrent client

  A shallow embedding of the piece-download state machine
  (internal/downloader/piecedownloader), the metadata downloader
  (internal/infodownloader), the peer connection shutdown protocol
  (torrent/internal/peerconn) and the engine event loop together with
  the choke scheduler (session/run.go, session/session.go), followed
  by the properties established about them. *)

From Stdlib Require Import ZArith NArith Lia Permutation.
From stdpp Require Import gmap strings list fin_maps sorting.

Local Open Scope N_scope.

(* ===================================================================== *)
(** ** Piece-download state machine (piecedownloader.go)                  *)
(* ===================================================================== *)

Module PieceDownloader.

(** [const maxQueuedBlocks = 10], the capacity of the limiter channel. *)
Definition maxQueuedBlocks : nat := 10.

(** piece.Block and piece.Piece: only the fields the downloader reads.
    All three numeric fields are uint32 in the source. *)
Record PieceBlock := mkPieceBlock {
  Block_Index : N;
  Block_Begin : N;
  Block_Length : N
}.

Record Piece := mkPiece {
  Piece_Index : N;
  Piece_Length : N;
  Piece_Blocks : list PieceBlock
}.

(** The peer handle. [FastExtension] is the field of peerconn.Peer.
    Modelled from the spec: the per-peer allowed-fast set of the data
    model ("allowed-fast set"), which no file of the downloader reads. *)
Record Peer := mkPeer {
  FastExtension : bool;
  AllowedFast : gset N
}.

(** [type block struct { *piece.Block; requested bool; data []byte }].
    A nil slice is [None]. *)
Record block := mkBlock {
  Block : PieceBlock;
  requested : bool;
  data : option (list Byte.byte)
}.

(** The downloader. The limiter is a buffered channel of capacity
    [maxQueuedBlocks] used only by [Run]: [Some n] is a channel holding
    [n] tokens, [None] the nil channel. *)
Record PieceDownloader := mkPD {
  pd_Piece : Piece;
  pd_Peer : Peer;
  blocks : list block;
  limiter : option nat
}.

Definition set_blocks (d : PieceDownloader) (bs : list block) : PieceDownloader :=
  mkPD (pd_Piece d) (pd_Peer d) bs (limiter d).

Definition set_limiter (d : PieceDownloader) (l : option nat) : PieceDownloader :=
  mkPD (pd_Piece d) (pd_Peer d) (blocks d) l.

Definition set_requested (b : block) (r : bool) : block :=
  mkBlock (Block b) r (data b).

Definition set_data (b : block) (x : option (list Byte.byte)) : block :=
  mkBlock (Block b) (requested b) x.

(** [func New(pi, pe)] *)
Definition New (pi : Piece) (pe : Peer) : PieceDownloader :=
  mkPD pi pe (map (fun b => mkBlock b false None) (Piece_Blocks pi)) (Some 0%nat).

(** What [Run] does to the outside world. *)
Inductive output :=
| SendRequest (index begin length : N)
| PeerClose
| ErrC (err : string)
| DoneC (buf : list Byte.byte).

(** The value received on PieceC: the fields [Run] reads. *)
Record PieceMsg := mkPieceMsg {
  p_Block_Index : N;
  p_Data : option (list Byte.byte)
}.

(** The value received on RejectC. Modelled from the spec: peer.Request
    is not among the sources; a RejectRequest names the request it
    refuses the way the request was sent, "Request(i, begin, len)",
    with [i] the index of the piece. [Run] reads the piece index. *)
Record Request := mkRequest {
  req_Piece_Index : N;
  req_Begin : N;
  req_Length : N
}.

(** One constructor per case of the select in [Run]. [Tick] is the case
    [d.limiter <- struct{}{}]; it carries what [Peer.SendRequest]
    returns, should a request be sent. *)
Inductive event :=
| Tick (sendErr : option string)
| PieceC (p : PieceMsg)
| RejectC (req : Request)
| ChokeC
| UnchokeC
| StopC.

(** [func (d *PieceDownloader) nextBlock() *block]: the index of the
    block returned and the blocks after marking it. *)
Fixpoint nextBlock_from (i : nat) (bs : list block) : option (nat * list block) :=
  match bs with
  | [] => None
  | b :: rest =>
      if negb (requested b) then Some (i, set_requested b true :: rest)
      else match nextBlock_from (S i) rest with
           | Some (j, rest') => Some (j, b :: rest')
           | None => None
           end
  end.

Definition nextBlock (d : PieceDownloader) : option (nat * PieceDownloader) :=
  match nextBlock_from 0 (blocks d) with
  | Some (i, bs) => Some (i, set_blocks d bs)
  | None => None
  end.

(** [func (d *PieceDownloader) allDone() bool] *)
Definition allDone (d : PieceDownloader) : bool :=
  forallb (fun b => bool_decide (data b ≠ None)) (blocks d).

(** [func (d *PieceDownloader) assembleBlocks() *bytes.Buffer]: writing
    a nil slice writes nothing. *)
Definition assembleBlocks (d : PieceDownloader) : list Byte.byte :=
  concat (map (fun b => default [] (data b)) (blocks d)).

(** The loop of the Choke case. *)
Definition choke_block (b : block) : block :=
  if bool_decide (data b = None) && requested b then set_requested b false else b.

(** The outcome of one iteration of the for/select loop. *)
Inductive result :=
| Continue (d : PieceDownloader) (out : list output)
| Return (d : PieceDownloader) (out : list output)
| Panic                 (* index out of range *)
| Deadlock              (* blocked for ever on [<-d.limiter] *)
| NotReady.             (* the case cannot be selected in this state *)

Definition step (d : PieceDownloader) (e : event) : result :=
  match e with
  | Tick sendErr =>
      match limiter d with
      | Some n =>
          if bool_decide (n < maxQueuedBlocks)%nat then
            let d1 := set_limiter d (Some (S n)) in
            match nextBlock d1 with
            | None => Continue (set_limiter d1 None) []
            | Some (i, d2) =>
                match blocks d2 !! i with
                | Some b =>
                    match sendErr with
                    | None =>
                        Continue d2 [SendRequest (Piece_Index (pd_Piece d2))
                                       (Block_Begin (Block b)) (Block_Length (Block b))]
                    | Some err => Return d2 [ErrC err]
                    end
                | None => Panic
                end
            end
          else NotReady
      | None => NotReady
      end
  | PieceC p =>
      let i := N.to_nat (p_Block_Index p) in
      match blocks d !! i with
      | None => Panic
      | Some b =>
          let take :=
            requested b && bool_decide (data b = None) && bool_decide (limiter d ≠ None) in
          match (if take then
                   match limiter d with
                   | Some (S n) => Some (set_limiter d (Some n))
                   | _ => None
                   end
                 else Some d) with
          | None => Deadlock
          | Some d1 =>
              let d2 := set_blocks d1 (<[i := set_data b (p_Data p)]> (blocks d1)) in
              if allDone d2 then Return d2 [DoneC (assembleBlocks d2)]
              else Continue d2 []
          end
      end
  | RejectC req =>
      let i := N.to_nat (req_Piece_Index req) in
      match blocks d !! i with
      | None => Panic
      | Some b =>
          if negb (requested b) then
            Return d [PeerClose; ErrC "received invalid reject message"]
          else Continue (set_blocks d (<[i := set_requested b false]> (blocks d))) []
      end
  | ChokeC => Continue (set_limiter (set_blocks d (map choke_block (blocks d))) None) []
  | UnchokeC => Continue (set_limiter d (Some 0%nat)) []
  | StopC => Return d []
  end.

(** How a run stands after a sequence of selected cases. *)
Inductive status := Running | Returned | Panicked | Deadlocked | Refused.

(** [func (d *PieceDownloader) Run(stopC)], driven by the sequence of
    cases the select takes; events after the loop has ended are not
    consumed. *)
Fixpoint Run (d : PieceDownloader) (evs : list event)
  : status * PieceDownloader * list output :=
  match evs with
  | [] => (Running, d, [])
  | e :: rest =>
      match step d e with
      | Continue d' out =>
          let '(s, d'', out') := Run d' rest in (s, d'', out ++ out')
      | Return d' out => (Returned, d', out)
      | Panic => (Panicked, d, [])
      | Deadlock => (Deadlocked, d, [])
      | NotReady => (Refused, d, [])
      end
  end.

(** Blocks marked requested for which no data has arrived. *)
Definition is_outstanding (b : block) : bool :=
  requested b && bool_decide (data b = None).

Definition outstanding (d : PieceDownloader) : nat :=
  length (filter (fun b => is_outstanding b = true) (blocks d)).

Definition is_DoneC (o : output) : bool :=
  match o with DoneC _ => true | _ => false end.

Definition is_SendRequest (o : output) : bool :=
  match o with SendRequest _ _ _ => true | _ => false end.

Definition countDoneC (out : list output) : nat :=
  length (filter (fun o => is_DoneC o = true) out).

Fixpoint sumN (l : list N) : N :=
  match l with
  | [] => 0
  | x :: r => x + sumN r
  end.

(** What the peer delivered for block [i]: the data of the last Piece
    message of [evs] that names the block, [acc] when there is none. *)
Fixpoint received_from (acc : option (list Byte.byte)) (evs : list event) (i : nat)
  : option (list Byte.byte) :=
  match evs with
  | [] => acc
  | PieceC p :: rest =>
      received_from (if bool_decide (N.to_nat (p_Block_Index p) = i) then p_Data p else acc)
        rest i
  | _ :: rest => received_from acc rest i
  end.

Definition received (evs : list event) (i : nat) : option (list Byte.byte) :=
  received_from None evs i.

(** Data was delivered for every block of the piece. *)
Definition complete (pi : Piece) (evs : list event) : Prop :=
  ∀ i, (i < length (Piece_Blocks pi))%nat → received evs i ≠ None.

(** The data delivered, block after block in ascending order. *)
Definition assembled (pi : Piece) (evs : list event) : list Byte.byte :=
  concat (map (fun i => default [] (received evs i)) (seq 0 (length (Piece_Blocks pi)))).

(** Every block was delivered with as many bytes as it declares, and
    the declared block lengths add up to the declared piece length. *)
Definition well_sized (pi : Piece) (evs : list event) : Prop :=
  (∀ i b x, Piece_Blocks pi !! i = Some b → received evs i = Some x →
            N.of_nat (length x) = Block_Length b)
  ∧ sumN (map Block_Length (Piece_Blocks pi)) = Piece_Length pi.

(** The request [Run] sends for a block. *)
Definition request_for (d : PieceDownloader) (b : block) : output :=
  SendRequest (Piece_Index (pd_Piece d)) (Block_Begin (Block b)) (Block_Length (Block b)).

(** Blocks marked requested had their request sent. *)
Definition requests_sent (d : PieceDownloader) (out : list output) : Prop :=
  ∀ i b, blocks d !! i = Some b → requested b = true → request_for d b ∈ out.

End PieceDownloader.

(* ===================================================================== *)
(** ** Metadata downloader (infodownloader.go)                            *)
(* ===================================================================== *)

Module InfoDownloader.

(** [const blockSize = 16 * 1024] *)
Definition blockSize : N := 16 * 1024.

(** uint32 arithmetic wraps around. *)
Definition wrap32 (x : N) : N := x mod 2 ^ 32.

(** [type block struct { size uint32 }] *)
Record block := mkBlock { size : N }.

(** The message [RequestBlocks] hands to [Peer.SendMessage]: an
    extension message whose payload is a ut_metadata request. *)
Record ExtensionMessage := mkExtensionMessage {
  ExtendedMessageID : N;
  Payload_Piece : N
}.

(** [type InfoDownloader struct]. Of the peer, the two values of its
    extension handshake that the downloader reads, and the messages
    handed to it so far, oldest first. *)
Record InfoDownloader := mkID {
  MetadataSize : N;
  M_ut_metadata : N;
  peer_sent : list ExtensionMessage;
  Bytes : list Byte.byte;
  blocks : list block;
  requested : gset N;
  nextBlockIndex : N
}.

(** [func (d *InfoDownloader) createBlocks() []block], as a function of
    the advertised metadata size. *)
Definition createBlocks (metadataSize : N) : list block :=
  let numBlocks := metadataSize / blockSize in
  let md := metadataSize mod blockSize in
  let numBlocks := if bool_decide (md ≠ 0) then wrap32 (numBlocks + 1) else numBlocks in
  let blocks := replicate (N.to_nat numBlocks) (mkBlock blockSize) in
  if bool_decide (md ≠ 0) && bool_decide (0 < length blocks)%nat
  then <[(length blocks - 1)%nat := mkBlock md]> blocks
  else blocks.

(** [func New(pe *peer.Peer) *InfoDownloader] *)
Definition New (metadataSize ut_metadata : N) : InfoDownloader :=
  mkID metadataSize ut_metadata []
    (replicate (N.to_nat metadataSize) Byte.x00)
    (createBlocks metadataSize) ∅ 0.

(** One iteration of the loop of [RequestBlocks]: [None] when the loop
    condition fails. [queueLength] is a Go int. *)
Definition RequestBlocks_cond (d : InfoDownloader) (queueLength : Z) : bool :=
  bool_decide (nextBlockIndex d < wrap32 (N.of_nat (length (blocks d))))
  && bool_decide (Z.of_nat (base.size (requested d)) < queueLength)%Z.

Definition RequestBlocks_body (d : InfoDownloader) : InfoDownloader :=
  let msg := mkExtensionMessage (M_ut_metadata d) (nextBlockIndex d) in
  mkID (MetadataSize d) (M_ut_metadata d) (peer_sent d ++ [msg]) (Bytes d) (blocks d)
    ({[nextBlockIndex d]} ∪ requested d) (wrap32 (nextBlockIndex d + 1)).

Fixpoint RequestBlocks_loop (fuel : nat) (d : InfoDownloader) (queueLength : Z)
  : InfoDownloader :=
  match fuel with
  | O => d
  | S fuel' =>
      if RequestBlocks_cond d queueLength
      then RequestBlocks_loop fuel' (RequestBlocks_body d) queueLength
      else d
  end.

(** [func (d *InfoDownloader) RequestBlocks(queueLength int)]. The loop
    advances the cursor at every iteration and stops at the number of
    blocks, so as many iterations as there are blocks suffice. *)
Definition RequestBlocks (d : InfoDownloader) (queueLength : Z) : InfoDownloader :=
  RequestBlocks_loop (length (blocks d)) d queueLength.

(** [func (d *InfoDownloader) GotBlock(index uint32, data []byte) error]:
    the error, or the downloader after the copy. *)
Definition GotBlock (d : InfoDownloader) (index : N) (data : list Byte.byte)
  : string + InfoDownloader :=
  if bool_decide (index ∉ requested d) then
    inl "peer sent unrequested index for metadata message"
  else
    match blocks d !! N.to_nat index with
    | None => inl "index out of range"
    | Some b =>
        if bool_decide (wrap32 (N.of_nat (length data)) ≠ size b) then
          inl "peer sent invalid size for metadata message"
        else
          let begin := wrap32 (index * blockSize) in
          let end_ := wrap32 (begin + size b) in
          if bool_decide (begin <= end_ ∧ end_ <= N.of_nat (length (Bytes d))) then
            let n := N.to_nat begin in
            let k := N.to_nat (end_ - begin) in
            inr (mkID (MetadataSize d) (M_ut_metadata d) (peer_sent d)
                   (take n (Bytes d) ++ take k data ++ drop (n + k) (Bytes d))
                   (blocks d) (requested d ∖ {[index]}) (nextBlockIndex d))
          else inl "slice bounds out of range"
    end.

(** [func (d *InfoDownloader) Done() bool] *)
Definition Done (d : InfoDownloader) : bool :=
  bool_decide (nextBlockIndex d = wrap32 (N.of_nat (length (blocks d))))
  && bool_decide (base.size (requested d) = 0%nat).

(** The indices of the requests in a list of sent messages. *)
Definition request_indices (l : list ExtensionMessage) : list N :=
  map Payload_Piece l.

(** [n] consecutive indices from [a] on. *)
Fixpoint iota (a : N) (n : nat) : list N :=
  match n with
  | O => []
  | S n' => a :: iota (a + 1) n'
  end.

(** How many requests [RequestBlocks] issues: as many as there are
    blocks left past the cursor, and no more than [queueLength] allows
    beyond the requests in flight. *)
Definition issue_count (d : InfoDownloader) (queueLength : Z) : nat :=
  Nat.min (length (blocks d) - N.to_nat (nextBlockIndex d))
          (Z.to_nat (queueLength - Z.of_nat (base.size (requested d)))).

(** A downloader with one 37-byte block, and one with three blocks of
    which the first is in flight. *)
Definition one_block : InfoDownloader := New 37 3.

Definition three_blocks_one_in_flight : InfoDownloader :=
  RequestBlocks (New 40000 3) 1.

(** What holds of every downloader built by [New] and driven through
    [RequestBlocks] and [GotBlock]. *)
Definition wf (d : InfoDownloader) : Prop :=
  N.of_nat (length (blocks d)) < 2 ^ 32
  ∧ nextBlockIndex d <= N.of_nat (length (blocks d))
  ∧ ∀ i, i ∈ requested d → i < nextBlockIndex d.

End InfoDownloader.

(* ===================================================================== *)
(** ** Peer connection shutdown (peerconn/peer.go)                        *)
(* ===================================================================== *)

Module PeerConn.

(** A channel used only for closing: open or closed. *)
Inductive chan := Open | Closed.

(** Where the goroutine executing [Run] stands. After the select it
    closes the connection and receives from the channels listed in
    [RunWaiting], in order. *)
Inductive waitfor := ReaderDone | WriterDone.

Inductive run_pc :=
| RunNotStarted
| RunSelect
| RunWaiting (rest : list waitfor)
| RunReturned.

Inductive task := NotStarted | Active | Exited.

(** The goroutine of one call of [Close]. *)
Inductive close_pc := CloseWaiting | CloseReturned | ClosePanicked.

(** [type Peer struct], with the tasks around it. [connClosed] counts
    the calls of [p.conn.Close()]; [callers] holds every call of
    [Close] made so far, by caller. *)
Record Peer := mkPeer {
  closeC : chan;
  closedC : chan;
  readerDone : chan;
  writerDone : chan;
  connClosed : nat;
  run : run_pc;
  reader : task;
  writer : task;
  callers : gmap nat close_pc
}.

(** [func New(...)]: both channels open, nothing running. *)
Definition New : Peer :=
  mkPeer Open Open Open Open 0 RunNotStarted NotStarted NotStarted ∅.

(** The atomic steps of the goroutines. *)
Inductive action :=
| RunStart                  (* Run: defer, start reader and writer, reach the select *)
| ReaderExit                (* p.reader.Run returns; close(readerDone) *)
| WriterExit                (* p.writer.Run returns; close(writerDone) *)
| SelectCloseC              (* case <-p.closeC: p.conn.Close() *)
| SelectReaderDone          (* case <-readerDone: p.conn.Close() *)
| SelectWriterDone          (* case <-writerDone: p.conn.Close() *)
| RunReceive                (* the next <-readerDone or <-writerDone after the select *)
| RunReturn                 (* Run returns; the deferred close(p.closedC) runs *)
| CloseCall (c : nat)       (* Close: close(p.closeC) *)
| CloseReturn (c : nat).    (* Close: <-p.closedC succeeds and Close returns *)

Definition is_closed (c : chan) : bool :=
  match c with Closed => true | Open => false end.

Definition chan_of (p : Peer) (w : waitfor) : chan :=
  match w with ReaderDone => readerDone p | WriterDone => writerDone p end.

(** One step; [None] when the action is not enabled. A receive from a
    channel is enabled once the channel is closed; closing a closed
    channel panics. *)
Definition step (p : Peer) (a : action) : option Peer :=
  match a with
  | RunStart =>
      match run p with
      | RunNotStarted =>
          Some (mkPeer (closeC p) (closedC p) (readerDone p) (writerDone p)
                  (connClosed p) RunSelect Active Active (callers p))
      | _ => None
      end
  | ReaderExit =>
      match reader p with
      | Active =>
          Some (mkPeer (closeC p) (closedC p) Closed (writerDone p)
                  (connClosed p) (run p) Exited (writer p) (callers p))
      | _ => None
      end
  | WriterExit =>
      match writer p with
      | Active =>
          Some (mkPeer (closeC p) (closedC p) (readerDone p) Closed
                  (connClosed p) (run p) (reader p) Exited (callers p))
      | _ => None
      end
  | SelectCloseC =>
      match run p with
      | RunSelect =>
          if is_closed (closeC p) then
            Some (mkPeer (closeC p) (closedC p) (readerDone p) (writerDone p)
                    (S (connClosed p)) (RunWaiting [ReaderDone; WriterDone])
                    (reader p) (writer p) (callers p))
          else None
      | _ => None
      end
  | SelectReaderDone =>
      match run p with
      | RunSelect =>
          if is_closed (readerDone p) then
            Some (mkPeer (closeC p) (closedC p) (readerDone p) (writerDone p)
                    (S (connClosed p)) (RunWaiting [WriterDone])
                    (reader p) (writer p) (callers p))
          else None
      | _ => None
      end
  | SelectWriterDone =>
      match run p with
      | RunSelect =>
          if is_closed (writerDone p) then
            Some (mkPeer (closeC p) (closedC p) (readerDone p) (writerDone p)
                    (S (connClosed p)) (RunWaiting [ReaderDone])
                    (reader p) (writer p) (callers p))
          else None
      | _ => None
      end
  | RunReceive =>
      match run p with
      | RunWaiting (w :: rest) =>
          if is_closed (chan_of p w) then
            Some (mkPeer (closeC p) (closedC p) (readerDone p) (writerDone p)
                    (connClosed p) (RunWaiting rest) (reader p) (writer p) (callers p))
          else None
      | _ => None
      end
  | RunReturn =>
      match run p with
      | RunWaiting [] =>
          Some (mkPeer (closeC p) Closed (readerDone p) (writerDone p)
                  (connClosed p) RunReturned (reader p) (writer p) (callers p))
      | _ => None
      end
  | CloseCall c =>
      match callers p !! c with
      | Some _ => None
      | None =>
          if is_closed (closeC p) then
            Some (mkPeer (closeC p) (closedC p) (readerDone p) (writerDone p)
                    (connClosed p) (run p) (reader p) (writer p)
                    (<[c := ClosePanicked]> (callers p)))
          else
            Some (mkPeer Closed (closedC p) (readerDone p) (writerDone p)
                    (connClosed p) (run p) (reader p) (writer p)
                    (<[c := CloseWaiting]> (callers p)))
      end
  | CloseReturn c =>
      match callers p !! c with
      | Some CloseWaiting =>
          if is_closed (closedC p) then
            Some (mkPeer (closeC p) (closedC p) (readerDone p) (writerDone p)
                    (connClosed p) (run p) (reader p) (writer p)
                    (<[c := CloseReturned]> (callers p)))
          else None
      | _ => None
      end
  end.

(** A schedule: the state after a sequence of enabled actions. *)
Fixpoint exec (p : Peer) (l : list action) : option Peer :=
  match l with
  | [] => Some p
  | a :: rest =>
      match step p a with
      | Some p' => exec p' rest
      | None => None
      end
  end.

(** The states the peer can be in. *)
Definition reachable (p : Peer) : Prop := ∃ l, exec New l = Some p.

(** A call of [Close] is safe when it does not panic; [Close] is
    idempotent when every call is. *)
Definition close_safe (p : Peer) (c : nat) : Prop :=
  ∃ p', step p (CloseCall c) = Some p' ∧ callers p' !! c ≠ Some ClosePanicked.

(** The engine closes a peer, [Run] winds down, [Close] returns, and
    [Close] is called once more. *)
Definition close_twice : list action :=
  [RunStart; CloseCall 1; SelectCloseC; ReaderExit; RunReceive; WriterExit;
   RunReceive; RunReturn; CloseReturn 1].

(** The state [close_twice] leads to. *)
Definition closed_once : Peer :=
  mkPeer Closed Closed Closed Closed 1 RunReturned Exited Exited
    {[1%nat := CloseReturned]}.

(** What the code keeps true of the channels and tasks. *)
Definition inv (p : Peer) : Prop :=
  (closedC p = Closed ↔ run p = RunReturned)
  ∧ (run p = RunReturned → connClosed p = 1%nat ∧ reader p = Exited ∧ writer p = Exited)
  ∧ (readerDone p = Closed ↔ reader p = Exited)
  ∧ (writerDone p = Closed ↔ writer p = Exited)
  ∧ (∀ l, run p = RunWaiting l →
       connClosed p = 1%nat
       ∧ (ReaderDone ∉ l → readerDone p = Closed)
       ∧ (WriterDone ∉ l → writerDone p = Closed))
  ∧ (∀ c, callers p !! c = Some CloseReturned → closedC p = Closed)
  ∧ (∀ c, is_Some (callers p !! c) → closeC p = Closed)
  ∧ (run p = RunNotStarted ∨ run p = RunSelect → connClosed p = 0%nat)
  ∧ (run p = RunNotStarted → reader p = NotStarted ∧ writer p = NotStarted).

End PeerConn.

(* ===================================================================== *)
(** ** Bitfield                                                           *)
(* ===================================================================== *)

Module Bitfield.

(** Modelled from the spec: the bitfield package is not among the
    sources. "P-bit vector, bytes big-endian bit order (bit 0 = MSB of
    byte 0)"; "bit index = piece index". Bytes are 8-bit values in [Z].
    An index past the last byte tests as absent and setting it changes
    nothing. *)
Record Bitfield := mkBitfield {
  Bytes : list Z;
  Len : N
}.

Definition New (n : N) : Bitfield :=
  mkBitfield (replicate (N.to_nat ((n + 7) / 8)) 0%Z) n.

Definition mask (i : N) : Z := Z.shiftl 1 (7 - Z.of_N (i mod 8)).

Definition Test (b : Bitfield) (i : N) : bool :=
  match Bytes b !! N.to_nat (i / 8) with
  | Some x => Z.testbit x (7 - Z.of_N (i mod 8))
  | None => false
  end.

Definition Set_ (b : Bitfield) (i : N) : Bitfield :=
  mkBitfield (alter (fun x => Z.lor x (mask i)) (N.to_nat (i / 8)) (Bytes b)) (Len b).

Definition Count (b : Bitfield) : N :=
  N.of_nat (length (filter (fun i => Test b (N.of_nat i) = true) (seq 0 (N.to_nat (Len b))))).

Definition All (b : Bitfield) : bool := bool_decide (Count b = Len b).

End Bitfield.

(* ===================================================================== *)
(** ** Engine: event loop and choke scheduler (run.go, session.go)        *)
(* ===================================================================== *)

Module Engine.

(** net.TCPAddr *)
Record TCPAddr := mkTCPAddr {
  IP : string;
  Port : N
}.

#[global] Instance TCPAddr_eq_dec : EqDecision TCPAddr.
Proof. solve_decision. Defined.

(** The messages the engine hands to [Peer.SendMessage]. *)
Inductive Message :=
| HaveAllMessage
| HaveNoneMessage
| BitfieldMessage (Data : list Z)
| ExtensionHandshake (metadataSize : N) (clientVersion : string) (yourip : string)
| ChokeMessage
| UnchokeMessage
| HaveMessage (Index : N).

(** Calls received by a peer's PEX state and by the piece picker; the
    engine only issues them, so they are kept as a log. *)
Inductive PexCall := PexAdd (a : TCPAddr) | PexDrop (a : TCPAddr).

Inductive PickerCall :=
| HandleSnubbed (pe : nat) (index : N)
| HandleDisconnect (pe : nat)
| HandleCancelDownload (pe : nat) (index : N).

(** The options of [Config] the engine code reads. *)
Record Config := mkConfig {
  PEXEnabled : bool;
  UnchokedPeers : Z;
  OptimisticUnchokedPeers : Z;
  MaxPeerAccept : Z;
  MaxPeerDial : Z;
  ExtensionHandshakeClientVersion : string
}.

(** The flags of piece.Piece the event loop writes. *)
Record Piece := mkPiece {
  Writing : bool;
  Done : bool
}.

(** A connection that completed its handshake (peerconn.Conn). *)
Record Conn := mkConn {
  conn_ID : string;
  conn_Addr : TCPAddr;
  conn_FastExtension : bool
}.

(** Torrent states, of which [handleNewPeers] tests two. *)
Inductive Status := Stopped | Allocating | Verifying | Running | Stopping.

(** [*peer.Peer]: peers are heap objects, named by their address
    ([nat]); [sent] is what was handed to [SendMessage], oldest first,
    and [closed] whether [Close] was called. *)
Record Peer := mkPeer {
  ID : string;
  Addr : TCPAddr;
  FastExtension : bool;
  AmChoking : bool;
  PeerInterested : bool;
  OptimisticUnchoked : bool;
  BytesDownlaodedInChokePeriod : Z;
  BytesUploadedInChokePeriod : Z;
  Snubbed : bool;
  Downloading : bool;
  PEX : option (list PexCall);
  sent : list Message;
  closed : bool
}.

Definition set_AmChoking (v : bool) (x : Peer) : Peer :=
  mkPeer (ID x) (Addr x) (FastExtension x) v (PeerInterested x)
    (OptimisticUnchoked x) (BytesDownlaodedInChokePeriod x)
    (BytesUploadedInChokePeriod x) (Snubbed x) (Downloading x) (PEX x) (sent x)
    (closed x).
Definition set_OptimisticUnchoked (v : bool) (x : Peer) : Peer :=
  mkPeer (ID x) (Addr x) (FastExtension x) (AmChoking x) (PeerInterested x) v
    (BytesDownlaodedInChokePeriod x) (BytesUploadedInChokePeriod x) (Snubbed x)
    (Downloading x) (PEX x) (sent x) (closed x).
Definition set_BytesDownlaodedInChokePeriod (v : Z) (x : Peer) : Peer :=
  mkPeer (ID x) (Addr x) (FastExtension x) (AmChoking x) (PeerInterested x)
    (OptimisticUnchoked x) v (BytesUploadedInChokePeriod x) (Snubbed x)
    (Downloading x) (PEX x) (sent x) (closed x).
Definition set_BytesUploadedInChokePeriod (v : Z) (x : Peer) : Peer :=
  mkPeer (ID x) (Addr x) (FastExtension x) (AmChoking x) (PeerInterested x)
    (OptimisticUnchoked x) (BytesDownlaodedInChokePeriod x) v (Snubbed x)
    (Downloading x) (PEX x) (sent x) (closed x).
Definition set_Snubbed (v : bool) (x : Peer) : Peer :=
  mkPeer (ID x) (Addr x) (FastExtension x) (AmChoking x) (PeerInterested x)
    (OptimisticUnchoked x) (BytesDownlaodedInChokePeriod x)
    (BytesUploadedInChokePeriod x) v (Downloading x) (PEX x) (sent x) (closed x).
Definition set_Downloading (v : bool) (x : Peer) : Peer :=
  mkPeer (ID x) (Addr x) (FastExtension x) (AmChoking x) (PeerInterested x)
    (OptimisticUnchoked x) (BytesDownlaodedInChokePeriod x)
    (BytesUploadedInChokePeriod x) (Snubbed x) v (PEX x) (sent x) (closed x).
Definition set_PEX (v : option (list PexCall)) (x : Peer) : Peer :=
  mkPeer (ID x) (Addr x) (FastExtension x) (AmChoking x) (PeerInterested x)
    (OptimisticUnchoked x) (BytesDownlaodedInChokePeriod x)
    (BytesUploadedInChokePeriod x) (Snubbed x) (Downloading x) v (sent x) (closed x).
Definition set_sent (v : list Message) (x : Peer) : Peer :=
  mkPeer (ID x) (Addr x) (FastExtension x) (AmChoking x) (PeerInterested x)
    (OptimisticUnchoked x) (BytesDownlaodedInChokePeriod x)
    (BytesUploadedInChokePeriod x) (Snubbed x) (Downloading x) (PEX x) v (closed x).
Definition set_closed (v : bool) (x : Peer) : Peer :=
  mkPeer (ID x) (Addr x) (FastExtension x) (AmChoking x) (PeerInterested x)
    (OptimisticUnchoked x) (BytesDownlaodedInChokePeriod x)
    (BytesUploadedInChokePeriod x) (Snubbed x) (Downloading x) (PEX x) (sent x) v.
(** [type torrent struct]: the fields the event loop code of run.go and
    the choke scheduler read or write. Maps keyed by a pointer are keyed
    by the address; a handshaker is kept with the address of its
    connection; a channel variable is [true] when it is not nil.
    [closedConns] and [closedHandshakers] record the calls of
    [CloseConn] and of a handshaker's [Close]. *)
Record torrent := mkTorrent {
  config : Config;
  heap : gmap nat Peer;
  peers : gset nat;
  incomingPeers : gset nat;
  outgoingPeers : gset nat;
  peersSnubbed : gset nat;
  peerIDs : gset string;
  connectedPeerIPs : gset string;
  incomingHandshakers : gmap nat TCPAddr;
  outgoingHandshakers : gmap nat TCPAddr;
  bitfield : option Bitfield.Bitfield;
  pieces : list Piece;
  completed : bool;
  pieceMessages : bool;
  blockPieceMessages : bool;
  pieceDownloaders : gmap nat N;
  pieceDownloadersSnubbed : gmap nat N;
  pieceDownloadersChoked : gmap nat N;
  infoDownloaders : gset nat;
  infoDownloadersSnubbed : gset nat;
  optimisticUnchokedPeers : list nat;
  info : option N;
  addrList : list TCPAddr;
  piecePicker : option (list PickerCall);
  resume : bool;
  resumeWriteTimer : bool;
  needMorePeers : bool;
  bytesAllocated : Z;
  checkedPieces : N;
  closedConns : list TCPAddr;
  closedHandshakers : list nat
}.

Definition set_heap (v : gmap nat Peer) (x : torrent) : torrent :=
  mkTorrent (config x) v (peers x) (incomingPeers x) (outgoingPeers x)
    (peersSnubbed x) (peerIDs x) (connectedPeerIPs x) (incomingHandshakers x)
    (outgoingHandshakers x) (bitfield x) (pieces x) (completed x) (pieceMessages x)
    (blockPieceMessages x) (pieceDownloaders x) (pieceDownloadersSnubbed x)
    (pieceDownloadersChoked x) (infoDownloaders x) (infoDownloadersSnubbed x)
    (optimisticUnchokedPeers x) (info x) (addrList x) (piecePicker x) (resume x)
    (resumeWriteTimer x) (needMorePeers x) (bytesAllocated x) (checkedPieces x)
    (closedConns x) (closedHandshakers x).
Definition set_peers (v : gset nat) (x : torrent) : torrent :=
  mkTorrent (config x) (heap x) v (incomingPeers x) (outgoingPeers x)
    (peersSnubbed x) (peerIDs x) (connectedPeerIPs x) (incomingHandshakers x)
    (outgoingHandshakers x) (bitfield x) (pieces x) (completed x) (pieceMessages x)
    (blockPieceMessages x) (pieceDownloaders x) (pieceDownloadersSnubbed x)
    (pieceDownloadersChoked x) (infoDownloaders x) (infoDownloadersSnubbed x)
    (optimisticUnchokedPeers x) (info x) (addrList x) (piecePicker x) (resume x)
    (resumeWriteTimer x) (needMorePeers x) (bytesAllocated x) (checkedPieces x)
    (closedConns x) (closedHandshakers x).
Definition set_incomingPeers (v : gset nat) (x : torrent) : torrent :=
  mkTorrent (config x) (heap x) (peers x) v (outgoingPeers x) (peersSnubbed x)
    (peerIDs x) (connectedPeerIPs x) (incomingHandshakers x) (outgoingHandshakers x)
    (bitfield x) (pieces x) (completed x) (pieceMessages x) (blockPieceMessages x)
    (pieceDownloaders x) (pieceDownloadersSnubbed x) (pieceDownloadersChoked x)
    (infoDownloaders x) (infoDownloadersSnubbed x) (optimisticUnchokedPeers x)
    (info x) (addrList x) (piecePicker x) (resume x) (resumeWriteTimer x)
    (needMorePeers x) (bytesAllocated x) (checkedPieces x) (closedConns x)
    (closedHandshakers x).
Definition set_outgoingPeers (v : gset nat) (x : torrent) : torrent :=
  mkTorrent (config x) (heap x) (peers x) (incomingPeers x) v (peersSnubbed x)
    (peerIDs x) (connectedPeerIPs x) (incomingHandshakers x) (outgoingHandshakers x)
    (bitfield x) (pieces x) (completed x) (pieceMessages x) (blockPieceMessages x)
    (pieceDownloaders x) (pieceDownloadersSnubbed x) (pieceDownloadersChoked x)
    (infoDownloaders x) (infoDownloadersSnubbed x) (optimisticUnchokedPeers x)
    (info x) (addrList x) (piecePicker x) (resume x) (resumeWriteTimer x)
    (needMorePeers x) (bytesAllocated x) (checkedPieces x) (closedConns x)
    (closedHandshakers x).
Definition set_peersSnubbed (v : gset nat) (x : torrent) : torrent :=
  mkTorrent (config x) (heap x) (peers x) (incomingPeers x) (outgoingPeers x) v
    (peerIDs x) (connectedPeerIPs x) (incomingHandshakers x) (outgoingHandshakers x)
    (bitfield x) (pieces x) (completed x) (pieceMessages x) (blockPieceMessages x)
    (pieceDownloaders x) (pieceDownloadersSnubbed x) (pieceDownloadersChoked x)
    (infoDownloaders x) (infoDownloadersSnubbed x) (optimisticUnchokedPeers x)
    (info x) (addrList x) (piecePicker x) (resume x) (resumeWriteTimer x)
    (needMorePeers x) (bytesAllocated x) (checkedPieces x) (closedConns x)
    (closedHandshakers x).
Definition set_peerIDs (v : gset string) (x : torrent) : torrent :=
  mkTorrent (config x) (heap x) (peers x) (incomingPeers x) (outgoingPeers x)
    (peersSnubbed x) v (connectedPeerIPs x) (incomingHandshakers x)
    (outgoingHandshakers x) (bitfield x) (pieces x) (completed x) (pieceMessages x)
    (blockPieceMessages x) (pieceDownloaders x) (pieceDownloadersSnubbed x)
    (pieceDownloadersChoked x) (infoDownloaders x) (infoDownloadersSnubbed x)
    (optimisticUnchokedPeers x) (info x) (addrList x) (piecePicker x) (resume x)
    (resumeWriteTimer x) (needMorePeers x) (bytesAllocated x) (checkedPieces x)
    (closedConns x) (closedHandshakers x).
Definition set_connectedPeerIPs (v : gset string) (x : torrent) : torrent :=
  mkTorrent (config x) (heap x) (peers x) (incomingPeers x) (outgoingPeers x)
    (peersSnubbed x) (peerIDs x) v (incomingHandshakers x) (outgoingHandshakers x)
    (bitfield x) (pieces x) (completed x) (pieceMessages x) (blockPieceMessages x)
    (pieceDownloaders x) (pieceDownloadersSnubbed x) (pieceDownloadersChoked x)
    (infoDownloaders x) (infoDownloadersSnubbed x) (optimisticUnchokedPeers x)
    (info x) (addrList x) (piecePicker x) (resume x) (resumeWriteTimer x)
    (needMorePeers x) (bytesAllocated x) (checkedPieces x) (closedConns x)
    (closedHandshakers x).
Definition set_incomingHandshakers (v : gmap nat TCPAddr) (x : torrent) : torrent :=
  mkTorrent (config x) (heap x) (peers x) (incomingPeers x) (outgoingPeers x)
    (peersSnubbed x) (peerIDs x) (connectedPeerIPs x) v (outgoingHandshakers x)
    (bitfield x) (pieces x) (completed x) (pieceMessages x) (blockPieceMessages x)
    (pieceDownloaders x) (pieceDownloadersSnubbed x) (pieceDownloadersChoked x)
    (infoDownloaders x) (infoDownloadersSnubbed x) (optimisticUnchokedPeers x)
    (info x) (addrList x) (piecePicker x) (resume x) (resumeWriteTimer x)
    (needMorePeers x) (bytesAllocated x) (checkedPieces x) (closedConns x)
    (closedHandshakers x).
Definition set_outgoingHandshakers (v : gmap nat TCPAddr) (x : torrent) : torrent :=
  mkTorrent (config x) (heap x) (peers x) (incomingPeers x) (outgoingPeers x)
    (peersSnubbed x) (peerIDs x) (connectedPeerIPs x) (incomingHandshakers x) v
    (bitfield x) (pieces x) (completed x) (pieceMessages x) (blockPieceMessages x)
    (pieceDownloaders x) (pieceDownloadersSnubbed x) (pieceDownloadersChoked x)
    (infoDownloaders x) (infoDownloadersSnubbed x) (optimisticUnchokedPeers x)
    (info x) (addrList x) (piecePicker x) (resume x) (resumeWriteTimer x)
    (needMorePeers x) (bytesAllocated x) (checkedPieces x) (closedConns x)
    (closedHandshakers x).
Definition set_bitfield (v : option Bitfield.Bitfield) (x : torrent) : torrent :=
  mkTorrent (config x) (heap x) (peers x) (incomingPeers x) (outgoingPeers x)
    (peersSnubbed x) (peerIDs x) (connectedPeerIPs x) (incomingHandshakers x)
    (outgoingHandshakers x) v (pieces x) (completed x) (pieceMessages x)
    (blockPieceMessages x) (pieceDownloaders x) (pieceDownloadersSnubbed x)
    (pieceDownloadersChoked x) (infoDownloaders x) (infoDownloadersSnubbed x)
    (optimisticUnchokedPeers x) (info x) (addrList x) (piecePicker x) (resume x)
    (resumeWriteTimer x) (needMorePeers x) (bytesAllocated x) (checkedPieces x)
    (closedConns x) (closedHandshakers x).
Definition set_pieces (v : list Piece) (x : torrent) : torrent :=
  mkTorrent (config x) (heap x) (peers x) (incomingPeers x) (outgoingPeers x)
    (peersSnubbed x) (peerIDs x) (connectedPeerIPs x) (incomingHandshakers x)
    (outgoingHandshakers x) (bitfield x) v (completed x) (pieceMessages x)
    (blockPieceMessages x) (pieceDownloaders x) (pieceDownloadersSnubbed x)
    (pieceDownloadersChoked x) (infoDownloaders x) (infoDownloadersSnubbed x)
    (optimisticUnchokedPeers x) (info x) (addrList x) (piecePicker x) (resume x)
    (resumeWriteTimer x) (needMorePeers x) (bytesAllocated x) (checkedPieces x)
    (closedConns x) (closedHandshakers x).
Definition set_completed (v : bool) (x : torrent) : torrent :=
  mkTorrent (config x) (heap x) (peers x) (incomingPeers x) (outgoingPeers x)
    (peersSnubbed x) (peerIDs x) (connectedPeerIPs x) (incomingHandshakers x)
    (outgoingHandshakers x) (bitfield x) (pieces x) v (pieceMessages x)
    (blockPieceMessages x) (pieceDownloaders x) (pieceDownloadersSnubbed x)
    (pieceDownloadersChoked x) (infoDownloaders x) (infoDownloadersSnubbed x)
    (optimisticUnchokedPeers x) (info x) (addrList x) (piecePicker x) (resume x)
    (resumeWriteTimer x) (needMorePeers x) (bytesAllocated x) (checkedPieces x)
    (closedConns x) (closedHandshakers x).
Definition set_pieceMessages (v : bool) (x : torrent) : torrent :=
  mkTorrent (config x) (heap x) (peers x) (incomingPeers x) (outgoingPeers x)
    (peersSnubbed x) (peerIDs x) (connectedPeerIPs x) (incomingHandshakers x)
    (outgoingHandshakers x) (bitfield x) (pieces x) (completed x) v
    (blockPieceMessages x) (pieceDownloaders x) (pieceDownloadersSnubbed x)
    (pieceDownloadersChoked x) (infoDownloaders x) (infoDownloadersSnubbed x)
    (optimisticUnchokedPeers x) (info x) (addrList x) (piecePicker x) (resume x)
    (resumeWriteTimer x) (needMorePeers x) (bytesAllocated x) (checkedPieces x)
    (closedConns x) (closedHandshakers x).
Definition set_blockPieceMessages (v : bool) (x : torrent) : torrent :=
  mkTorrent (config x) (heap x) (peers x) (incomingPeers x) (outgoingPeers x)
    (peersSnubbed x) (peerIDs x) (connectedPeerIPs x) (incomingHandshakers x)
    (outgoingHandshakers x) (bitfield x) (pieces x) (completed x) (pieceMessages x) v
    (pieceDownloaders x) (pieceDownloadersSnubbed x) (pieceDownloadersChoked x)
    (infoDownloaders x) (infoDownloadersSnubbed x) (optimisticUnchokedPeers x)
    (info x) (addrList x) (piecePicker x) (resume x) (resumeWriteTimer x)
    (needMorePeers x) (bytesAllocated x) (checkedPieces x) (closedConns x)
    (closedHandshakers x).
Definition set_pieceDownloaders (v : gmap nat N) (x : torrent) : torrent :=
  mkTorrent (config x) (heap x) (peers x) (incomingPeers x) (outgoingPeers x)
    (peersSnubbed x) (peerIDs x) (connectedPeerIPs x) (incomingHandshakers x)
    (outgoingHandshakers x) (bitfield x) (pieces x) (completed x) (pieceMessages x)
    (blockPieceMessages x) v (pieceDownloadersSnubbed x) (pieceDownloadersChoked x)
    (infoDownloaders x) (infoDownloadersSnubbed x) (optimisticUnchokedPeers x)
    (info x) (addrList x) (piecePicker x) (resume x) (resumeWriteTimer x)
    (needMorePeers x) (bytesAllocated x) (checkedPieces x) (closedConns x)
    (closedHandshakers x).
Definition set_pieceDownloadersSnubbed (v : gmap nat N) (x : torrent) : torrent :=
  mkTorrent (config x) (heap x) (peers x) (incomingPeers x) (outgoingPeers x)
    (peersSnubbed x) (peerIDs x) (connectedPeerIPs x) (incomingHandshakers x)
    (outgoingHandshakers x) (bitfield x) (pieces x) (completed x) (pieceMessages x)
    (blockPieceMessages x) (pieceDownloaders x) v (pieceDownloadersChoked x)
    (infoDownloaders x) (infoDownloadersSnubbed x) (optimisticUnchokedPeers x)
    (info x) (addrList x) (piecePicker x) (resume x) (resumeWriteTimer x)
    (needMorePeers x) (bytesAllocated x) (checkedPieces x) (closedConns x)
    (closedHandshakers x).
Definition set_pieceDownloadersChoked (v : gmap nat N) (x : torrent) : torrent :=
  mkTorrent (config x) (heap x) (peers x) (incomingPeers x) (outgoingPeers x)
    (peersSnubbed x) (peerIDs x) (connectedPeerIPs x) (incomingHandshakers x)
    (outgoingHandshakers x) (bitfield x) (pieces x) (completed x) (pieceMessages x)
    (blockPieceMessages x) (pieceDownloaders x) (pieceDownloadersSnubbed x) v
    (infoDownloaders x) (infoDownloadersSnubbed x) (optimisticUnchokedPeers x)
    (info x) (addrList x) (piecePicker x) (resume x) (resumeWriteTimer x)
    (needMorePeers x) (bytesAllocated x) (checkedPieces x) (closedConns x)
    (closedHandshakers x).
Definition set_infoDownloaders (v : gset nat) (x : torrent) : torrent :=
  mkTorrent (config x) (heap x) (peers x) (incomingPeers x) (outgoingPeers x)
    (peersSnubbed x) (peerIDs x) (connectedPeerIPs x) (incomingHandshakers x)
    (outgoingHandshakers x) (bitfield x) (pieces x) (completed x) (pieceMessages x)
    (blockPieceMessages x) (pieceDownloaders x) (pieceDownloadersSnubbed x)
    (pieceDownloadersChoked x) v (infoDownloadersSnubbed x)
    (optimisticUnchokedPeers x) (info x) (addrList x) (piecePicker x) (resume x)
    (resumeWriteTimer x) (needMorePeers x) (bytesAllocated x) (checkedPieces x)
    (closedConns x) (closedHandshakers x).
Definition set_infoDownloadersSnubbed (v : gset nat) (x : torrent) : torrent :=
  mkTorrent (config x) (heap x) (peers x) (incomingPeers x) (outgoingPeers x)
    (peersSnubbed x) (peerIDs x) (connectedPeerIPs x) (incomingHandshakers x)
    (outgoingHandshakers x) (bitfield x) (pieces x) (completed x) (pieceMessages x)
    (blockPieceMessages x) (pieceDownloaders x) (pieceDownloadersSnubbed x)
    (pieceDownloadersChoked x) (infoDownloaders x) v (optimisticUnchokedPeers x)
    (info x) (addrList x) (piecePicker x) (resume x) (resumeWriteTimer x)
    (needMorePeers x) (bytesAllocated x) (checkedPieces x) (closedConns x)
    (closedHandshakers x).
Definition set_optimisticUnchokedPeers (v : list nat) (x : torrent) : torrent :=
  mkTorrent (config x) (heap x) (peers x) (incomingPeers x) (outgoingPeers x)
    (peersSnubbed x) (peerIDs x) (connectedPeerIPs x) (incomingHandshakers x)
    (outgoingHandshakers x) (bitfield x) (pieces x) (completed x) (pieceMessages x)
    (blockPieceMessages x) (pieceDownloaders x) (pieceDownloadersSnubbed x)
    (pieceDownloadersChoked x) (infoDownloaders x) (infoDownloadersSnubbed x) v
    (info x) (addrList x) (piecePicker x) (resume x) (resumeWriteTimer x)
    (needMorePeers x) (bytesAllocated x) (checkedPieces x) (closedConns x)
    (closedHandshakers x).
Definition set_info (v : option N) (x : torrent) : torrent :=
  mkTorrent (config x) (heap x) (peers x) (incomingPeers x) (outgoingPeers x)
    (peersSnubbed x) (peerIDs x) (connectedPeerIPs x) (incomingHandshakers x)
    (outgoingHandshakers x) (bitfield x) (pieces x) (completed x) (pieceMessages x)
    (blockPieceMessages x) (pieceDownloaders x) (pieceDownloadersSnubbed x)
    (pieceDownloadersChoked x) (infoDownloaders x) (infoDownloadersSnubbed x)
    (optimisticUnchokedPeers x) v (addrList x) (piecePicker x) (resume x)
    (resumeWriteTimer x) (needMorePeers x) (bytesAllocated x) (checkedPieces x)
    (closedConns x) (closedHandshakers x).
Definition set_addrList (v : list TCPAddr) (x : torrent) : torrent :=
  mkTorrent (config x) (heap x) (peers x) (incomingPeers x) (outgoingPeers x)
    (peersSnubbed x) (peerIDs x) (connectedPeerIPs x) (incomingHandshakers x)
    (outgoingHandshakers x) (bitfield x) (pieces x) (completed x) (pieceMessages x)
    (blockPieceMessages x) (pieceDownloaders x) (pieceDownloadersSnubbed x)
    (pieceDownloadersChoked x) (infoDownloaders x) (infoDownloadersSnubbed x)
    (optimisticUnchokedPeers x) (info x) v (piecePicker x) (resume x)
    (resumeWriteTimer x) (needMorePeers x) (bytesAllocated x) (checkedPieces x)
    (closedConns x) (closedHandshakers x).
Definition set_piecePicker (v : option (list PickerCall)) (x : torrent) : torrent :=
  mkTorrent (config x) (heap x) (peers x) (incomingPeers x) (outgoingPeers x)
    (peersSnubbed x) (peerIDs x) (connectedPeerIPs x) (incomingHandshakers x)
    (outgoingHandshakers x) (bitfield x) (pieces x) (completed x) (pieceMessages x)
    (blockPieceMessages x) (pieceDownloaders x) (pieceDownloadersSnubbed x)
    (pieceDownloadersChoked x) (infoDownloaders x) (infoDownloadersSnubbed x)
    (optimisticUnchokedPeers x) (info x) (addrList x) v (resume x)
    (resumeWriteTimer x) (needMorePeers x) (bytesAllocated x) (checkedPieces x)
    (closedConns x) (closedHandshakers x).
Definition set_resume (v : bool) (x : torrent) : torrent :=
  mkTorrent (config x) (heap x) (peers x) (incomingPeers x) (outgoingPeers x)
    (peersSnubbed x) (peerIDs x) (connectedPeerIPs x) (incomingHandshakers x)
    (outgoingHandshakers x) (bitfield x) (pieces x) (completed x) (pieceMessages x)
    (blockPieceMessages x) (pieceDownloaders x) (pieceDownloadersSnubbed x)
    (pieceDownloadersChoked x) (infoDownloaders x) (infoDownloadersSnubbed x)
    (optimisticUnchokedPeers x) (info x) (addrList x) (piecePicker x) v
    (resumeWriteTimer x) (needMorePeers x) (bytesAllocated x) (checkedPieces x)
    (closedConns x) (closedHandshakers x).
Definition set_resumeWriteTimer (v : bool) (x : torrent) : torrent :=
  mkTorrent (config x) (heap x) (peers x) (incomingPeers x) (outgoingPeers x)
    (peersSnubbed x) (peerIDs x) (connectedPeerIPs x) (incomingHandshakers x)
    (outgoingHandshakers x) (bitfield x) (pieces x) (completed x) (pieceMessages x)
    (blockPieceMessages x) (pieceDownloaders x) (pieceDownloadersSnubbed x)
    (pieceDownloadersChoked x) (infoDownloaders x) (infoDownloadersSnubbed x)
    (optimisticUnchokedPeers x) (info x) (addrList x) (piecePicker x) (resume x) v
    (needMorePeers x) (bytesAllocated x) (checkedPieces x) (closedConns x)
    (closedHandshakers x).
Definition set_needMorePeers (v : bool) (x : torrent) : torrent :=
  mkTorrent (config x) (heap x) (peers x) (incomingPeers x) (outgoingPeers x)
    (peersSnubbed x) (peerIDs x) (connectedPeerIPs x) (incomingHandshakers x)
    (outgoingHandshakers x) (bitfield x) (pieces x) (completed x) (pieceMessages x)
    (blockPieceMessages x) (pieceDownloaders x) (pieceDownloadersSnubbed x)
    (pieceDownloadersChoked x) (infoDownloaders x) (infoDownloadersSnubbed x)
    (optimisticUnchokedPeers x) (info x) (addrList x) (piecePicker x) (resume x)
    (resumeWriteTimer x) v (bytesAllocated x) (checkedPieces x) (closedConns x)
    (closedHandshakers x).
Definition set_bytesAllocated (v : Z) (x : torrent) : torrent :=
  mkTorrent (config x) (heap x) (peers x) (incomingPeers x) (outgoingPeers x)
    (peersSnubbed x) (peerIDs x) (connectedPeerIPs x) (incomingHandshakers x)
    (outgoingHandshakers x) (bitfield x) (pieces x) (completed x) (pieceMessages x)
    (blockPieceMessages x) (pieceDownloaders x) (pieceDownloadersSnubbed x)
    (pieceDownloadersChoked x) (infoDownloaders x) (infoDownloadersSnubbed x)
    (optimisticUnchokedPeers x) (info x) (addrList x) (piecePicker x) (resume x)
    (resumeWriteTimer x) (needMorePeers x) v (checkedPieces x) (closedConns x)
    (closedHandshakers x).
Definition set_checkedPieces (v : N) (x : torrent) : torrent :=
  mkTorrent (config x) (heap x) (peers x) (incomingPeers x) (outgoingPeers x)
    (peersSnubbed x) (peerIDs x) (connectedPeerIPs x) (incomingHandshakers x)
    (outgoingHandshakers x) (bitfield x) (pieces x) (completed x) (pieceMessages x)
    (blockPieceMessages x) (pieceDownloaders x) (pieceDownloadersSnubbed x)
    (pieceDownloadersChoked x) (infoDownloaders x) (infoDownloadersSnubbed x)
    (optimisticUnchokedPeers x) (info x) (addrList x) (piecePicker x) (resume x)
    (resumeWriteTimer x) (needMorePeers x) (bytesAllocated x) v (closedConns x)
    (closedHandshakers x).
Definition set_closedConns (v : list TCPAddr) (x : torrent) : torrent :=
  mkTorrent (config x) (heap x) (peers x) (incomingPeers x) (outgoingPeers x)
    (peersSnubbed x) (peerIDs x) (connectedPeerIPs x) (incomingHandshakers x)
    (outgoingHandshakers x) (bitfield x) (pieces x) (completed x) (pieceMessages x)
    (blockPieceMessages x) (pieceDownloaders x) (pieceDownloadersSnubbed x)
    (pieceDownloadersChoked x) (infoDownloaders x) (infoDownloadersSnubbed x)
    (optimisticUnchokedPeers x) (info x) (addrList x) (piecePicker x) (resume x)
    (resumeWriteTimer x) (needMorePeers x) (bytesAllocated x) (checkedPieces x) v
    (closedHandshakers x).
Definition set_closedHandshakers (v : list nat) (x : torrent) : torrent :=
  mkTorrent (config x) (heap x) (peers x) (incomingPeers x) (outgoingPeers x)
    (peersSnubbed x) (peerIDs x) (connectedPeerIPs x) (incomingHandshakers x)
    (outgoingHandshakers x) (bitfield x) (pieces x) (completed x) (pieceMessages x)
    (blockPieceMessages x) (pieceDownloaders x) (pieceDownloadersSnubbed x)
    (pieceDownloadersChoked x) (infoDownloaders x) (infoDownloadersSnubbed x)
    (optimisticUnchokedPeers x) (info x) (addrList x) (piecePicker x) (resume x)
    (resumeWriteTimer x) (needMorePeers x) (bytesAllocated x) (checkedPieces x)
    (closedConns x) v.
(** Functions of the repository that the event loop calls and that are
    not among the sources. A call may change the torrent in any way; it
    is identified by its name and its argument (an opaque number for a
    message, a worker or a peer address). *)
Inductive AbsentCall :=
| call_start
| call_stop (err : option string)
| call_stats
| call_getTrackers
| call_getPeers
| call_handleAllocationDone (al : nat)
| call_handleVerificationDone (ve : nat)
| call_announcerFields
| call_updateInterestedState (pe : nat)
| call_startPieceDownloaders
| call_startInfoDownloaders
| call_handlePieceMessage (pm : nat)
| call_handlePeerMessage (pm : nat)
| call_CancelPending (pe : nat)
| call_updateSeedDuration.

(** What the engine code takes from outside the sources: the absent
    functions, the two absent queries, and [sort.Slice], whose result
    on equal keys the Go library leaves open. *)
Record Env := mkEnv {
  absent : AbsentCall → torrent → torrent;
  status : torrent → Status;
  DoesHave : torrent → nat → N → bool;
  sortSlice : (nat → nat → bool) → list nat → list nat
}.

(** ** Peers on the heap *)

Definition update_peer (r : nat) (f : Peer → Peer) (t : torrent) : torrent :=
  set_heap (alter f r (heap t)) t.

(** [pe.SendMessage(msg)] *)
Definition SendMessage (r : nat) (m : Message) (t : torrent) : torrent :=
  update_peer r (fun pe => set_sent (sent pe ++ [m]) pe) t.

Definition peer_flag (f : Peer → bool) (t : torrent) (r : nat) : bool :=
  from_option f false (heap t !! r).

Definition peer_num (f : Peer → Z) (t : torrent) (r : nat) : Z :=
  from_option f 0%Z (heap t !! r).

(** A loop [for pe := range t.peers] whose body writes fields of [pe]
    only: every peer of the map gets the body once, whatever the order
    of the iteration. *)
Definition for_each_peer (f : Peer → Peer) (t : torrent) : torrent :=
  set_heap
    (map_imap (fun r pe => Some (if bool_decide (r ∈ peers t) then f pe else pe)) (heap t))
    t.

(** Modelled from the spec: [peer.New] is not among the sources. A peer
    entry starts with "AmChoking=true, PeerChoking=true", both interest
    flags false, zero counters. *)
Definition peer_New (p : Conn) : Peer :=
  mkPeer (conn_ID p) (conn_Addr p) (conn_FastExtension p) true false false 0%Z 0%Z
    false false None [] false.

(** The address of a newly allocated peer or handshaker: one in use
    nowhere in the torrent. *)
Definition fresh_peer (t : torrent) : nat :=
  fresh (dom (heap t) ∪ peers t ∪ incomingPeers t ∪ outgoingPeers t).

Definition fresh_handshaker (t : torrent) : nat :=
  fresh (dom (incomingHandshakers t) ∪ dom (outgoingHandshakers t)).

(** [func (t *torrent) chokePeer(pe)] *)
Definition chokePeer (pe : nat) (t : torrent) : torrent :=
  if negb (peer_flag AmChoking t pe) && bool_decide (is_Some (heap t !! pe)) then
    SendMessage pe ChokeMessage (update_peer pe (set_AmChoking true) t)
  else t.

(** [func (t *torrent) unchokePeer(pe)] *)
Definition unchokePeer (pe : nat) (t : torrent) : torrent :=
  if peer_flag AmChoking t pe then
    SendMessage pe UnchokeMessage (update_peer pe (set_AmChoking false) t)
  else t.

Definition pex_log (c : PexCall) (pe : Peer) : Peer :=
  match PEX pe with
  | Some l => set_PEX (Some (l ++ [c])) pe
  | None => pe
  end.

(** [func (t *torrent) pexAddPeer(addr)] *)
Definition pexAddPeer (addr : TCPAddr) (t : torrent) : torrent :=
  if negb (PEXEnabled (config t)) then t
  else for_each_peer (pex_log (PexAdd addr)) t.

(** [func (t *torrent) pexDropPeer(addr)] *)
Definition pexDropPeer (addr : TCPAddr) (t : torrent) : torrent :=
  if negb (PEXEnabled (config t)) then t
  else for_each_peer (pex_log (PexDrop addr)) t.

(** [func (t *torrent) setNeedMorePeers(val)]: the announcers are
    outside the model; the value last given to them is kept. *)
Definition setNeedMorePeers (val : bool) (t : torrent) : torrent :=
  set_needMorePeers val t.

Definition picker_call (c : PickerCall) (t : torrent) : torrent :=
  match piecePicker t with
  | Some l => set_piecePicker (Some (l ++ [c])) t
  | None => t
  end.

(** ** Dialling *)

(** Modelled from the spec: the addrlist package is not among the
    sources. "Priority-deduplicated queue of peer addresses": [Pop]
    takes the head of the queue, [Push] adds the addresses not yet
    queued, [Reset] empties it. *)
Definition addrList_Push (q addrs : list TCPAddr) : list TCPAddr :=
  q ++ filter (fun a => IP a ∉ map IP q) addrs.

(** The loop of [dialAddresses], by recursion on the queue it pops. *)
Fixpoint dialAddresses_loop (q : list TCPAddr) (t : torrent) : torrent :=
  if bool_decide (Z.of_nat (size (outgoingPeers t)) + Z.of_nat (size (outgoingHandshakers t))
                  < MaxPeerDial (config t))%Z then
    match q with
    | [] => setNeedMorePeers true (set_addrList [] t)
    | addr :: rest =>
        if bool_decide (IP addr ∈ connectedPeerIPs t) then dialAddresses_loop rest t
        else
          let h := fresh_handshaker t in
          dialAddresses_loop rest
            (set_connectedPeerIPs ({[IP addr]} ∪ connectedPeerIPs t)
               (set_outgoingHandshakers (<[h := addr]> (outgoingHandshakers t)) t))
    end
  else set_addrList q t.

(** [func (t *torrent) dialAddresses()] *)
Definition dialAddresses (t : torrent) : torrent :=
  if completed t then t else dialAddresses_loop (addrList t) t.

(** [func (t *torrent) handleNewPeers(addrs, source)] *)
Definition handleNewPeers (env : Env) (addrs : list TCPAddr) (t : torrent) : torrent :=
  let t := setNeedMorePeers false t in
  match status env t with
  | Stopped | Stopping => t
  | _ =>
      if negb (completed t)
      then dialAddresses (set_addrList (addrList_Push (addrList t) addrs) t)
      else t
  end.

(** ** Closing *)

(** [func (t *torrent) closePieceDownloader(pd)], for the downloader of
    peer [pe] on piece [index]. *)
Definition closePieceDownloader (pe : nat) (index : N) (t : torrent) : torrent :=
  let t := set_pieceDownloaders (delete pe (pieceDownloaders t)) t in
  let t := set_pieceDownloadersSnubbed (delete pe (pieceDownloadersSnubbed t)) t in
  let t := set_pieceDownloadersChoked (delete pe (pieceDownloadersChoked t)) t in
  let t := picker_call (HandleCancelDownload pe index) t in
  update_peer pe (set_Downloading false) t.

(** [func (t *torrent) closeInfoDownloader(id)] *)
Definition closeInfoDownloader (pe : nat) (t : torrent) : torrent :=
  let t := set_infoDownloaders (infoDownloaders t ∖ {[pe]}) t in
  set_infoDownloadersSnubbed (infoDownloadersSnubbed t ∖ {[pe]}) t.

(** [func (t *torrent) closePeer(pe)] *)
Definition closePeer (pe : nat) (t : torrent) : torrent :=
  match heap t !! pe with
  | None => t
  | Some p =>
      let t := update_peer pe (set_closed true) t in
      let t := match pieceDownloaders t !! pe with
               | Some index => closePieceDownloader pe index t
               | None => t
               end in
      let t := if bool_decide (pe ∈ infoDownloaders t) then closeInfoDownloader pe t else t in
      let t := set_peers (peers t ∖ {[pe]}) t in
      let t := set_incomingPeers (incomingPeers t ∖ {[pe]}) t in
      let t := set_outgoingPeers (outgoingPeers t ∖ {[pe]}) t in
      let t := set_peersSnubbed (peersSnubbed t ∖ {[pe]}) t in
      let t := set_peerIDs (peerIDs t ∖ {[ID p]}) t in
      let t := set_connectedPeerIPs (connectedPeerIPs t ∖ {[IP (Addr p)]}) t in
      let t := picker_call (HandleDisconnect pe) t in
      let t := pexDropPeer (Addr p) t in
      dialAddresses t
  end.

(** ** Starting a peer *)

(** [func (t *torrent) sendFirstMessage(p)] *)
Definition sendFirstMessage (r : nat) (t : torrent) : torrent :=
  match heap t !! r with
  | None => t
  | Some p =>
      let bf := bitfield t in
      let t1 :=
        if FastExtension p && from_option Bitfield.All false bf then
          SendMessage r HaveAllMessage t
        else if FastExtension p
                && from_option (fun b => bool_decide (Bitfield.Count b = 0)) true bf then
          SendMessage r HaveNoneMessage t
        else match bf with
             | Some b => SendMessage r (BitfieldMessage (Bitfield.Bytes b)) t
             | None => t
             end in
      let metadataSize := default 0 (info t) in
      SendMessage r
        (ExtensionHandshake metadataSize (ExtensionHandshakeClientVersion (config t))
           (IP (Addr p)))
        t1
  end.

(** [func (t *torrent) startPeer(p, peers)]; [incoming] tells which of
    [t.incomingPeers] and [t.outgoingPeers] is passed as [peers]. *)
Definition startPeer (p : Conn) (incoming : bool) (t : torrent) : torrent :=
  let t := pexAddPeer (conn_Addr p) t in
  if bool_decide (conn_ID p ∈ peerIDs t) then
    let t := set_closedConns (closedConns t ++ [conn_Addr p]) t in
    let t := pexDropPeer (conn_Addr p) t in
    dialAddresses t
  else
    let t := set_peerIDs ({[conn_ID p]} ∪ peerIDs t) t in
    let pe := fresh_peer t in
    let t := set_heap (<[pe := peer_New p]> (heap t)) t in
    let t := set_peers ({[pe]} ∪ peers t) t in
    let t := if incoming then set_incomingPeers ({[pe]} ∪ incomingPeers t) t
             else set_outgoingPeers ({[pe]} ∪ outgoingPeers t) t in
    let t := sendFirstMessage pe t in
    if bool_decide (size (peers t) ≤ 4)%nat then unchokePeer pe t else t.

(** ** Choke scheduler (session.go) *)

(** The peers [tickUnchoke] considers, in the order the map yields
    them. *)
Definition considered (t : torrent) : list nat :=
  filter (fun r => peer_flag PeerInterested t r && negb (peer_flag OptimisticUnchoked t r) = true)
    (elements (peers t)).

(** The two [less] functions given to [sort.Slice]. *)
Definition less (t : torrent) (i j : nat) : bool :=
  if completed t then
    (peer_num BytesUploadedInChokePeriod t i >? peer_num BytesUploadedInChokePeriod t j)%Z
  else
    (peer_num BytesDownlaodedInChokePeriod t i >? peer_num BytesDownlaodedInChokePeriod t j)%Z.

Definition reset_period (pe : Peer) : Peer :=
  set_BytesUploadedInChokePeriod 0%Z (set_BytesDownlaodedInChokePeriod 0%Z pe).

Fixpoint tickUnchoke_loop (l : list nat) (unchoked : Z) (t : torrent) : torrent :=
  match l with
  | [] => t
  | pe :: rest =>
      if bool_decide (unchoked < UnchokedPeers (config t))%Z then
        tickUnchoke_loop rest (unchoked + 1)%Z
          (update_peer pe (set_OptimisticUnchoked false) (unchokePeer pe t))
      else tickUnchoke_loop rest unchoked (chokePeer pe t)
  end.

(** [func (t *torrent) tickUnchoke()] *)
Definition tickUnchoke (env : Env) (t : torrent) : torrent :=
  let ps := sortSlice env (less t) (considered t) in
  tickUnchoke_loop ps 0%Z (for_each_peer reset_period t).

Fixpoint optimistic_loop (n : nat) (cands rnd : list nat) (t : torrent) : torrent :=
  match n with
  | O => t
  | S n' =>
      match cands with
      | [] => t
      | c :: _ =>
          let k := (hd 0 rnd mod length cands)%nat in
          let pe := nth k cands c in
          let t := update_peer pe (set_OptimisticUnchoked true) t in
          let t := unchokePeer pe t in
          optimistic_loop n' cands (tl rnd)
            (set_optimisticUnchokedPeers (optimisticUnchokedPeers t ++ [pe]) t)
      end
  end.

(** [func (t *torrent) tickOptimisticUnchoke()]; [rnd] are the values
    [rand.Intn] draws. *)
Definition tickOptimisticUnchoke (rnd : list nat) (t : torrent) : torrent :=
  let cands :=
    filter (fun r => peer_flag PeerInterested t r && negb (peer_flag OptimisticUnchoked t r)
                     && peer_flag AmChoking t r = true)
      (elements (peers t)) in
  let t := foldl (fun t pe => if peer_flag OptimisticUnchoked t pe then chokePeer pe t else t)
             t (optimisticUnchokedPeers t) in
  let t := set_optimisticUnchokedPeers [] t in
  optimistic_loop (Z.to_nat (OptimisticUnchokedPeers (config t))) cands rnd t.

(** ** Resume writes *)

(** [func (t *torrent) deferWriteBitfield()] *)
Definition deferWriteBitfield (t : torrent) : torrent :=
  if negb (resumeWriteTimer t) then set_resumeWriteTimer true t else t.

(** [func (t *torrent) writeBitfield(stopOnError)]; [writeErr] is what
    [t.resume.WriteBitfield] returns. *)
Definition writeBitfield (env : Env) (stopOnError : bool) (writeErr : option string)
    (t : torrent) : torrent :=
  let t := if resumeWriteTimer t then set_resumeWriteTimer false t else t in
  match writeErr with
  | Some err =>
      if stopOnError
      then absent env (call_stop (Some ("cannot write bitfield to resume db: " +:+ err))) t
      else t
  | None => t
  end.

(** ** Completion *)

(** [func (t *torrent) checkCompletion() bool]; [None] is the panic of
    a nil bitfield. *)
Definition checkCompletion (env : Env) (t : torrent) : option (bool * torrent) :=
  if completed t then Some (true, t)
  else
    match bitfield t with
    | None => None
    | Some bf =>
        if negb (Bitfield.All bf) then Some (false, t)
        else
          let t := set_completed true t in
          let t := set_closedHandshakers
                     (closedHandshakers t ++ elements (dom (outgoingHandshakers t))) t in
          let t := set_outgoingHandshakers ∅ t in
          let t := foldl (fun t pe =>
                            if negb (peer_flag PeerInterested t pe) then closePeer pe t else t)
                     t (elements (peers t)) in
          let t := set_addrList [] t in
          let t := foldl (fun t pd =>
                            absent env (call_CancelPending pd.1)
                              (closePieceDownloader pd.1 pd.2 t))
                     t (map_to_list (pieceDownloaders t)) in
          let t := set_piecePicker None t in
          let t := absent env call_updateSeedDuration t in
          Some (true, t)
    end.

(** ** The event loop *)

(** One constructor per case of the select of [run], with what the
    case receives and what the outside returns while it is handled. *)
Inductive event :=
| CloseC
| StartCommand
| StopCommand
| AnnouncersStopped
| NotifyErrorCommand
| NotifyListenCommand
| StatsCommand
| TrackersCommand
| PeersCommand
| AllocatorProgress (AllocatedSize : Z)
| AllocatorResult (al : nat)
| VerifierProgress (Checked : N)
| VerifierResult (ve : nat)
| AddrsFromTrackers (addrs : list TCPAddr)
| AddPeersCommand (addrs : list TCPAddr)
| DhtPeers (addrs : list TCPAddr)
| IncomingConn (remote : TCPAddr) (blocked : bool)
| AnnouncerRequest
| PieceWriterResult (Index : N) (Error : option string) (writeErr : option string)
| ResumeWriteTimer (writeErr : option string)
| StatsWriteTicker
| SpeedCounterTicker
| PeerSnubbed (pe : nat)
| UnchokeTimer
| OptimisticUnchokeTimer (rnd : list nat)
| IncomingHandshakerResult (ih : nat) (remote : TCPAddr) (Error : bool)
    (PeerID : string) (fast : bool)
| OutgoingHandshakerResult (oh : nat) (addr : TCPAddr) (Error : bool)
    (PeerID : string) (fast : bool)
| PeerDisconnected (pe : nat)
| PieceMessage (pm : nat)
| PeerMessage (pm : nat).

Inductive outcome :=
| Next (t : torrent)          (* the loop goes on *)
| Exit (t : torrent)          (* run returns *)
| Panicking (msg : string)
| Disabled.                   (* the channel of the case is nil *)

Definition close_conn (a : TCPAddr) (t : torrent) : torrent :=
  set_closedConns (closedConns t ++ [a]) t.

(** The body of [case pw := <-t.pieceWriterResultC]. *)
Definition pieceWriterResult (env : Env) (index : N) (err writeErr : option string)
    (t : torrent) : outcome :=
  let i := N.to_nat index in
  let t := set_pieces (alter (fun p => mkPiece false (Done p)) i (pieces t)) t in
  let t := set_pieceMessages (blockPieceMessages t) t in
  let t := set_blockPieceMessages false t in
  match err with
  | Some e => Next (absent env (call_stop (Some e)) t)
  | None =>
      let t := set_pieces (alter (fun p => mkPiece (Writing p) true) i (pieces t)) t in
      match bitfield t with
      | None => Panicking "nil pointer dereference"
      | Some bf =>
          if Bitfield.Test bf index then Panicking "already have the piece"
          else
            let t := set_bitfield (Some (Bitfield.Set_ bf index)) t in
            let t := foldl (fun t pe =>
                              let t := absent env (call_updateInterestedState pe) t in
                              if DoesHave env t pe index then t
                              else SendMessage pe (HaveMessage index) t)
                       t (elements (peers t)) in
            match checkCompletion env t with
            | None => Panicking "nil pointer dereference"
            | Some (completed, t) =>
                Next (if resume t then
                        if completed then writeBitfield env true writeErr t
                        else deferWriteBitfield t
                      else t)
            end
      end
  end.

(** The body of [case conn := <-t.incomingConnC]; [blocked] is
    [t.blocklist != nil && t.blocklist.Blocked(ip)]. *)
Definition incomingConn (remote : TCPAddr) (blocked : bool) (t : torrent) : torrent :=
  if bool_decide (Z.of_nat (size (incomingHandshakers t)) + Z.of_nat (size (incomingPeers t))
                  >= MaxPeerAccept (config t))%Z then close_conn remote t
  else if blocked then close_conn remote t
  else if bool_decide (IP remote ∈ connectedPeerIPs t) then close_conn remote t
  else
    let h := fresh_handshaker t in
    set_connectedPeerIPs ({[IP remote]} ∪ connectedPeerIPs t)
      (set_incomingHandshakers (<[h := remote]> (incomingHandshakers t)) t).

(** The body of [case pe := <-t.peerSnubbedC]. *)
Definition peerSnubbed (env : Env) (pe : nat) (t : torrent) : torrent :=
  let t := update_peer pe (set_Snubbed true) t in
  let t := set_peersSnubbed ({[pe]} ∪ peersSnubbed t) t in
  match pieceDownloaders t !! pe with
  | Some index =>
      let t := set_pieceDownloadersSnubbed (<[pe := index]> (pieceDownloadersSnubbed t)) t in
      let t := picker_call (HandleSnubbed pe index) t in
      absent env call_startPieceDownloaders t
  | None =>
      if bool_decide (pe ∈ infoDownloaders t) then
        let t := set_infoDownloadersSnubbed ({[pe]} ∪ infoDownloadersSnubbed t) t in
        absent env call_startInfoDownloaders t
      else t
  end.

(** One iteration of [func (t *torrent) run()]. *)
Definition step (env : Env) (t : torrent) (e : event) : outcome :=
  match e with
  | CloseC => Exit (absent env (call_stop (Some "torrent is closed")) t)
  | StartCommand => Next (absent env call_start t)
  | StopCommand => Next (absent env (call_stop None) t)
  | AnnouncersStopped => Next t
  | NotifyErrorCommand => Next t
  | NotifyListenCommand => Next t
  | StatsCommand => Next (absent env call_stats t)
  | TrackersCommand => Next (absent env call_getTrackers t)
  | PeersCommand => Next (absent env call_getPeers t)
  | AllocatorProgress sz => Next (set_bytesAllocated sz t)
  | AllocatorResult al => Next (absent env (call_handleAllocationDone al) t)
  | VerifierProgress c => Next (set_checkedPieces c t)
  | VerifierResult ve => Next (absent env (call_handleVerificationDone ve) t)
  | AddrsFromTrackers addrs => Next (handleNewPeers env addrs t)
  | AddPeersCommand addrs => Next (handleNewPeers env addrs t)
  | DhtPeers addrs => Next (handleNewPeers env addrs t)
  | IncomingConn remote blocked => Next (incomingConn remote blocked t)
  | AnnouncerRequest => Next (absent env call_announcerFields t)
  | PieceWriterResult index err writeErr => pieceWriterResult env index err writeErr t
  | ResumeWriteTimer writeErr =>
      if resumeWriteTimer t then Next (writeBitfield env true writeErr t) else Disabled
  | StatsWriteTicker => Next (absent env call_updateSeedDuration t)
  | SpeedCounterTicker => Next t
  | PeerSnubbed pe => Next (peerSnubbed env pe t)
  | UnchokeTimer => Next (tickUnchoke env t)
  | OptimisticUnchokeTimer rnd => Next (tickOptimisticUnchoke rnd t)
  | IncomingHandshakerResult ih remote err peerID fast =>
      let t := set_incomingHandshakers (delete ih (incomingHandshakers t)) t in
      if err then Next (set_connectedPeerIPs (connectedPeerIPs t ∖ {[IP remote]}) t)
      else Next (startPeer (mkConn peerID remote fast) true t)
  | OutgoingHandshakerResult oh addr err peerID fast =>
      let t := set_outgoingHandshakers (delete oh (outgoingHandshakers t)) t in
      if err then
        Next (dialAddresses (set_connectedPeerIPs (connectedPeerIPs t ∖ {[IP addr]}) t))
      else Next (startPeer (mkConn peerID addr fast) false t)
  | PeerDisconnected pe => Next (closePeer pe t)
  | PieceMessage pm =>
      if pieceMessages t then Next (absent env (call_handlePieceMessage pm) t) else Disabled
  | PeerMessage pm => Next (absent env (call_handlePeerMessage pm) t)
  end.

(** [run] along a sequence of selected cases: the state in which the
    loop waits again, or how it ended. *)
Fixpoint run (env : Env) (t : torrent) (evs : list event) : outcome :=
  match evs with
  | [] => Next t
  | e :: rest =>
      match step env t e with
      | Next t' => run env t' rest
      | o => o
      end
  end.

(** ** Notions used by the properties *)

(** Piece [i] is present: its bit is set. *)
Definition has_piece (t : torrent) (i : N) : bool :=
  from_option (fun bf => Bitfield.Test bf i) false (bitfield t).

(** The connection [(id, ip)] is registered in the two duplicate
    filters, and it is present among the connected peers. *)
Definition registered (t : torrent) (id ip : string) : Prop :=
  id ∈ peerIDs t ∧ ip ∈ connectedPeerIPs t.

Definition present (t : torrent) (id ip : string) : Prop :=
  ∃ r pe, r ∈ peers t ∧ heap t !! r = Some pe ∧ ID pe = id ∧ IP (Addr pe) = ip.

(** An address a handshaker is still working on. *)
Definition handshaking (t : torrent) (ip : string) : Prop :=
  ∃ h a, (incomingHandshakers t !! h = Some a ∨ outgoingHandshakers t !! h = Some a)
         ∧ IP a = ip.

(** The three maps are mutually consistent: every connected peer has
    its ID and its IP registered, every registered ID is that of a
    connected peer, and every registered IP is that of a connected peer
    or of a connection in its handshake. *)
Definition consistent (t : torrent) : Prop :=
  (∀ r pe, r ∈ peers t → heap t !! r = Some pe →
     ID pe ∈ peerIDs t ∧ IP (Addr pe) ∈ connectedPeerIPs t)
  ∧ (∀ id, id ∈ peerIDs t → ∃ r pe, r ∈ peers t ∧ heap t !! r = Some pe ∧ ID pe = id)
  ∧ (∀ ip, ip ∈ connectedPeerIPs t →
       (∃ r pe, r ∈ peers t ∧ heap t !! r = Some pe ∧ IP (Addr pe) = ip)
       ∨ handshaking t ip).

(** What [sort.Slice] guarantees for the function [f] it is given: its
    argument comes back reordered so that no element is [f]-less than
    one before it. *)
Definition sorts_by (sortSlice : (nat → nat → bool) → list nat → list nat)
    (f : nat → nat → bool) : Prop :=
  ∀ l, Permutation (sortSlice f l) l
       ∧ ∀ i j x y, (i < j)%nat → sortSlice f l !! i = Some x →
                    sortSlice f l !! j = Some y → f y x = false.

(** The absent functions never take a piece away: a piece present
    before a call is present after it. *)
Definition keeps_pieces (env : Env) : Prop :=
  ∀ c t i, has_piece t i = true → has_piece (absent env c t) i = true.

(** Every piece present in [t] is present in [t']. *)
Definition pieces_le (t t' : torrent) : Prop :=
  ∀ i, has_piece t i = true → has_piece t' i = true.

(** The index has a bit in the bitfield of the torrent. *)
Definition has_bit (t : torrent) (i : N) : Prop :=
  ∃ bf, bitfield t = Some bf ∧ (N.to_nat (i / 8) < length (Bitfield.Bytes bf))%nat.

(** The two counters of a choke period. *)
Definition counters (x : Peer) : Z * Z :=
  (BytesDownlaodedInChokePeriod x, BytesUploadedInChokePeriod x).

(** The counter the regular unchoke ranks by. *)
Definition period_bytes (t : torrent) (r : nat) : Z :=
  if completed t then peer_num BytesUploadedInChokePeriod t r
  else peer_num BytesDownlaodedInChokePeriod t r.

(** An environment to run the code with: the absent functions do
    nothing, the torrent is running, no peer advertises any piece, and
    the sort is a merge sort. *)
Definition quiet_env : Env :=
  mkEnv (fun _ t => t) (fun _ => Running) (fun _ _ _ => false)
    (fun f l => merge_sort (fun x y => Is_true (negb (f y x))) l).

End Engine.

(* ===================================================================== *)
(** ** The handlers of the event loop that are not among the sources      *)
(* ===================================================================== *)

Module Handlers.

Import Engine.

(** What a verifier hands over when it is done: an error, or the
    bitfield it built. *)
Record Verification := mkVerification {
  ve_Error : option string;
  ve_Bitfield : Bitfield.Bitfield
}.

(** Modelled from the spec: [stats], [getTrackers], [getPeers] and
    [announcerFields] are not among the sources. Each computes the
    answer to a request, "the current {uploaded, downloaded, left,
    event} snapshot", which the loop sends back: the torrent is left as
    it is. *)
Definition query (t : torrent) : torrent := t.

(** Modelled from the spec: [start], [stop], [handleAllocationDone],
    [handlePieceMessage], [handlePeerMessage], [updateInterestedState],
    [startPieceDownloaders], [startInfoDownloaders], [CancelPending]
    and [updateSeedDuration] are not among the sources. The spec has
    them act on the status, the peers, the downloaders, the announcers
    and the statistics, and gives the bitfield two writers only: the
    piece-writer result, "On success the engine [...] updates the
    bitfield", which is in run.go, and the verifier result. What such a
    handler does to the rest of the torrent is [rest]; the bitfield is
    the one it found. *)
Definition keeps_bitfield (rest : torrent → torrent) (t : torrent) : torrent :=
  set_bitfield (bitfield t) (rest t).

(** Modelled from the spec: [handleVerificationDone] is not among the
    sources. "Verifying: the verifier hashes existing data into the
    initial bitfield"; the verifier "on completion emits the full
    initial bitfield"; `VerificationFailed` is one of the failures a
    torrent stops with. The bitfield of a result without error becomes
    the bitfield of a torrent that has none, its initial bitfield; the
    bitfield a torrent already has is not replaced. What else the
    handler does is [rest]. *)
Definition handleVerificationDone (rest : torrent → torrent) (ve : Verification)
    (t : torrent) : torrent :=
  match ve_Error ve, bitfield t with
  | None, None => set_bitfield (Some (ve_Bitfield ve)) (rest t)
  | _, _ => keeps_bitfield rest t
  end.

(** The functions the event loop calls outside the sources. [rest]
    stands for what the spec leaves open, [verifier] for the results of
    the verifiers, by the number the loop knows them by. *)
Definition handlers (rest : AbsentCall → torrent → torrent) (verifier : nat → Verification)
    (c : AbsentCall) (t : torrent) : torrent :=
  match c with
  | call_stats | call_getTrackers | call_getPeers | call_announcerFields => query t
  | call_handleVerificationDone ve => handleVerificationDone (rest c) (verifier ve) t
  | _ => keeps_bitfield (rest c) t
  end.

Definition spec_env (rest : AbsentCall → torrent → torrent) (verifier : nat → Verification)
    (status : torrent → Status) (DoesHave : torrent → nat → N → bool)
    (sortSlice : (nat → nat → bool) → list nat → list nat) : Env :=
  mkEnv (handlers rest verifier) status DoesHave sortSlice.

End Handlers.

(* ===================================================================== *)
(** ** Concrete pieces, peers and schedules                               *)
(* ===================================================================== *)

Module Samples.

Import PieceDownloader.

(** A piece of [n] blocks of 16 KiB. *)
Definition piece_of (index : N) (n : nat) : Piece :=
  mkPiece index (N.of_nat n * 16384)
    (map (fun i => mkPieceBlock (N.of_nat i) (N.of_nat i * 16384) 16384) (seq 0 n)).

Definition plain_peer : Peer := mkPeer false ∅.

(** A peer with the Fast extension that allows piece 7 while choking. *)
Definition fast_peer : Peer := mkPeer true {[7]}.

(** A piece of three bytes in two blocks. *)
Definition small_piece : Piece :=
  mkPiece 0 3 [mkPieceBlock 0 0 2; mkPieceBlock 1 2 1].

(** A piece of two bytes in one block. *)
Definition one_block_piece : Piece := mkPiece 0 2 [mkPieceBlock 0 0 2].

(** Ten requests, a redundant unchoke, one more request. *)
Definition unchoke_while_unchoked : list event :=
  replicate 10 (Tick None) ++ [UnchokeC; Tick None].

(** Both blocks of [small_piece] requested and delivered in full. *)
Definition small_piece_download : list event :=
  [Tick None; Tick None;
   PieceC (mkPieceMsg 0 (Some [Byte.x61; Byte.x62]));
   PieceC (mkPieceMsg 1 (Some [Byte.x63]))].

(** The downloader of piece 7 from [fast_peer] after its first request. *)
Definition fast_download : PieceDownloader :=
  (Run (New (piece_of 7 1) fast_peer) [Tick None]).1.2.

End Samples.

Module EngineSamples.

Import Engine.

Definition config0 : Config := mkConfig false 2 1 10 10 "rain".

(** A running torrent of eight pieces, none present, no peer. *)
Definition torrent0 : torrent :=
  mkTorrent config0 ∅ ∅ ∅ ∅ ∅ ∅ ∅ ∅ ∅
    (Some (Bitfield.New 8)) (replicate 8 (mkPiece false false))
    false true false ∅ ∅ ∅ ∅ ∅ [] (Some 100) [] (Some [])
    false false false 0%Z 0 [] [].

Definition addrA : TCPAddr := mkTCPAddr "10.0.0.1" 6881.
Definition addrB : TCPAddr := mkTCPAddr "10.0.0.2" 6881.

Definition connA : Conn := mkConn "A" addrA false.

(** A peer with ID "A" connects from [addrA] and is registered; a
    second connection arrives from [addrB] and starts its handshake. *)
Definition one_peer_one_handshake : list event :=
  [IncomingConn addrA false;
   IncomingHandshakerResult (fresh_handshaker torrent0) addrA false "A" false;
   IncomingConn addrB false].

Definition torrent_AB : torrent :=
  match run quiet_env torrent0 one_peer_one_handshake with
  | Next t => t
  | _ => torrent0
  end.

(** The handshake of the second connection, handshaker 0, ends well
    and presents the peer ID "A" again. *)
Definition duplicate_id : event :=
  IncomingHandshakerResult 0 addrB false "A" false.

Definition torrent_dup : torrent :=
  match step quiet_env torrent_AB duplicate_id with
  | Next t => t
  | _ => torrent0
  end.

(** Four interested peers that downloaded 3000, 1000, 4000 and 2000
    bytes in the choke period, the second and the fourth unchoked so
    far, with two peers that downloaded more than any of them: peer 5
    is not interested, peer 6 is optimistically unchoked. Both are
    unchoked. *)
Definition ranked_peer (id : string) (a : TCPAddr) (choking interested optimistic : bool)
    (down : Z) : Peer :=
  mkPeer id a false choking interested optimistic down 0%Z false false None [] false.

Definition torrent_six : torrent :=
  set_peers {[1%nat; 2%nat; 3%nat; 4%nat; 5%nat; 6%nat]}
    (set_heap
       (<[1%nat := ranked_peer "P1" (mkTCPAddr "10.0.0.1" 1) true true false 3000]>
          (<[2%nat := ranked_peer "P2" (mkTCPAddr "10.0.0.2" 1) false true false 1000]>
             (<[3%nat := ranked_peer "P3" (mkTCPAddr "10.0.0.3" 1) true true false 4000]>
                (<[4%nat := ranked_peer "P4" (mkTCPAddr "10.0.0.4" 1) false true false 2000]>
                   (<[5%nat := ranked_peer "P5" (mkTCPAddr "10.0.0.5" 1) false false false 9000]>
                      (<[6%nat := ranked_peer "P6" (mkTCPAddr "10.0.0.6" 1) false true true
                                    8000]> ∅))))))
       torrent0).

(** A torrent that is started, allocated and verified, the verifier
    finding piece 1 on the disk; pieces 3 and 5 are then written, with
    an unchoke tick and a peer message in between, and the torrent is
    stopped. Of what the spec leaves open of the handlers, [stop]
    blocks the piece messages here and the others do nothing. *)
Definition torrent_unverified : torrent := set_bitfield None torrent0.

Definition found_piece_1 : Handlers.Verification :=
  Handlers.mkVerification None (Bitfield.Set_ (Bitfield.New 8) 1).

Definition handlers_env : Env :=
  Handlers.spec_env
    (fun c t => match c with call_stop _ => set_pieceMessages false t | _ => t end)
    (fun _ => found_piece_1) (fun _ => Running) (fun _ _ _ => false)
    (sortSlice quiet_env).

Definition torrent_verified : torrent :=
  match run handlers_env torrent_unverified
          [StartCommand; AllocatorResult 0; VerifierResult 0] with
  | Next t => t
  | _ => torrent0
  end.

Definition written_3_and_5 : list event :=
  [PieceWriterResult 3 None None; UnchokeTimer; PeerMessage 0;
   PieceWriterResult 5 None None; StopCommand].

Definition torrent_135 : torrent :=
  match run handlers_env torrent_verified written_3_and_5 with
  | Next t => t
  | _ => torrent0
  end.

End EngineSamples.

(* ===================================================================== *)
(** ** The connection registry of the engine                              *)
(* ===================================================================== *)

Module Registry.

Import Engine.

(** What identifies the connection behind a peer. *)
Definition ident (x : Peer) : string * TCPAddr := (ID x, Addr x).

Definition idents (t : torrent) : gmap nat (string * TCPAddr) := ident <$> heap t.

(** The options, the maps and the sets that say who is connected. *)
Definition wiring (t : torrent) :=
  (config t, completed t, peers t, incomingPeers t, outgoingPeers t,
   peerIDs t, connectedPeerIPs t, incomingHandshakers t, outgoingHandshakers t).

(** [t'] differs from [t] in nothing that says who is connected. *)
Definition same_registry (t t' : torrent) : Prop :=
  wiring t' = wiring t ∧ idents t' = idents t.

(** Handshaker [h] of the incoming ([true]) or outgoing ([false])
    direction works on a connection to [a]. *)
Definition handshake (t : torrent) (incoming : bool) (h : nat) (a : TCPAddr) : Prop :=
  if incoming then incomingHandshakers t !! h = Some a
  else outgoingHandshakers t !! h = Some a.

(** The registry is sound: connected peers are on the heap with their
    ID and IP registered; no two of them share an ID or an IP; every
    registered ID is that of a connected peer; every registered IP is
    that of a connected peer or of a handshake; a handshake has its IP
    registered, an IP no connected peer has; and no two handshakes
    share an IP. *)
Definition registry_ok (t : torrent) : Prop :=
  (∀ r, r ∈ peers t → is_Some (idents t !! r))
  ∧ (∀ r id a, r ∈ peers t → idents t !! r = Some (id, a) →
       id ∈ peerIDs t ∧ IP a ∈ connectedPeerIPs t)
  ∧ (∀ r1 r2 id1 id2 a1 a2, r1 ∈ peers t → r2 ∈ peers t →
       idents t !! r1 = Some (id1, a1) → idents t !! r2 = Some (id2, a2) →
       id1 = id2 ∨ IP a1 = IP a2 → r1 = r2)
  ∧ (∀ id, id ∈ peerIDs t → ∃ r a, r ∈ peers t ∧ idents t !! r = Some (id, a))
  ∧ (∀ ip, ip ∈ connectedPeerIPs t →
       (∃ r id a, r ∈ peers t ∧ idents t !! r = Some (id, a) ∧ IP a = ip)
       ∨ (∃ i h a, handshake t i h a ∧ IP a = ip))
  ∧ (∀ i h a, handshake t i h a →
       IP a ∈ connectedPeerIPs t
       ∧ ∀ r id a', r ∈ peers t → idents t !! r = Some (id, a') → IP a' ≠ IP a)
  ∧ (∀ i h a i' h' a', handshake t i h a → handshake t i' h' a' → IP a = IP a' →
       i = i' ∧ h = h').

(** The limits on accepted and on dialled connections are kept. *)
Definition limits_ok (t : torrent) : Prop :=
  (Z.of_nat (size (incomingHandshakers t)) + Z.of_nat (size (incomingPeers t))
   ≤ MaxPeerAccept (config t))%Z
  ∧ (Z.of_nat (size (outgoingPeers t)) + Z.of_nat (size (outgoingHandshakers t))
     ≤ MaxPeerDial (config t))%Z.

(** The cases of the select that make, end or use connections, with
    what the engine relies on when one is taken: a handshake result
    comes from a handshaker of the torrent and carries the address the
    handshaker was made for, a successful one presents a peer ID not
    yet connected, and a disconnect comes from a connected peer. *)
Definition arrives (t : torrent) (e : event) : bool :=
  match e with
  | IncomingConn _ _ | AddrsFromTrackers _ | AddPeersCommand _ | DhtPeers _
  | UnchokeTimer | OptimisticUnchokeTimer _ => true
  | IncomingHandshakerResult ih remote err id _ =>
      bool_decide (incomingHandshakers t !! ih = Some remote)
      && (err || bool_decide (id ∉ peerIDs t))
  | OutgoingHandshakerResult oh addr err id _ =>
      bool_decide (outgoingHandshakers t !! oh = Some addr)
      && (err || bool_decide (id ∉ peerIDs t))
  | PeerDisconnected pe => bool_decide (pe ∈ peers t)
  | _ => false
  end.

(** A run of such cases. *)
Fixpoint arrive_all (env : Env) (t : torrent) (evs : list event) : bool :=
  match evs with
  | [] => true
  | e :: rest =>
      arrives t e
      && match step env t e with
         | Next t' => arrive_all env t' rest
         | _ => false
         end
  end.

(** The two timers of the choke scheduler. *)
Definition is_tick (e : event) : bool :=
  match e with
  | UnchokeTimer | OptimisticUnchokeTimer _ => true
  | _ => false
  end.

End Registry.

(* ===================================================================== *)
(** ** Metadata downloads from request to reassembly                      *)
(* ===================================================================== *)

Module InfoDownloaderRuns.

Import InfoDownloader.

(** The block table and the buffer are the ones [New] builds for the
    advertised size, a uint32. *)
Definition sized (d : InfoDownloader) : Prop :=
  MetadataSize d < 2 ^ 32
  ∧ blocks d = createBlocks (MetadataSize d)
  ∧ N.of_nat (length (Bytes d)) = MetadataSize d.

(** The two results of [GotBlock] that stand for a run-time panic of
    the Go code. *)
Definition panics (r : string + InfoDownloader) : Prop :=
  r = inl "index out of range" ∨ r = inl "slice bounds out of range".

(** The bytes of block [i] of a metadata blob. *)
Definition chunk (blob : list Byte.byte) (i : N) : list Byte.byte :=
  take (N.to_nat blockSize) (drop (N.to_nat (i * blockSize)) blob).

(** The peer answers the requests in the order [order], each with the
    matching part of [blob]; the first error ends the exchange. *)
Fixpoint deliver (d : InfoDownloader) (order : list N) (blob : list Byte.byte)
  : string + InfoDownloader :=
  match order with
  | [] => inr d
  | i :: rest =>
      match GotBlock d i (chunk blob i) with
      | inl e => inl e
      | inr d' => deliver d' rest blob
      end
  end.

End InfoDownloaderRuns.

(* ===================================================================== *)
(** ** Winding a peer connection down                                     *)
(* ===================================================================== *)

Module PeerConnRuns.

Import PeerConn.

(** Once [Run] has been started, so have the reader and the writer. *)
Definition tasks_started (p : Peer) : Prop :=
  run p ≠ RunNotStarted → reader p ≠ NotStarted ∧ writer p ≠ NotStarted.

(** The steps of [Close]. *)
Definition is_close_action (a : action) : bool :=
  match a with
  | CloseCall _ | CloseReturn _ => true
  | _ => false
  end.

(** A schedule that lets the reader and the writer return and [Run]
    take its remaining steps. *)
Definition wind_down (p : Peer) : list action :=
  (match reader p with Active => [ReaderExit] | _ => [] end)
  ++ (match writer p with Active => [WriterExit] | _ => [] end)
  ++ match run p with
     | RunSelect => [SelectReaderDone; RunReceive; RunReturn]
     | RunWaiting l => replicate (length l) RunReceive ++ [RunReturn]
     | _ => []
     end.

End PeerConnRuns.

(* ===================================================================== *)
(** ** Schedules of the piece downloader                                  *)
(* ===================================================================== *)

Module PieceDownloaderRuns.

Import PieceDownloader.

(** The limiter holds at least one token per outstanding block, and
    never more than its capacity. *)
Definition pipelined (d : PieceDownloader) : Prop :=
  match limiter d with
  | Some n => (outstanding d ≤ n)%nat ∧ (n ≤ maxQueuedBlocks)%nat
  | None => (outstanding d ≤ maxQueuedBlocks)%nat
  end.

(** Schedules in which UnchokeC is only ever selected right after
    ChokeC. [choked] tells whether the previous case was ChokeC. *)
Fixpoint unchoke_follows_choke (choked : bool) (evs : list event) : bool :=
  match evs with
  | [] => true
  | UnchokeC :: rest => choked && unchoke_follows_choke false rest
  | ChokeC :: rest => unchoke_follows_choke true rest
  | _ :: rest => unchoke_follows_choke false rest
  end.

(** A Piece message whose data slice is not nil. *)
Definition carries_data (e : event) : bool :=
  match e with
  | PieceC p => bool_decide (p_Data p ≠ None)
  | _ => true
  end.

(** [k] rounds of: request the next block, have it rejected. *)
Fixpoint rejected_rounds (k : nat) (req : Request) : list event :=
  match k with
  | O => []
  | S k' => Tick None :: RejectC req :: rejected_rounds k' req
  end.

End PieceDownloaderRuns.

(* ===================================================================== *)
(** * Properties of the piece-download state machine                      *)
(* ===================================================================== *)

Module PieceDownloaderFacts.

Import PieceDownloader.

(** ** [nextBlock] *)

Lemma nextBlock_from_Some k bs j bs' :
  nextBlock_from k bs = Some (j, bs') →
  ∃ i b, j = (k + i)%nat ∧ bs !! i = Some b ∧ requested b = false
         ∧ bs' = <[i := set_requested b true]> bs
         ∧ ∀ i' b', (i' < i)%nat → bs !! i' = Some b' → requested b' = true.
Proof.
  revert k j bs'. induction bs as [|b rest IH]; intros k j bs' H; simpl in H; [done|].
  destruct (requested b) eqn:Hr; simpl in H.
  - destruct (nextBlock_from (S k) rest) as [[j' rest']|] eqn:Hn; [|done].
    injection H as <- <-.
    destruct (IH _ _ _ Hn) as (i & b0 & -> & Hl & Hrq & -> & Hbefore).
    exists (S i), b0. repeat split; [lia | done | done |].
    intros [|i'] b' Hlt Hl'; simpl in Hl'.
    + by injection Hl' as <-.
    + eapply Hbefore; [|done]. lia.
  - injection H as <- <-. exists 0%nat, b. repeat split; [lia | done |]. intros; lia.
Qed.

Lemma nextBlock_from_None k bs :
  nextBlock_from k bs = None → Forall (fun b => requested b = true) bs.
Proof.
  revert k. induction bs as [|b rest IH]; intros k H; simpl in H; [constructor|].
  destruct (requested b) eqn:Hr; simpl in H; [|done].
  destruct (nextBlock_from (S k) rest) as [[j' rest']|] eqn:Hn; [done|].
  constructor; eauto.
Qed.

Lemma nextBlock_Some d j d' :
  nextBlock d = Some (j, d') →
  ∃ b, blocks d !! j = Some b ∧ requested b = false
       ∧ d' = set_blocks d (<[j := set_requested b true]> (blocks d))
       ∧ ∀ i' b', (i' < j)%nat → blocks d !! i' = Some b' → requested b' = true.
Proof.
  unfold nextBlock. destruct (nextBlock_from 0 (blocks d)) as [[i bs]|] eqn:Hn; [|done].
  intros [= <- <-]. destruct (nextBlock_from_Some _ _ _ _ Hn) as (i0 & b & -> & ? & ? & -> & ?).
  exists b. simpl. eauto.
Qed.

Lemma nextBlock_finds d i b :
  blocks d !! i = Some b → requested b = false →
  ∃ j d', nextBlock d = Some (j, d') ∧ (j ≤ i)%nat.
Proof.
  intros Hl Hr. destruct (nextBlock d) as [[j d']|] eqn:Hn.
  - exists j, d'. split; [done|].
    destruct (nextBlock_Some _ _ _ Hn) as (b' & Hj & Hrj & _ & Hbefore).
    destruct (decide (j ≤ i)%nat); [done|].
    assert (requested b = true) by (eapply Hbefore; [|done]; lia). congruence.
  - unfold nextBlock in Hn.
    destruct (nextBlock_from 0 (blocks d)) as [[? ?]|] eqn:Hf; [done|].
    apply nextBlock_from_None in Hf. rewrite Forall_lookup in Hf.
    specialize (Hf _ _ Hl). simpl in Hf. congruence.
Qed.


(** ** What one iteration emits *)

Lemma step_Continue_no_DoneC d e d' out :
  step d e = Continue d' out → Forall (fun o => is_DoneC o = false) out.
Proof.
  destruct e; simpl; intros H; repeat case_match; simplify_eq;
    repeat constructor.
Qed.

Lemma step_Return_DoneC d e d' out :
  step d e = Return d' out →
  Forall (fun o => is_DoneC o = false) out
  ∨ (out = [DoneC (assembleBlocks d')] ∧ allDone d' = true).
Proof.
  destruct e; simpl; intros H; repeat case_match; simplify_eq;
    first [ by right | left; repeat constructor ].
Qed.

Lemma step_Piece d e d' out :
  step d e = Continue d' out ∨ step d e = Return d' out →
  pd_Piece d' = pd_Piece d ∧ pd_Peer d' = pd_Peer d.
Proof.
  intros [H|H]; destruct e; simpl in H; repeat case_match; simplify_eq; try done;
    match goal with
    | Hn : nextBlock _ = Some _ |- _ =>
        apply nextBlock_Some in Hn; destruct Hn as (? & ? & ? & -> & ?); done
    end.
Qed.

Lemma Run_Piece d evs s d' out :
  Run d evs = (s, d', out) → pd_Piece d' = pd_Piece d ∧ pd_Peer d' = pd_Peer d.
Proof.
  revert d s d' out. induction evs as [|e evs IH]; intros d s d' out H; simpl in H.
  - by simplify_eq.
  - destruct (step d e) as [d1 o1|d1 o1| | |] eqn:Hs; simplify_eq; try done.
    + destruct (Run d1 evs) as [[s2 d2] o2] eqn:Hr. simplify_eq.
      destruct (IH _ _ _ _ Hr) as [-> ->]. apply (step_Piece d e d1 o1). by left.
    + apply (step_Piece d e d' out). by right.
Qed.

Lemma countDoneC_app o1 o2 : countDoneC (o1 ++ o2) = (countDoneC o1 + countDoneC o2)%nat.
Proof. unfold countDoneC. by rewrite filter_app, length_app. Qed.

Lemma countDoneC_none out :
  Forall (fun o => is_DoneC o = false) out → countDoneC out = 0%nat.
Proof.
  unfold countDoneC. induction 1 as [|o out Ho _ IH]; [done|].
  rewrite filter_cons. destruct (decide (is_DoneC o = true)); [congruence | done].
Qed.

Lemma not_DoneC_elem out buf :
  Forall (fun o => is_DoneC o = false) out → DoneC buf ∉ out.
Proof. rewrite Forall_forall. intros H Hin. by specialize (H _ Hin). Qed.

(** ** The assembled buffer *)

Lemma sumN_app l1 l2 : sumN (l1 ++ l2) = sumN l1 + sumN l2.
Proof. induction l1 as [|x l1 IH]; simpl; [done | rewrite IH; lia]. Qed.

(** How a run that emitted on DoneC ended. *)
Lemma Run_DoneC d evs s d' out :
  Run d evs = (s, d', out) →
  Forall (fun o => is_DoneC o = false) out
  ∨ (s = Returned ∧ allDone d' = true
     ∧ ∃ pre, out = pre ++ [DoneC (assembleBlocks d')]
              ∧ Forall (fun o => is_DoneC o = false) pre).
Proof.
  revert d s d' out. induction evs as [|e evs IH]; intros d s d' out H; simpl in H.
  - simplify_eq. left. constructor.
  - destruct (step d e) as [d1 o1|d1 o1| | |] eqn:Hs; simplify_eq;
      try (left; constructor).
    + destruct (Run d1 evs) as [[s2 d2] o2] eqn:Hr. simplify_eq.
      pose proof (step_Continue_no_DoneC _ _ _ _ Hs) as Ho1.
      destruct (IH _ _ _ _ Hr) as [Hno|(-> & Hall & pre & -> & Hpre)].
      * left. by apply Forall_app.
      * right. repeat split; [done|]. exists (o1 ++ pre).
        split; [by rewrite app_assoc | by apply Forall_app].
    + destruct (step_Return_DoneC _ _ _ _ Hs) as [Hno|[-> Hall]]; [by left|].
      right. repeat split; [done|]. exists []. split; [done | constructor].
Qed.

(** Only the Piece case sends on DoneC. *)
Lemma step_Return_PieceC d e d' o buf :
  step d e = Return d' o → DoneC buf ∈ o → ∃ p, e = PieceC p.
Proof.
  intros H Hin. destruct e as [sendErr|p|req| | |]; [| by exists p | | | |];
    exfalso; simpl in H; repeat case_match; simplify_eq;
    repeat (apply elem_of_cons in Hin as [Hin|Hin]; [discriminate Hin|]);
    by apply elem_of_nil in Hin.
Qed.

(** *** What the blocks hold *)

Lemma received_from_app acc l1 l2 i :
  received_from acc (l1 ++ l2) i = received_from (received_from acc l1 i) l2 i.
Proof.
  revert acc. induction l1 as [|e l1 IH]; intros acc; simpl; [done|].
  destruct e; apply IH.
Qed.

(** One case of the select leaves in every block the data it held,
    except that a Piece message puts its data into the block it names. *)
Lemma step_data d e d' o :
  step d e = Continue d' o ∨ step d e = Return d' o →
  length (blocks d') = length (blocks d)
  ∧ ∀ i b, blocks d !! i = Some b →
      ∃ b', blocks d' !! i = Some b' ∧ data b' = received_from (data b) [e] i.
Proof.
  assert (Hins : ∀ (bs : list block) j b0 b1, bs !! j = Some b0 →
            (∀ i b, bs !! i = Some b →
               ∃ b', <[j := b1]> bs !! i = Some b'
                     ∧ data b' = if bool_decide (j = i) then data b1 else data b)).
  { intros bs j b0 b1 Hj i b Hi. destruct (decide (j = i)) as [->|Hne].
    - exists b1. rewrite list_lookup_insert_eq by (by eapply lookup_lt_Some).
      by rewrite bool_decide_eq_true_2.
    - exists b. rewrite list_lookup_insert_ne by done.
      by rewrite bool_decide_eq_false_2. }
  intros H. destruct e as [sendErr|p|req| | |]; simpl in H.
  - (* Tick *)
    destruct (limiter d) as [n|]; [|by destruct H].
    case_bool_decide; [|by destruct H].
    destruct (nextBlock (set_limiter d (Some (S n)))) as [[j d2]|] eqn:Hn.
    + destruct (nextBlock_Some _ _ _ Hn) as (b0 & Hj & _ & -> & _). simpl in Hj.
      simpl in H. rewrite list_lookup_insert_eq in H by (by eapply lookup_lt_Some).
      assert (d' = set_blocks (set_limiter d (Some (S n)))
                     (<[j := set_requested b0 true]> (blocks d))) as ->
        by (destruct sendErr, H as [H|H]; by simplify_eq).
      simpl. split; [by rewrite length_insert|].
      intros i b Hi. destruct (Hins _ _ _ (set_requested b0 true) Hj i b Hi) as (b' & Hb' & Hd).
      exists b'. split; [done|]. rewrite Hd. case_bool_decide; [|done].
      simpl. by simplify_eq.
    + assert (d' = set_limiter (set_limiter d (Some (S n))) None) as ->
        by (destruct H as [H|H]; by simplify_eq).
      simpl. split; [done|]. intros i b Hi. by exists b.
  - (* Piece *)
    destruct (blocks d !! N.to_nat (p_Block_Index p)) as [b0|] eqn:Hj; [|by destruct H].
    match type of H with
    | context [match ?x with Some _ => _ | None => Deadlock end] =>
        destruct x as [d1|] eqn:Hd1; [|by destruct H]
    end.
    assert (blocks d1 = blocks d) as Hb1.
    { repeat case_match; simplify_eq; done. }
    assert (d' = set_blocks d1 (<[N.to_nat (p_Block_Index p) := set_data b0 (p_Data p)]>
                                  (blocks d1))) as ->.
    { destruct (allDone _), H as [H|H]; by simplify_eq. }
    simpl. rewrite Hb1. split; [by rewrite length_insert|].
    intros i b Hi. by apply (Hins _ _ b0).
  - (* Reject *)
    destruct (blocks d !! N.to_nat (req_Piece_Index req)) as [b0|] eqn:Hj; [|by destruct H].
    destruct (requested b0); simpl in H.
    + assert (d' = set_blocks d (<[N.to_nat (req_Piece_Index req)
                                   := set_requested b0 false]> (blocks d))) as ->
        by (destruct H as [H|H]; by simplify_eq).
      simpl. split; [by rewrite length_insert|].
      intros i b Hi.
      destruct (Hins _ _ _ (set_requested b0 false) Hj i b Hi) as (b' & Hb' & Hd).
      exists b'. split; [done|]. rewrite Hd. case_bool_decide; [|done].
      simpl. by simplify_eq.
    + assert (d' = d) as -> by (destruct H as [H|H]; by simplify_eq).
      split; [done|]. intros i b Hi. by exists b.
  - (* Choke *)
    assert (d' = set_limiter (set_blocks d (map choke_block (blocks d))) None) as ->
      by (destruct H as [H|H]; by simplify_eq).
    simpl. split; [by rewrite length_map|].
    intros i b Hi. exists (choke_block b). split.
    + change (map choke_block (blocks d)) with (choke_block <$> blocks d).
      by rewrite list_lookup_fmap, Hi.
    + unfold choke_block. by case_match.
  - (* Unchoke *)
    assert (d' = set_limiter d (Some 0%nat)) as -> by (destruct H as [H|H]; by simplify_eq).
    split; [done|]. intros i b Hi. by exists b.
  - (* Stop *)
    assert (d' = d) as -> by (destruct H as [H|H]; by simplify_eq).
    split; [done|]. intros i b Hi. by exists b.
Qed.

Lemma Run_data d evs d' o :
  Run d evs = (Running, d', o) →
  length (blocks d') = length (blocks d)
  ∧ ∀ i b, blocks d !! i = Some b →
      ∃ b', blocks d' !! i = Some b' ∧ data b' = received_from (data b) evs i.
Proof.
  revert d o. induction evs as [|e evs IH]; intros d o H; simpl in H.
  - simplify_eq. split; [done|]. intros i b Hi. by exists b.
  - destruct (step d e) as [d1 o1|d1 o1| | |] eqn:Hs; simplify_eq.
    destruct (Run d1 evs) as [[s2 d2] o2] eqn:Hr. simplify_eq.
    destruct (step_data d e d1 o1 (or_introl Hs)) as [Hl1 H1].
    destruct (IH _ _ Hr) as [Hl2 H2].
    split; [congruence|]. intros i b Hi.
    destruct (H1 i b Hi) as (b1 & Hb1 & Hd1).
    destruct (H2 i b1 Hb1) as (b2 & Hb2 & Hd2).
    exists b2. split; [done|].
    rewrite Hd2, Hd1. symmetry. apply (received_from_app (data b) [e] evs).
Qed.

(** *** Cutting a run in two *)

Lemma Run_app d pre evs d1 o1 :
  Run d pre = (Running, d1, o1) →
  Run d (pre ++ evs) = (let '(s, d2, o2) := Run d1 evs in (s, d2, o1 ++ o2)).
Proof.
  revert d o1. induction pre as [|e pre IH]; intros d o1 H; simpl in H.
  - simplify_eq. simpl. by destruct (Run d1 evs) as [[? ?] ?].
  - simpl. destruct (step d e) as [d0 o0|d0 o0| | |] eqn:Hs; simplify_eq.
    destruct (Run d0 pre) as [[s2 d2] o2] eqn:Hr. simplify_eq.
    rewrite (IH _ _ Hr). destruct (Run d1 evs) as [[? ?] ?]. by rewrite app_assoc.
Qed.

Lemma Run_Returned_split d evs d' out :
  Run d evs = (Returned, d', out) →
  ∃ pre e post d1 o1 o2,
    evs = pre ++ e :: post ∧ Run d pre = (Running, d1, o1)
    ∧ step d1 e = Return d' o2 ∧ out = o1 ++ o2.
Proof.
  revert d out. induction evs as [|e evs IH]; intros d out H; simpl in H; [done|].
  destruct (step d e) as [d0 o0|d0 o0| | |] eqn:Hs; simplify_eq.
  - destruct (Run d0 evs) as [[s2 d2] o2] eqn:Hr. simplify_eq.
    destruct (IH _ _ Hr) as (pre & e' & post & d1 & o1 & o3 & -> & Hpre & Hst & ->).
    exists (e :: pre), e', post, d1, (o0 ++ o1), o3. split; [done|].
    split; [simpl; by rewrite Hs, Hpre|]. split; [done | by rewrite app_assoc].
  - exists [], e, evs, d, [], out. done.
Qed.

(** *** The buffer and the data delivered *)

Lemma map_seq_lookup {A B} (f : A → B) (g : nat → B) (l : list A) k :
  (∀ i x, l !! i = Some x → f x = g (k + i)%nat) → map f l = map g (seq k (length l)).
Proof.
  revert k. induction l as [|a l IH]; intros k H; simpl; [done|]. f_equal.
  - rewrite (H 0%nat a eq_refl). f_equal. lia.
  - apply IH. intros i x Hi. rewrite (H (S i) x Hi). f_equal. lia.
Qed.

Lemma forallb_lookup {A} (f : A → bool) (l : list A) :
  forallb f l = true ↔ ∀ i x, l !! i = Some x → f x = true.
Proof.
  induction l as [|a l IH]; simpl.
  - split; [intros _ i x Hi; by rewrite lookup_nil in Hi | done].
  - rewrite andb_true_iff, IH. split.
    + intros [Ha Hl] [|i] x Hi; simpl in Hi; [by simplify_eq | by eapply Hl].
    + intros H. split; [by apply (H 0%nat) | intros i x Hi; by apply (H (S i))].
Qed.

Lemma blocks_assembled pi evs (bs : list block) :
  length bs = length (Piece_Blocks pi) →
  (∀ i b, bs !! i = Some b → data b = received evs i) →
  concat (map (fun b => default [] (data b)) bs) = assembled pi evs
  ∧ (forallb (fun b => bool_decide (data b ≠ None)) bs = true ↔ complete pi evs).
Proof.
  intros Hlen Hdata. split.
  - unfold assembled. rewrite <- Hlen. f_equal.
    apply map_seq_lookup. intros i b Hi. by rewrite (Hdata i b Hi).
  - rewrite forallb_lookup. unfold complete. rewrite <- Hlen. split.
    + intros H i Hi. destruct (lookup_lt_is_Some_2 bs i Hi) as [b Hb].
      rewrite <- (Hdata i b Hb). exact (bool_decide_eq_true_1 _ (H i b Hb)).
    + intros H i b Hb. apply bool_decide_eq_true_2. rewrite (Hdata i b Hb).
      apply H. by eapply lookup_lt_Some.
Qed.

Lemma New_lookup pi pe i b : blocks (New pi pe) !! i = Some b → data b = None.
Proof.
  unfold New. cbn [blocks].
  change (map (fun b => mkBlock b false None) (Piece_Blocks pi))
    with ((fun b => mkBlock b false None) <$> Piece_Blocks pi).
  rewrite list_lookup_fmap. destruct (Piece_Blocks pi !! i); intros H; by simplify_eq/=.
Qed.

Lemma New_length pi pe : length (blocks (New pi pe)) = length (Piece_Blocks pi).
Proof. unfold New. cbn [blocks]. apply length_map. Qed.

(** The blocks after a Piece message that followed a run from [New]. *)
Lemma New_Run_step_data pi pe pre d1 o1 p d' o :
  Run (New pi pe) pre = (Running, d1, o1) →
  step d1 (PieceC p) = Continue d' o ∨ step d1 (PieceC p) = Return d' o →
  length (blocks d') = length (Piece_Blocks pi)
  ∧ ∀ i b, blocks d' !! i = Some b → data b = received (pre ++ [PieceC p]) i.
Proof.
  intros Hpre Hst.
  destruct (Run_data _ _ _ _ Hpre) as [Hl1 H1].
  destruct (step_data _ _ _ _ Hst) as [Hl2 H2].
  rewrite New_length in Hl1. split; [congruence|].
  intros i b Hi.
  assert (i < length (blocks (New pi pe)))%nat as Hlt.
  { rewrite New_length, <- Hl1, <- Hl2. by eapply lookup_lt_Some. }
  destruct (lookup_lt_is_Some_2 _ _ Hlt) as [b0 Hb0].
  destruct (H1 i b0 Hb0) as (b1 & Hb1 & Hd1).
  destruct (H2 i b1 Hb1) as (b2 & Hb2 & Hd2).
  rewrite Hi in Hb2. simplify_eq.
  rewrite Hd2, Hd1, (New_lookup _ _ _ _ Hb0). symmetry.
  apply (received_from_app None pre [PieceC p]).
Qed.

Lemma assembled_length pi evs :
  well_sized pi evs → complete pi evs →
  N.of_nat (length (assembled pi evs)) = Piece_Length pi.
Proof.
  intros [Hsize <-] Hc. unfold assembled.
  rewrite (map_seq_lookup Block_Length
             (fun i => N.of_nat (length (default [] (received evs i)))) (Piece_Blocks pi) 0).
  - generalize (seq 0 (length (Piece_Blocks pi))). intros l.
    induction l as [|i l IH]; simpl; [done|].
    by rewrite length_app, Nat2N.inj_add, IH.
  - intros i b Hi. simpl.
    assert (i < length (Piece_Blocks pi))%nat as Hlt by (by eapply lookup_lt_Some).
    destruct (received evs i) as [x|] eqn:Hr; [|by destruct (Hc i Hlt)].
    simpl. symmetry. by eapply Hsize.
Qed.





(** ** Reject *)

Lemma step_PieceC_Continue d p d' o :
  step d (PieceC p) = Continue d' o →
  ∃ b0, blocks d !! N.to_nat (p_Block_Index p) = Some b0
        ∧ blocks d' = <[N.to_nat (p_Block_Index p) := set_data b0 (p_Data p)]> (blocks d)
        ∧ pd_Piece d' = pd_Piece d ∧ o = [].
Proof.
  simpl. destruct (blocks d !! N.to_nat (p_Block_Index p)) as [b0|]; [|done].
  intros H. exists b0. repeat case_match; simplify_eq; done.
Qed.

Lemma step_requests_sent d e d' o acc :
  step d e = Continue d' o → requests_sent d acc → requests_sent d' (acc ++ o).
Proof.
  intros Hs Hinv i b Hl Hr. destruct e; simpl in Hs.
  - (* Tick *)
    destruct (limiter d) as [n|] eqn:Hlim; [|done].
    case_bool_decide; [|done].
    destruct (nextBlock (set_limiter d (Some (S n)))) as [[j d2]|] eqn:Hn.
    + apply nextBlock_Some in Hn as (b0 & Hj & Hr0 & -> & _). simpl in *.
      assert (Hlt : (j < length (blocks d))%nat) by (eapply lookup_lt_Some; done).
      rewrite list_lookup_insert_eq in Hs by done.
      destruct sendErr; simplify_eq. simpl in *.
      destruct (decide (i = j)) as [->|Hne].
      * rewrite list_lookup_insert_eq in Hl by done. simplify_eq.
        apply elem_of_app. right. apply list_elem_of_singleton. done.
      * rewrite list_lookup_insert_ne in Hl by done.
        apply elem_of_app. left. by apply (Hinv i b).
    + simplify_eq. simpl in *. rewrite app_nil_r. by apply (Hinv i b).
  - (* PieceC *)
    apply step_PieceC_Continue in Hs as (b0 & Hb0 & Hbs & HP & ->).
    assert (Hlt : (N.to_nat (p_Block_Index p) < length (blocks d))%nat)
      by (eapply lookup_lt_Some; done).
    rewrite app_nil_r. unfold request_for. rewrite HP. rewrite Hbs in Hl.
    destruct (decide (i = N.to_nat (p_Block_Index p))) as [->|Hne].
    + rewrite list_lookup_insert_eq in Hl by done. simplify_eq.
      by apply (Hinv (N.to_nat (p_Block_Index p)) b0).
    + rewrite list_lookup_insert_ne in Hl by done. by apply (Hinv i b).
  - (* RejectC *)
    destruct (blocks d !! N.to_nat (req_Piece_Index req)) as [b0|] eqn:Hb0; [|done].
    assert (Hlt : (N.to_nat (req_Piece_Index req) < length (blocks d))%nat)
      by (eapply lookup_lt_Some; done).
    destruct (requested b0) eqn:Hr0; simpl in Hs; [|done]. simplify_eq. simpl in *.
    rewrite app_nil_r.
    destruct (decide (i = N.to_nat (req_Piece_Index req))) as [->|Hne].
    + rewrite list_lookup_insert_eq in Hl by done. by simplify_eq.
    + rewrite list_lookup_insert_ne in Hl by done. by apply (Hinv i b).
  - (* ChokeC *)
    simplify_eq. simpl in *. rewrite app_nil_r.
    rewrite list_lookup_fmap in Hl.
    destruct (blocks d !! i) as [b0|] eqn:Hb0; [|done]. simpl in Hl. simplify_eq.
    unfold choke_block in *. case_match; simpl in *; [done|]. by apply (Hinv i b0).
  - (* UnchokeC *)
    simplify_eq. simpl in *. rewrite app_nil_r. by apply (Hinv i b).
  - done.
Qed.

Lemma Run_requests_sent d evs d' out acc :
  Run d evs = (Running, d', out) → requests_sent d acc → requests_sent d' (acc ++ out).
Proof.
  revert d d' out acc. induction evs as [|e evs IH]; intros d d' out acc H Hinv; simpl in H.
  - simplify_eq. by rewrite app_nil_r.
  - destruct (step d e) as [d1 o1|d1 o1| | |] eqn:Hs; simplify_eq.
    destruct (Run d1 evs) as [[s2 d2] o2] eqn:Hr. simplify_eq.
    rewrite app_assoc. eapply IH; [done|]. by eapply step_requests_sent.
Qed.

Lemma New_requests_sent pi pe : requests_sent (New pi pe) [].
Proof.
  intros i b Hl Hr. unfold New in Hl. simpl in Hl.
  rewrite list_lookup_fmap in Hl. by destruct (Piece_Blocks pi !! i); simplify_eq/=.
Qed.

(** What the Reject case does, by the entry it looks up. *)
Lemma step_RejectC d req :
  step d (RejectC req)
  = match blocks d !! N.to_nat (req_Piece_Index req) with
    | None => Panic
    | Some b =>
        if requested b
        then Continue (set_blocks d (<[N.to_nat (req_Piece_Index req)
                                       := set_requested b false]> (blocks d))) []
        else Return d [PeerClose; ErrC "received invalid reject message"]
    end.
Proof.
  simpl. destruct (blocks d !! N.to_nat (req_Piece_Index req)) as [b|]; [|done].
  by destruct (requested b).
Qed.

(** C4. [Run] looks the rejected request up by the index of the piece,
    [d.blocks[req.Piece.Index]], where the Piece case goes by the index
    of the block. A downloader sends the request for the first block
    of its piece and the peer rejects it. For piece 7, of one block,
    [Run] panics on the index. For piece 1, of two blocks, [Run] tests
    the flag of the second block, which was not requested, closes the
    peer and reports an invalid reject. For piece 0, of three blocks,
    with the first two requested and the second rejected, [Run] clears
    the flag of the first block and requests that one again, while the
    rejected block stays marked and is not retried. And where the flag
    of the rejected block is cleared, for the only block of piece 0,
    there is no retry either: the tick after the last request has set
    the limiter to nil, and no tick can be selected any more. *)
Theorem reject_looks_up_piece_index :
  Run (New (Samples.piece_of 7 1) Samples.plain_peer)
    [Tick None; RejectC (mkRequest 7 0 16384)]
  = (Panicked,
     mkPD (Samples.piece_of 7 1) Samples.plain_peer
       [mkBlock (mkPieceBlock 0 0 16384) true None] (Some 1%nat),
     [SendRequest 7 0 16384])
  ∧ Run (New (Samples.piece_of 1 2) Samples.plain_peer)
      [Tick None; RejectC (mkRequest 1 0 16384)]
    = (Returned,
       mkPD (Samples.piece_of 1 2) Samples.plain_peer
         [mkBlock (mkPieceBlock 0 0 16384) true None;
          mkBlock (mkPieceBlock 1 16384 16384) false None] (Some 1%nat),
       [SendRequest 1 0 16384; PeerClose; ErrC "received invalid reject message"])
  ∧ Run (New (Samples.piece_of 0 3) Samples.plain_peer)
      [Tick None; Tick None; RejectC (mkRequest 0 16384 16384); Tick None]
    = (Running,
       mkPD (Samples.piece_of 0 3) Samples.plain_peer
         [mkBlock (mkPieceBlock 0 0 16384) true None;
          mkBlock (mkPieceBlock 1 16384 16384) true None;
          mkBlock (mkPieceBlock 2 32768 16384) false None] (Some 3%nat),
       [SendRequest 0 0 16384; SendRequest 0 16384 16384; SendRequest 0 0 16384])
  ∧ Run (New Samples.one_block_piece Samples.plain_peer)
      [Tick None; Tick None; RejectC (mkRequest 0 0 2)]
    = (Running,
       mkPD Samples.one_block_piece Samples.plain_peer
         [mkBlock (mkPieceBlock 0 0 2) false None] None,
       [SendRequest 0 0 2])
  ∧ step (mkPD Samples.one_block_piece Samples.plain_peer
            [mkBlock (mkPieceBlock 0 0 2) false None] None) (Tick None)
    = NotReady.
Proof. split_and!; vm_compute; reflexivity. Qed.

(** ** Choke *)

Lemma choke_block_spec b :
  choke_block b = mkBlock (Block b) (requested b && bool_decide (data b ≠ None)) (data b).
Proof.
  unfold choke_block, set_requested. destruct b as [B r [x|]]; destruct r; simpl;
    repeat case_bool_decide; simplify_eq; done.
Qed.

Lemma choke_block_not_outstanding b : is_outstanding (choke_block b) = false.
Proof.
  rewrite choke_block_spec. unfold is_outstanding. simpl.
  destruct (requested b); simpl; [|done]. repeat case_bool_decide; simplify_eq; done.
Qed.

Lemma outstanding_choked bs :
  length (filter (fun b => is_outstanding b = true) (map choke_block bs)) = 0%nat.
Proof.
  induction bs as [|b bs IH]; simpl; [done|].
  rewrite filter_cons. destruct (decide (is_outstanding (choke_block b) = true)) as [H|_]; [|done].
  by rewrite choke_block_not_outstanding in H.
Qed.

Lemma step_disabled d e :
  limiter d = None → e ≠ UnchokeC →
  match step d e with
  | Continue d' out => limiter d' = None ∧ Forall (fun o => is_SendRequest o = false) out
  | Return d' out => Forall (fun o => is_SendRequest o = false) out
  | _ => True
  end.
Proof.
  intros Hlim Hne. destruct e; simpl; rewrite ?Hlim; try done.
  - destruct (blocks d !! N.to_nat (p_Block_Index p)) as [b|]; [|done].
    rewrite (bool_decide_eq_false_2 (@None nat ≠ None)) by (by intros []).
    rewrite andb_false_r.
    destruct (allDone _); [constructor; [|constructor]; done|].
    split; [done | constructor].
  - destruct (blocks d !! N.to_nat (req_Piece_Index req)) as [b|]; [|done].
    destruct (negb (requested b)); [repeat constructor|].
    split; [done | constructor].
Qed.

Lemma Run_disabled d evs s d' out :
  limiter d = None → UnchokeC ∉ evs → Run d evs = (s, d', out) →
  Forall (fun o => is_SendRequest o = false) out.
Proof.
  revert d s d' out. induction evs as [|e evs IH]; intros d s d' out Hlim Hno H; simpl in H.
  - simplify_eq. constructor.
  - apply not_elem_of_cons in Hno as [Hne Hno].
    pose proof (step_disabled d e Hlim (not_eq_sym Hne)) as Hs.
    destruct (step d e) as [d1 o1|d1 o1| | |]; simplify_eq; try constructor; try done.
    destruct (Run d1 evs) as [[s2 d2] o2] eqn:Hr. simplify_eq. destruct Hs as [Hl1 Ho1].
    apply Forall_app. split; [done|]. by eapply IH.
Qed.

(** C5 (amended). On Choke the downloader clears the requested flag of
    every block that has no data yet, keeps the flag of the blocks that
    have data, and makes the limiter nil: no block is outstanding, the
    slot case cannot be selected, and no request is sent until an
    Unchoke arrives. This is so for every peer, whether or not it has
    the Fast extension and whatever its allowed-fast set holds. *)
Theorem choke_clears_and_disables d :
  ∃ d', step d ChokeC = Continue d' []
        ∧ limiter d' = None
        ∧ blocks d'
          = map (fun b => mkBlock (Block b) (requested b && bool_decide (data b ≠ None)) (data b))
              (blocks d)
        ∧ outstanding d' = 0%nat
        ∧ (∀ sendErr, step d' (Tick sendErr) = NotReady)
        ∧ ∀ evs s d'' out, UnchokeC ∉ evs → Run d' evs = (s, d'', out) →
                           Forall (fun o => is_SendRequest o = false) out.
Proof.
  eexists. split; [reflexivity|]. split; [reflexivity|]. split.
  { simpl. apply map_ext. intros b. apply choke_block_spec. }
  split; [apply outstanding_choked|]. split; [intros; reflexivity|].
  intros evs s d'' out Hno HR.
  eapply Run_disabled; [|exact Hno|exact HR]. reflexivity.
Qed.

(** After the choke, the one block of [fast_download] is no longer
    marked requested, and a schedule without Unchoke sends nothing. *)
Lemma choke_clears_and_disables_witness :
  ∃ d', step Samples.fast_download ChokeC = Continue d' []
        ∧ requested <$> blocks d' !! 0%nat = Some false
        ∧ Forall (fun o => is_SendRequest o = false)
            (Run d' [PieceC (mkPieceMsg 0 None); ChokeC]).2.
Proof.
  destruct (choke_clears_and_disables Samples.fast_download)
    as (d' & Hs & _ & Hb & _ & _ & Hrun).
  exists d'. split; [exact Hs|]. split.
  - rewrite Hb. reflexivity.
  - destruct (Run d' [PieceC (mkPieceMsg 0 None); ChokeC]) as [[s d''] out] eqn:HR.
    apply (Hrun [PieceC (mkPieceMsg 0 None); ChokeC] s d'' out); [|exact HR].
    rewrite !elem_of_cons. intros [?|[?|[]%elem_of_nil]]; discriminate.
Defined.

(** C5, as stated, fails: the peer has the Fast extension, piece 7 is
    in its allowed-fast set, the block was requested and has no data,
    and Choke clears its requested flag all the same. *)
Lemma choke_ignores_allowed_fast :
  FastExtension (pd_Peer Samples.fast_download) = true
  ∧ Piece_Index (pd_Piece Samples.fast_download) ∈ AllowedFast (pd_Peer Samples.fast_download)
  ∧ is_outstanding <$> blocks Samples.fast_download !! 0%nat = Some true
  ∧ ∃ d', step Samples.fast_download ChokeC = Continue d' []
          ∧ requested <$> blocks d' !! 0%nat = Some false.
Proof.
  split; [reflexivity|]. split; [vm_compute; reflexivity|]. split; [reflexivity|].
  eexists. split; reflexivity.
Qed.

(** C3, on the failing schedule: ten requests are outstanding, the peer
    unchokes again, [Run] replaces the limiter by an empty one and an
    eleventh block is requested while none of the ten has arrived. *)
Lemma unchoke_refills_pipeline :
  let '(s, d, _) := Run (New (Samples.piece_of 0 11) Samples.plain_peer)
                      Samples.unchoke_while_unchoked in
  s = Running ∧ outstanding d = 11%nat ∧ (maxQueuedBlocks < outstanding d)%nat.
Proof. vm_compute. repeat split; lia. Qed.

End PieceDownloaderFacts.

(* ===================================================================== *)
(** * Properties of the metadata downloader                               *)
(* ===================================================================== *)

Module InfoDownloaderFacts.

Import InfoDownloader.

Lemma wrap32_small x : x < 2 ^ 32 → wrap32 x = x.
Proof. intros H. unfold wrap32. by apply N.mod_small. Qed.

Lemma iota_sorted a n : StronglySorted N.lt (iota a n).
Proof.
  assert (H : ∀ n a x, x ∈ iota a n → a <= x).
  { clear. induction n as [|n IH]; intros a x Hin; simpl in Hin.
    - by apply elem_of_nil in Hin.
    - apply elem_of_cons in Hin as [->|Hin]; [lia|]. apply IH in Hin. lia. }
  revert a. induction n as [|n IH]; intros a; simpl; constructor; [apply IH|].
  apply Forall_forall. intros x Hin. apply H in Hin. lia.
Qed.

Lemma iota_elem a n x : x ∈ iota a n ↔ a <= x ∧ x < a + N.of_nat n.
Proof.
  revert a. induction n as [|n IH]; intros a; simpl.
  - split; [by intros ?%elem_of_nil | lia].
  - rewrite elem_of_cons, IH. lia.
Qed.

Lemma iota_length a n : length (iota a n) = n.
Proof. revert a. induction n as [|n IH]; intros a; simpl; [done | by rewrite IH]. Qed.

Lemma size_list_to_set_le (l : list N) :
  (base.size (list_to_set l : gset N) ≤ length l)%nat.
Proof.
  induction l as [|x l IH]; [by rewrite list_to_set_nil, size_empty|].
  rewrite list_to_set_cons, size_union_alt, size_singleton.
  assert (base.size (list_to_set l ∖ {[x]} : gset N) ≤ base.size (list_to_set l : gset N))%nat
    by (apply subseteq_size, subseteq_difference_l; done).
  simpl. lia.
Qed.

Lemma cond_true d k :
  wf d → RequestBlocks_cond d k = true →
  nextBlockIndex d < N.of_nat (length (blocks d))
  ∧ (Z.of_nat (base.size (requested d)) < k)%Z.
Proof.
  intros (Hlen & _ & _) H. unfold RequestBlocks_cond in H.
  apply andb_true_iff in H as [H1 H2].
  apply bool_decide_eq_true in H1, H2. rewrite wrap32_small in H1 by done. done.
Qed.

Lemma cond_false d k :
  wf d → RequestBlocks_cond d k = false → issue_count d k = 0%nat.
Proof.
  intros (Hlen & Hnext & _) H. unfold RequestBlocks_cond in H.
  apply andb_false_iff in H as [H|H]; apply bool_decide_eq_false in H;
    unfold issue_count.
  - rewrite wrap32_small in H by done. lia.
  - lia.
Qed.

Lemma body_wf d k :
  wf d → RequestBlocks_cond d k = true → wf (RequestBlocks_body d).
Proof.
  intros Hwf Hc. destruct (cond_true _ _ Hwf Hc) as [Hlt _].
  destruct Hwf as (Hlen & Hnext & Hreq). unfold wf. simpl.
  rewrite wrap32_small by lia. repeat split; [done | lia |].
  intros i [->%elem_of_singleton|Hi]%elem_of_union; [lia|]. apply Hreq in Hi. lia.
Qed.

Lemma body_count d k :
  wf d → RequestBlocks_cond d k = true →
  issue_count d k = S (issue_count (RequestBlocks_body d) k).
Proof.
  intros Hwf Hc. destruct (cond_true _ _ Hwf Hc) as [Hlt Hk].
  destruct Hwf as (Hlen & Hnext & Hreq). unfold issue_count. simpl.
  rewrite wrap32_small by lia.
  rewrite size_union, size_singleton.
  - lia.
  - apply disjoint_singleton_l. intros Hin. apply Hreq in Hin. lia.
Qed.

(** The loop, run with enough fuel. *)
Lemma loop_spec fuel d k :
  wf d → (length (blocks d) - N.to_nat (nextBlockIndex d) ≤ fuel)%nat →
  let d' := RequestBlocks_loop fuel d k in
  let n := issue_count d k in
  blocks d' = blocks d
  ∧ peer_sent d'
    = peer_sent d ++ map (mkExtensionMessage (M_ut_metadata d)) (iota (nextBlockIndex d) n)
  ∧ requested d' = list_to_set (iota (nextBlockIndex d) n) ∪ requested d
  ∧ nextBlockIndex d' = nextBlockIndex d + N.of_nat n
  ∧ RequestBlocks_cond d' k = false
  ∧ wf d'.
Proof.
  revert d. induction fuel as [|fuel IH]; intros d Hwf Hfuel; simpl.
  - assert (Hc : RequestBlocks_cond d k = false).
    { destruct (RequestBlocks_cond d k) eqn:Hc; [|done].
      destruct (cond_true _ _ Hwf Hc). lia. }
    rewrite (cond_false _ _ Hwf Hc). simpl.
    rewrite app_nil_r, N.add_0_r, union_empty_l_L. by split_and!.
  - destruct (RequestBlocks_cond d k) eqn:Hc.
    + pose proof (body_wf _ _ Hwf Hc) as Hwf1.
      destruct (cond_true _ _ Hwf Hc) as [Hlt _].
      assert (Hnext1 : nextBlockIndex (RequestBlocks_body d) = nextBlockIndex d + 1).
      { simpl. destruct Hwf as (Hlen & _ & _). apply wrap32_small. lia. }
      destruct (IH (RequestBlocks_body d) Hwf1) as (Hb & Hs & Hr & Hn & Hcf & Hwf').
      { rewrite Hnext1. simpl. lia. }
      rewrite (body_count _ _ Hwf Hc). rewrite Hnext1 in *. simpl in *.
      split_and!; try done.
      * rewrite Hs, <- app_assoc. done.
      * rewrite Hr, (assoc_L (∪)). f_equal. apply (comm_L (∪)).
      * rewrite Hn. lia.
    + rewrite (cond_false _ _ Hwf Hc). simpl.
      rewrite app_nil_r, N.add_0_r, union_empty_l_L. by split_and!.
Qed.

(** [wf] holds of the downloader [New] builds and is kept by the two
    operations that change it. *)
Lemma createBlocks_length m :
  m < 2 ^ 32 → N.of_nat (length (createBlocks m)) < 2 ^ 32.
Proof.
  intros Hm. unfold createBlocks.
  assert (Hq : m / blockSize < 2 ^ 32).
  { eapply N.le_lt_trans; [|exact Hm].
    apply N.Div0.div_le_upper_bound. unfold blockSize. lia. }
  assert (Hw : ∀ x, wrap32 x < 2 ^ 32) by (intros x; apply N.mod_lt; lia).
  repeat case_match; rewrite ?length_insert, length_replicate, N2Nat.id; auto.
Qed.

Lemma New_wf m ut : m < 2 ^ 32 → wf (New m ut).
Proof.
  intros Hm. unfold wf, New. simpl. split_and!.
  - by apply createBlocks_length.
  - lia.
  - intros i Hi. by apply not_elem_of_empty in Hi.
Qed.

Lemma RequestBlocks_wf d k : wf d → wf (RequestBlocks d k).
Proof.
  intros Hwf. unfold RequestBlocks.
  destruct (loop_spec (length (blocks d)) d k Hwf) as (_ & _ & _ & _ & _ & H); [lia | done].
Qed.

Lemma GotBlock_wf d i data d' : wf d → GotBlock d i data = inr d' → wf d'.
Proof.
  intros (Hlen & Hnext & Hreq) H. unfold GotBlock in H.
  repeat case_match; simplify_eq. unfold wf. simpl. split_and!; [done | done |].
  intros j Hj. apply Hreq. by apply elem_of_difference in Hj as [Hj _].
Qed.

(** C8. From any state of the downloader and for any [k ≥ 0],
    [RequestBlocks k] sends requests for the block indices from the
    cursor upwards, one after the other in strictly ascending order,
    records each of them in the requested set and leaves the cursor
    after the last. It issues as many as there are blocks left and as
    [k] allows beyond the requests in flight, hence at most [k], and
    stops only when no block is left or [k] requests are in flight. *)
Theorem RequestBlocks_ascending d k :
  wf d → (0 ≤ k)%Z →
  let d' := RequestBlocks d k in
  let n := issue_count d k in
  ∃ issued,
    peer_sent d' = peer_sent d ++ issued
    ∧ request_indices issued = iota (nextBlockIndex d) n
    ∧ StronglySorted N.lt (request_indices issued)
    ∧ (n ≤ Z.to_nat k)%nat
    ∧ (Z.of_nat (base.size (requested d')) ≤ Z.max k (Z.of_nat (base.size (requested d))))%Z
    ∧ (∀ i, i ∈ request_indices issued → i ∈ requested d')
    ∧ requested d' = list_to_set (request_indices issued) ∪ requested d
    ∧ nextBlockIndex d' = nextBlockIndex d + N.of_nat n
    ∧ RequestBlocks_cond d' k = false.
Proof.
  intros Hwf Hk. unfold RequestBlocks.
  destruct (loop_spec (length (blocks d)) d k Hwf) as (Hb & Hs & Hr & Hn & Hc & Hwf');
    [lia|].
  simpl. eexists. split; [exact Hs|].
  assert (Hidx : request_indices
                   (map (mkExtensionMessage (M_ut_metadata d))
                      (iota (nextBlockIndex d) (issue_count d k)))
                 = iota (nextBlockIndex d) (issue_count d k)).
  { unfold request_indices. rewrite map_map. simpl. apply map_id. }
  rewrite Hidx. split; [done|]. split; [apply iota_sorted|].
  split; [unfold issue_count; lia|]. split.
  - rewrite Hr.
    assert (base.size (list_to_set (iota (nextBlockIndex d) (issue_count d k)) : gset N)
            ≤ issue_count d k)%nat.
    { etrans; [apply size_list_to_set_le|]. by rewrite iota_length. }
    pose proof (size_union_alt
                  (list_to_set (iota (nextBlockIndex d) (issue_count d k)) : gset N)
                  (requested d)) as Hu.
    assert (base.size (requested d ∖ list_to_set (iota (nextBlockIndex d) (issue_count d k)))
            ≤ base.size (requested d))%nat
      by (apply subseteq_size, subseteq_difference_l; done).
    unfold issue_count in *. lia.
  - split; [|done]. intros i Hi. rewrite Hr. apply elem_of_union. left.
    by apply elem_of_list_to_set.
Qed.

(** The 37-byte metadata of one block with a budget of one, and three
    blocks with one request in flight and a budget of three. *)
Lemma RequestBlocks_ascending_witness :
  request_indices (peer_sent (RequestBlocks one_block 1)) = [0]
  ∧ request_indices (peer_sent (RequestBlocks three_blocks_one_in_flight 3)) = [0; 1; 2]
  ∧ nextBlockIndex (RequestBlocks three_blocks_one_in_flight 3) = 3.
Proof.
  assert (Hwf1 : wf one_block).
  { unfold wf. split_and!; [by vm_compute | by vm_compute |].
    intros i Hi. by apply not_elem_of_empty in Hi. }
  assert (Hwf3 : wf three_blocks_one_in_flight).
  { unfold wf. split_and!; [by vm_compute | by vm_compute |].
    intros i Hi. assert (i = 0) as ->; [|reflexivity].
    apply (elem_of_singleton (C:=gset N)). exact Hi. }
  destruct (RequestBlocks_ascending one_block 1 Hwf1 ltac:(lia))
    as (i1 & Hs1 & Hi1 & _).
  destruct (RequestBlocks_ascending three_blocks_one_in_flight 3 Hwf3 ltac:(lia))
    as (i3 & Hs3 & Hi3 & _ & _ & _ & _ & _ & Hn3 & _).
  split; [|split].
  - rewrite Hs1. unfold request_indices in *. rewrite map_app, Hi1. reflexivity.
  - rewrite Hs3. unfold request_indices in *. rewrite map_app, Hi3. reflexivity.
  - rewrite Hn3. reflexivity.
Defined.

End InfoDownloaderFacts.

(* ===================================================================== *)
(** * Properties of the peer connection shutdown                          *)
(* ===================================================================== *)

Module PeerConnFacts.

Import PeerConn.

Lemma inv_New : inv New.
Proof.
  unfold inv, New. simpl. split_and!; try done.
  intros c [x Hx]. by rewrite lookup_empty in Hx.
Qed.

Local Ltac chan_facts :=
  repeat match goal with
    | H : is_closed ?c = true |- _ => destruct c; [discriminate H | clear H]
    | H : is_closed ?c = false |- _ => destruct c; [clear H | discriminate H]
    end.

Local Ltac absurd_elem :=
  match goal with
  | H : _ ∉ _ |- _ => exfalso; apply H; rewrite ?elem_of_cons; by auto
  end.

Local Ltac fin :=
  solve [ intros;
          try match goal with
            | H : ?r = RunWaiting ?l, I : ∀ l, ?r = RunWaiting l → _ |- _ =>
                destruct (I _ H) as (? & ? & ?)
            end;
          simplify_eq;
          rewrite ?not_elem_of_cons in *;
          intuition (simplify_eq; try lia; eauto) ].

Local Ltac callers_case c0 c H :=
  destruct (decide (c0 = c)) as [->|?];
  [ rewrite lookup_insert_eq in H | rewrite lookup_insert_ne in H by done ].

Lemma inv_step p a p' : inv p → step p a = Some p' → inv p'.
Proof.
  intros Hinv Hs. destruct p as [cC cdC rD wD n r rd wr cs].
  unfold inv in *. simpl in *.
  destruct Hinv as (I1 & I2 & I3 & I4 & I5 & I6 & I7 & I8 & I9).
  destruct a; simpl in Hs.
  - (* RunStart *)
    destruct r; simplify_eq. simpl. split_and!; fin.
  - (* ReaderExit *)
    destruct rd; simplify_eq. simpl. split_and!; try fin;
      (intros l ->; destruct (I5 _ eq_refl) as (? & ? & ?); fin).
  - (* WriterExit *)
    destruct wr; simplify_eq. simpl. split_and!; try fin;
      (intros l ->; destruct (I5 _ eq_refl) as (? & ? & ?); fin).
  - (* SelectCloseC *)
    destruct r; simplify_eq. destruct cC; simpl in Hs; simplify_eq. simpl.
    split_and!; try fin; (intros l [= <-]; rewrite !not_elem_of_cons; fin).
  - (* SelectReaderDone *)
    destruct r; simplify_eq. destruct rD; simpl in Hs; simplify_eq. simpl.
    split_and!; try fin; (intros l [= <-]; rewrite !not_elem_of_cons; fin).
  - (* SelectWriterDone *)
    destruct r; simplify_eq. destruct wD; simpl in Hs; simplify_eq. simpl.
    split_and!; try fin; (intros l [= <-]; rewrite !not_elem_of_cons; fin).
  - (* RunReceive *)
    destruct r as [| |[|w rest]|]; simplify_eq.
    destruct (I5 _ eq_refl) as (? & Hr & Hw).
    rewrite !not_elem_of_cons in Hr, Hw.
    destruct w; simpl in Hs.
    + destruct rD; simpl in Hs; simplify_eq. simpl. split_and!; try fin.
    + destruct wD; simpl in Hs; simplify_eq. simpl. split_and!; try fin.
  - (* RunReturn *)
    destruct r as [| |[|w rest]|]; simplify_eq. simpl.
    destruct (I5 _ eq_refl) as (? & Hr & Hw).
    assert (rD = Closed) by (apply Hr; apply not_elem_of_nil).
    assert (wD = Closed) by (apply Hw; apply not_elem_of_nil).
    split_and!; try fin.
  - (* CloseCall *)
    destruct (cs !! c) eqn:Hc; simplify_eq.
    destruct cC; simpl in Hs; simplify_eq; simpl; split_and!; try fin;
      (intros c0 H; callers_case c0 c H; simplify_eq; eauto).
  - (* CloseReturn *)
    destruct (cs !! c) as [[| |]|] eqn:Hc; simplify_eq.
    destruct cdC; simpl in Hs; simplify_eq. simpl. split_and!; try fin;
      (intros c0 H; callers_case c0 c H; simplify_eq; eauto).
Qed.


Lemma inv_exec l p p' : inv p → exec p l = Some p' → inv p'.
Proof.
  revert p. induction l as [|a l IH]; intros p Hinv H; simpl in H.
  - by simplify_eq.
  - destruct (step p a) as [p1|] eqn:Hs; [|done].
    eapply IH; [|done]. by eapply inv_step.
Qed.

Lemma reachable_inv p : reachable p → inv p.
Proof. intros [l Hl]. eapply inv_exec; [apply inv_New | done]. Qed.

(** Nothing reopens [closeC]. *)
Lemma step_closeC p a p' :
  step p a = Some p' → closeC p = Closed → closeC p' = Closed.
Proof.
  intros Hs Hc. destruct a; simpl in Hs; repeat case_match; simplify_eq; done.
Qed.

Lemma exec_closeC l p p' :
  exec p l = Some p' → closeC p = Closed → closeC p' = Closed.
Proof.
  revert p. induction l as [|a l IH]; intros p H Hc; simpl in H.
  - by simplify_eq.
  - destruct (step p a) as [p1|] eqn:Hs; [|done].
    eapply IH; [done|]. by eapply step_closeC.
Qed.

(** C9 (amended). [Close] is not idempotent. In every state the peer
    can reach: a call of [Close] that has returned found the
    connection closed, by [Run] and once, and both the reader and the
    writer task exited; the first call closes [closeC] and waits; any
    call made after another call panics on closing the closed channel,
    however far the first call has got, since [closeC] stays closed. *)
Theorem Close_once_then_panics p :
  reachable p →
  (∀ c, callers p !! c = Some CloseReturned →
        connClosed p = 1%nat ∧ reader p = Exited ∧ writer p = Exited
        ∧ run p = RunReturned)
  ∧ (∀ c, closeC p = Open →
          ∃ p', step p (CloseCall c) = Some p'
                ∧ callers p' !! c = Some CloseWaiting ∧ closeC p' = Closed)
  ∧ (∀ c c', is_Some (callers p !! c) → callers p !! c' = None →
             ∃ p', step p (CloseCall c') = Some p'
                   ∧ callers p' !! c' = Some ClosePanicked)
  ∧ (∀ l p', closeC p = Closed → exec p l = Some p' → closeC p' = Closed).
Proof.
  intros Hr. pose proof (reachable_inv _ Hr) as (I1 & I2 & I3 & I4 & I5 & I6 & I7 & I8 & I9).
  split_and!.
  - intros c Hc. pose proof (I6 _ Hc) as Hcd. apply I1 in Hcd.
    destruct (I2 Hcd) as (? & ? & ?). done.
  - intros c Ho.
    assert (Hn : callers p !! c = None).
    { destruct (callers p !! c) eqn:Hc; [|done].
      assert (closeC p = Closed) by (apply (I7 c); by rewrite Hc). congruence. }
    eexists. simpl. rewrite Hn, Ho. simpl. split; [done|]. simpl.
    by rewrite lookup_insert_eq.
  - intros c c' Hc Hn. pose proof (I7 _ Hc) as Hcl.
    eexists. simpl. rewrite Hn, Hcl. simpl. split; [done|]. simpl.
    by rewrite lookup_insert_eq.
  - intros l p' Hc He. by eapply exec_closeC.
Qed.

(** After the schedule [close_twice] the first call has returned, the
    connection is closed and both tasks are gone, and a second call
    panics. *)
Lemma Close_once_then_panics_witness :
  exec New close_twice = Some closed_once
  ∧ callers closed_once !! 1%nat = Some CloseReturned
  ∧ connClosed closed_once = 1%nat
  ∧ reader closed_once = Exited ∧ writer closed_once = Exited
  ∧ ∃ p', step closed_once (CloseCall 2) = Some p'
          ∧ callers p' !! 2%nat = Some ClosePanicked.
Proof.
  assert (He : exec New close_twice = Some closed_once) by (vm_compute; reflexivity).
  assert (Hr : reachable closed_once) by (exists close_twice; exact He).
  assert (H1 : callers closed_once !! 1%nat = Some CloseReturned) by reflexivity.
  assert (H2 : callers closed_once !! 2%nat = None) by reflexivity.
  destruct (Close_once_then_panics closed_once Hr) as (Hret & _ & Hpanic & _).
  destruct (Hret 1%nat H1) as (Hc & Hrd & Hwr & _).
  split; [exact He|]. split; [exact H1|].
  split; [exact Hc|]. split; [exact Hrd|]. split; [exact Hwr|].
  apply (Hpanic 1%nat 2%nat); [|exact H2]. rewrite H1. by eexists.
Defined.

(** C9, as stated, fails: the first call of [Close] has returned, and
    a second call is not safe. *)
Lemma second_Close_panics :
  exec New close_twice = Some closed_once
  ∧ callers closed_once !! 1%nat = Some CloseReturned
  ∧ ¬ close_safe closed_once 2.
Proof.
  split; [vm_compute; reflexivity|]. split; [reflexivity|].
  intros (p' & Hs & Hne). injection Hs as <-. apply Hne. reflexivity.
Qed.

End PeerConnFacts.

(* ===================================================================== *)
(** * Properties of the engine                                            *)
(* ===================================================================== *)

Module EngineFacts.

Import Engine.

(** ** Peers on the heap *)

Lemma update_peer_lookup r f t :
  heap (update_peer r f t) !! r = f <$> heap t !! r.
Proof. unfold update_peer. simpl. apply lookup_alter_eq. Qed.

Lemma update_peer_lookup_ne r r' f t :
  r ≠ r' → heap (update_peer r f t) !! r' = heap t !! r'.
Proof. intros Hne. unfold update_peer. simpl. by apply lookup_alter_ne. Qed.

Lemma for_each_peer_lookup f t r :
  heap (for_each_peer f t) !! r
  = (fun pe => if bool_decide (r ∈ peers t) then f pe else pe) <$> heap t !! r.
Proof.
  unfold for_each_peer. simpl. rewrite map_lookup_imap.
  by destruct (heap t !! r).
Qed.

Lemma for_each_peer_dom f t : dom (heap (for_each_peer f t)) = dom (heap t).
Proof.
  apply set_eq. intros r. rewrite !elem_of_dom, for_each_peer_lookup.
  by rewrite fmap_is_Some.
Qed.

Lemma pexAddPeer_dom a t : dom (heap (pexAddPeer a t)) = dom (heap t).
Proof. unfold pexAddPeer. case_match; [done | apply for_each_peer_dom]. Qed.

Lemma sendFirstMessage_lookup r t x :
  heap t !! r = Some x →
  ∃ msgs, heap (sendFirstMessage r t) !! r = Some (set_sent (sent x ++ msgs) x)
          ∧ peers (sendFirstMessage r t) = peers t.
Proof.
  intros Hx. unfold sendFirstMessage. rewrite Hx.
  repeat case_match; unfold SendMessage;
    rewrite ?update_peer_lookup, ?Hx; simpl;
    try (eexists (cons _ (cons _ nil)); split; [by rewrite <- app_assoc | done]);
    try (eexists (cons _ nil); split; done).
Qed.

Lemma peers_dialAddresses_loop q t :
  peers (dialAddresses_loop q t) = peers t
  ∧ peerIDs (dialAddresses_loop q t) = peerIDs t
  ∧ heap (dialAddresses_loop q t) = heap t.
Proof.
  revert t. induction q as [|a q IH]; intros t; simpl.
  - by repeat case_match.
  - case_bool_decide; [|done]. case_bool_decide; [apply IH|].
    match goal with
    | |- context [dialAddresses_loop q ?u] => destruct (IH u) as (-> & -> & ->)
    end.
    done.
Qed.

Lemma peers_dialAddresses t :
  peers (dialAddresses t) = peers t ∧ peerIDs (dialAddresses t) = peerIDs t.
Proof.
  unfold dialAddresses. case_match; [done|].
  destruct (peers_dialAddresses_loop (addrList t) t) as (-> & -> & _). done.
Qed.

(** The registering path of [startPeer]: the new peer, and what the
    maps hold afterwards. *)
Lemma startPeer_registers_shape p incoming t :
  conn_ID p ∉ peerIDs t →
  ∃ pe x, (pe ∉ peers t)
          ∧ peers (startPeer p incoming t) = {[pe]} ∪ peers t
          ∧ heap (startPeer p incoming t) !! pe = Some x
          ∧ ID x = conn_ID p ∧ Addr x = conn_Addr p
          ∧ peerIDs (startPeer p incoming t) = {[conn_ID p]} ∪ peerIDs t
          ∧ connectedPeerIPs (startPeer p incoming t) = connectedPeerIPs t
          ∧ ((size (peers (startPeer p incoming t)) ≤ 4)%nat →
             AmChoking x = false ∧ last (sent x) = Some UnchokeMessage).
Proof.
  intros Hid. unfold startPeer.
  assert (HpID : peerIDs (pexAddPeer (conn_Addr p) t) = peerIDs t)
    by (unfold pexAddPeer; by case_match).
  assert (Hpeers : peers (pexAddPeer (conn_Addr p) t) = peers t)
    by (unfold pexAddPeer; by case_match).
  assert (Hips : connectedPeerIPs (pexAddPeer (conn_Addr p) t) = connectedPeerIPs t)
    by (unfold pexAddPeer; by case_match).
  rewrite HpID, bool_decide_eq_false_2 by done.
  set (t1 := set_peerIDs _ _).
  set (pe := fresh_peer t1).
  set (t4 := if incoming then _ else _).
  assert (Hfresh : pe ∉ peers t).
  { pose proof (is_fresh (dom (heap t1) ∪ peers t1 ∪ incomingPeers t1 ∪ outgoingPeers t1))
      as Hf.
    fold (fresh_peer t1) in Hf. fold pe in Hf.
    intros Hin. apply Hf. apply elem_of_union_l, elem_of_union_l, elem_of_union_r.
    unfold t1. simpl. by rewrite Hpeers. }
  assert (H4 : heap t4 !! pe = Some (peer_New p) ∧ peers t4 = {[pe]} ∪ peers t
               ∧ peerIDs t4 = {[conn_ID p]} ∪ peerIDs t
               ∧ connectedPeerIPs t4 = connectedPeerIPs t).
  { unfold t4, t1. split_and!; destruct incoming; cbn -[pexAddPeer];
      rewrite ?lookup_insert_eq, ?Hpeers, ?HpID, ?Hips; done. }
  destruct H4 as (Hh4 & Hp4 & Hi4 & Hc4).
  destruct (sendFirstMessage_lookup pe t4 _ Hh4) as (msgs & Hh5 & Hp5).
  assert (Hf5 : peerIDs (sendFirstMessage pe t4) = peerIDs t4
                ∧ connectedPeerIPs (sendFirstMessage pe t4) = connectedPeerIPs t4).
  { unfold sendFirstMessage. by repeat case_match. }
  destruct Hf5 as [Hi5 Hc5].
  set (t5 := sendFirstMessage pe t4) in *.
  assert (Hflag : peer_flag AmChoking t5 pe = true)
    by (unfold peer_flag; by rewrite Hh5).
  assert (Hp6 : peers (unchokePeer pe t5) = peers t5
                ∧ peerIDs (unchokePeer pe t5) = peerIDs t5
                ∧ connectedPeerIPs (unchokePeer pe t5) = connectedPeerIPs t5)
    by (unfold unchokePeer; by rewrite Hflag).
  destruct Hp6 as (Hp6 & Hi6 & Hc6).
  assert (Hh6 : heap (unchokePeer pe t5) !! pe
                = Some (set_sent (msgs ++ [UnchokeMessage])
                          (set_AmChoking false (set_sent msgs (peer_New p))))).
  { unfold unchokePeer. rewrite Hflag. unfold SendMessage.
    rewrite !update_peer_lookup, Hh5. done. }
  case_bool_decide as Hle.
  - exists pe. eexists. split; [done|]. split; [by rewrite Hp6, Hp5|].
    split; [exact Hh6|]. split; [done|]. split; [done|].
    split; [by rewrite Hi6, Hi5|]. split; [by rewrite Hc6, Hc5|].
    intros _. split; [done|]. unfold set_sent. simpl. apply last_snoc.
  - exists pe. eexists. split; [done|]. split; [by rewrite Hp5|].
    split; [exact Hh5|]. split; [done|]. split; [done|].
    split; [by rewrite Hi5|]. split; [by rewrite Hc5|].
    intros Hsize. done.
Qed.

(** C10. When [startPeer] registers a peer, that is when no connected
    peer has its ID, and the peers then number at most four, the new
    one included, the new peer ends unchoked: [AmChoking] is false and
    the last message handed to it is an Unchoke, within [startPeer]
    itself and without any tick of the choke scheduler. *)
Theorem startPeer_unchokes_first_four p incoming t :
  conn_ID p ∉ peerIDs t →
  (size (peers (startPeer p incoming t)) ≤ 4)%nat →
  ∃ pe x, (pe ∉ peers t)
          ∧ peers (startPeer p incoming t) = {[pe]} ∪ peers t
          ∧ heap (startPeer p incoming t) !! pe = Some x
          ∧ ID x = conn_ID p
          ∧ AmChoking x = false
          ∧ last (sent x) = Some UnchokeMessage.
Proof.
  intros Hid Hsize.
  destruct (startPeer_registers_shape p incoming t Hid)
    as (pe & x & Hf & Hp & Hh & Hi & _ & _ & _ & Hu).
  destruct (Hu Hsize) as [Ha Hl]. exists pe, x. done.
Qed.

Import EngineSamples.

(** The first peer of a torrent is unchoked as soon as it is
    registered. *)
Lemma startPeer_unchokes_first_four_witness :
  ∃ pe x, heap (startPeer connA true torrent0) !! pe = Some x
          ∧ ID x = "A" ∧ AmChoking x = false
          ∧ last (sent x) = Some UnchokeMessage.
Proof.
  assert (H1 : conn_ID connA ∉ peerIDs torrent0) by apply not_elem_of_empty.
  assert (H2 : (size (peers (startPeer connA true torrent0)) ≤ 4)%nat)
    by (vm_compute; lia).
  destruct (startPeer_unchokes_first_four connA true torrent0 H1 H2)
    as (pe & x & _ & _ & Hh & Hi & Ha & Hl).
  exists pe, x. split; [exact Hh|]. split; [exact Hi|]. split; [exact Ha | exact Hl].
Defined.

(** ** The duplicate filters *)

Lemma torrent_AB_maps :
  peers torrent_AB = {[0%nat]}
  ∧ (ID <$> heap torrent_AB !! 0%nat = Some "A"
     ∧ (IP ∘ Addr) <$> heap torrent_AB !! 0%nat = Some "10.0.0.1")
  ∧ peerIDs torrent_AB = {["A"]}
  ∧ connectedPeerIPs torrent_AB = {["10.0.0.1"; "10.0.0.2"]}
  ∧ incomingHandshakers torrent_AB !! 0%nat = Some addrB.
Proof. refine (bool_decide_unpack _ _). vm_compute. exact I. Qed.

Lemma torrent_dup_maps :
  peers torrent_dup = {[0%nat]}
  ∧ (ID <$> heap torrent_dup !! 0%nat = Some "A"
     ∧ (IP ∘ Addr) <$> heap torrent_dup !! 0%nat = Some "10.0.0.1")
  ∧ peerIDs torrent_dup = {["A"]}
  ∧ connectedPeerIPs torrent_dup = {["10.0.0.1"; "10.0.0.2"]}
  ∧ incomingHandshakers torrent_dup = ∅
  ∧ outgoingHandshakers torrent_dup = ∅
  ∧ closedConns torrent_dup = [addrB].
Proof. refine (bool_decide_unpack _ _). vm_compute. exact I. Qed.

(** One peer with its ID and IP registered, and one more IP registered
    for a handshake that is going on: consistent. *)
Lemma consistent_peer_and_handshake t id ip h a :
  peers t = {[0%nat]} →
  ID <$> heap t !! 0%nat = Some id →
  (IP ∘ Addr) <$> heap t !! 0%nat = Some ip →
  peerIDs t = {[id]} →
  connectedPeerIPs t = {[ip; IP a]} →
  incomingHandshakers t !! h = Some a →
  consistent t.
Proof.
  intros Hp Hid Hip Hids Hips Hh.
  destruct (heap t !! 0%nat) as [x|] eqn:Hx; [|done].
  simpl in Hid, Hip. injection Hid as Hid. injection Hip as Hip.
  unfold consistent. rewrite Hp, Hids, Hips. split_and!.
  - intros r pe ->%elem_of_singleton Hpe. rewrite Hx in Hpe. injection Hpe as <-.
    rewrite Hid, Hip.
    split; [by apply elem_of_singleton | apply elem_of_union_l; by apply elem_of_singleton].
  - intros id' ->%elem_of_singleton. exists 0%nat, x.
    split; [by apply elem_of_singleton | done].
  - intros ip' [->%elem_of_singleton| ->%elem_of_singleton]%elem_of_union.
    + left. exists 0%nat, x. split; [by apply elem_of_singleton | done].
    + right. exists h, a. split; [by left | done].
Qed.

(** One peer, its IP and another IP registered, and no handshake going
    on: the other IP belongs to nobody. *)
Lemma stale_ip t ip ip' :
  peers t = {[0%nat]} →
  (IP ∘ Addr) <$> heap t !! 0%nat = Some ip →
  connectedPeerIPs t = {[ip; ip']} →
  incomingHandshakers t = ∅ → outgoingHandshakers t = ∅ →
  ip ≠ ip' →
  ip' ∈ connectedPeerIPs t
  ∧ (∀ id, ¬ present t id ip') ∧ ¬ handshaking t ip' ∧ ¬ consistent t.
Proof.
  intros Hp Hip Hips Hin Hout Hne.
  assert (Hnp : ∀ r pe, r ∈ peers t → heap t !! r = Some pe → IP (Addr pe) ≠ ip').
  { rewrite Hp. intros r pe ->%elem_of_singleton Hpe. rewrite Hpe in Hip.
    simpl in Hip. injection Hip as ->. done. }
  assert (Hnh : ¬ handshaking t ip').
  { intros (h & a & [Hh|Hh] & _); [rewrite Hin in Hh | rewrite Hout in Hh];
      by rewrite lookup_empty in Hh. }
  assert (Hreg : ip' ∈ connectedPeerIPs t).
  { rewrite Hips. apply elem_of_union_r. by apply elem_of_singleton. }
  split_and!; [done | | done |].
  - intros id (r & pe & Hr & Hpe & _ & Hip'). by apply (Hnp r pe).
  - intros (_ & _ & H3). destruct (H3 _ Hreg) as [(r & pe & Hr & Hpe & Hip')|Hh].
    + by apply (Hnp r pe).
    + by apply Hnh.
Qed.

(** C7, on the failing input. Peer "A" is connected from 10.0.0.1 and
    the maps are consistent; a second connection, from 10.0.0.2, ends
    its handshake with the same peer ID. [startPeer] closes it and
    returns, and its IP stays in [connectedPeerIPs]: the connection has
    its ID and its IP registered and is not among the peers, no
    handshake is going on for that IP, and the maps are no longer
    consistent. *)
Lemma duplicate_id_leaves_ip_registered :
  consistent torrent_AB
  ∧ step quiet_env torrent_AB duplicate_id = Next torrent_dup
  ∧ registered torrent_dup "A" (IP addrB)
  ∧ ¬ present torrent_dup "A" (IP addrB)
  ∧ ¬ handshaking torrent_dup (IP addrB)
  ∧ addrB ∈ closedConns torrent_dup
  ∧ ¬ consistent torrent_dup.
Proof.
  destruct torrent_AB_maps as (Hp0 & [Hid0 Hip0] & Hids0 & Hips0 & Hh0).
  destruct torrent_dup_maps as (Hp & [Hid Hip] & Hids & Hips & Hin & Hout & Hcl).
  destruct (stale_ip torrent_dup "10.0.0.1" (IP addrB) Hp Hip Hips Hin Hout)
    as (Hreg & Hnp & Hnh & Hnc); [discriminate|].
  split_and!.
  - exact (consistent_peer_and_handshake torrent_AB "A" "10.0.0.1" 0%nat addrB
             Hp0 Hid0 Hip0 Hids0 Hips0 Hh0).
  - vm_compute. reflexivity.
  - split; [rewrite Hids; by apply elem_of_singleton | exact Hreg].
  - apply Hnp.
  - exact Hnh.
  - rewrite Hcl. by apply list_elem_of_singleton.
  - exact Hnc.
Qed.

(** The other paths keep the duplicate filters in step with the peers:
    a peer that is registered is present with its ID and its IP
    registered, a peer that is closed is no longer present and its ID
    is released, and a handshake that fails releases the IP. *)
Lemma startPeer_registers p incoming t :
  conn_ID p ∉ peerIDs t → IP (conn_Addr p) ∈ connectedPeerIPs t →
  registered (startPeer p incoming t) (conn_ID p) (IP (conn_Addr p))
  ∧ present (startPeer p incoming t) (conn_ID p) (IP (conn_Addr p)).
Proof.
  intros Hid Hip.
  destruct (startPeer_registers_shape p incoming t Hid)
    as (pe & x & Hf & Hp & Hh & Hi & Ha & Hids & Hips & _).
  split.
  - split; [rewrite Hids; by apply elem_of_union_l, elem_of_singleton | by rewrite Hips].
  - exists pe, x. rewrite Hp, Ha.
    split; [by apply elem_of_union_l, elem_of_singleton | done].
Qed.

Lemma closePeer_unregisters pe x t :
  heap t !! pe = Some x →
  (pe ∉ peers (closePeer pe t)) ∧ (ID x ∉ peerIDs (closePeer pe t)).
Proof.
  intros Hx. unfold closePeer. rewrite Hx.
  match goal with
  | |- context [dialAddresses ?u] =>
      destruct (peers_dialAddresses u) as [-> ->]
  end.
  assert (Hdrop : ∀ a u, peers (pexDropPeer a u) = peers u
                         ∧ peerIDs (pexDropPeer a u) = peerIDs u)
    by (intros a u; unfold pexDropPeer; by case_match).
  assert (Hpick : ∀ c u, peers (picker_call c u) = peers u
                         ∧ peerIDs (picker_call c u) = peerIDs u)
    by (intros c u; unfold picker_call; by case_match).
  match goal with
  | |- context [pexDropPeer ?a ?u] => destruct (Hdrop a u) as [-> ->]
  end.
  match goal with
  | |- context [picker_call ?c ?u] => destruct (Hpick c u) as [-> ->]
  end.
  simpl. split.
  - intros [_ Hn]%elem_of_difference. apply Hn. by apply elem_of_singleton.
  - intros [_ Hn]%elem_of_difference. apply Hn. by apply elem_of_singleton.
Qed.

Lemma failed_handshake_releases_ip env ih remote id fast t :
  ∃ t', step env t (IncomingHandshakerResult ih remote true id fast) = Next t'
        ∧ (IP remote ∉ connectedPeerIPs t')
        ∧ incomingHandshakers t' !! ih = None.
Proof.
  eexists. split; [reflexivity|]. simpl. split.
  - intros [_ Hn]%elem_of_difference. apply Hn. by apply elem_of_singleton.
  - apply lookup_delete_eq.
Qed.

End EngineFacts.

(* ===================================================================== *)
(** * The regular unchoke                                                 *)
(* ===================================================================== *)

Module ChokeFacts.

Import Engine EngineFacts.

Lemma less_period t i j :
  less t i j = (period_bytes t i >? period_bytes t j)%Z.
Proof. unfold less, period_bytes. by destruct (completed t). Qed.

(** What the loop does to the peer it looks at, and to the others. *)
Lemma unchoke_one pe t :
  is_Some (heap t !! pe) →
  let t1 := update_peer pe (set_OptimisticUnchoked false) (unchokePeer pe t) in
  config t1 = config t ∧ peers t1 = peers t
  ∧ AmChoking <$> heap t1 !! pe = Some false
  ∧ (∀ r, r ≠ pe → heap t1 !! r = heap t !! r)
  ∧ (∀ r, counters <$> heap t1 !! r = counters <$> heap t !! r).
Proof.
  intros [x Hx]. unfold unchokePeer, peer_flag. rewrite Hx. cbn [from_option].
  destruct (AmChoking x) eqn:Ha; cbv zeta; split_and!; try reflexivity.
  - unfold SendMessage. rewrite !update_peer_lookup, Hx. done.
  - intros r Hne. unfold SendMessage. by rewrite !update_peer_lookup_ne.
  - intros r. destruct (decide (r = pe)) as [->|Hne].
    + unfold SendMessage. rewrite !update_peer_lookup, Hx. done.
    + unfold SendMessage. by rewrite !update_peer_lookup_ne.
  - rewrite update_peer_lookup, Hx. simpl. by rewrite Ha.
  - intros r Hne. by rewrite update_peer_lookup_ne.
  - intros r. destruct (decide (r = pe)) as [->|Hne].
    + rewrite update_peer_lookup, Hx. done.
    + by rewrite update_peer_lookup_ne.
Qed.

Lemma choke_one pe t :
  is_Some (heap t !! pe) →
  let t1 := chokePeer pe t in
  config t1 = config t ∧ peers t1 = peers t
  ∧ AmChoking <$> heap t1 !! pe = Some true
  ∧ (∀ r, r ≠ pe → heap t1 !! r = heap t !! r)
  ∧ (∀ r, counters <$> heap t1 !! r = counters <$> heap t !! r).
Proof.
  intros [x Hx]. unfold chokePeer, peer_flag. rewrite Hx. cbn [from_option].
  rewrite bool_decide_eq_true_2 by done.
  destruct (AmChoking x) eqn:Ha; cbv zeta; cbn [negb andb]; split_and!; try reflexivity.
  - by rewrite Hx; simpl; rewrite Ha.
  - unfold SendMessage. rewrite !update_peer_lookup, Hx. done.
  - intros r Hne. unfold SendMessage. by rewrite !update_peer_lookup_ne.
  - intros r. destruct (decide (r = pe)) as [->|Hne].
    + unfold SendMessage. rewrite !update_peer_lookup, Hx. done.
    + unfold SendMessage. by rewrite !update_peer_lookup_ne.
Qed.

Lemma tickUnchoke_loop_spec l u t :
  NoDup l → (∀ r, r ∈ l → is_Some (heap t !! r)) →
  let t' := tickUnchoke_loop l u t in
  let n := Z.to_nat (UnchokedPeers (config t) - u) in
  config t' = config t ∧ peers t' = peers t
  ∧ (∀ r, r ∉ l → heap t' !! r = heap t !! r)
  ∧ (∀ r, r ∈ take n l → AmChoking <$> heap t' !! r = Some false)
  ∧ (∀ r, r ∈ drop n l → AmChoking <$> heap t' !! r = Some true)
  ∧ (∀ r, counters <$> heap t' !! r = counters <$> heap t !! r).
Proof.
  revert u t. induction l as [|pe l IH]; intros u t Hnd Hin; simpl.
  - split_and!; try done.
    + intros r. rewrite take_nil. by intros ?%elem_of_nil.
    + intros r. rewrite drop_nil. by intros ?%elem_of_nil.
  - apply NoDup_cons in Hnd as [Hpe Hnd].
    assert (Hsome : is_Some (heap t !! pe)) by (apply Hin; left).
    case_bool_decide as Hu.
    + destruct (unchoke_one pe t Hsome) as (Hc1 & Hp1 & Ha1 & Hne1 & Hb1).
      set (t1 := update_peer pe (set_OptimisticUnchoked false) (unchokePeer pe t)) in *.
      destruct (IH (u + 1)%Z t1 Hnd) as (Hc & Hp & Hout & Htake & Hdrop & Hb).
      { intros r Hr. rewrite Hne1; [apply Hin; by right|]. intros ->. done. }
      rewrite Hc1 in *.
      replace (Z.to_nat (UnchokedPeers (config t) - u))
        with (S (Z.to_nat (UnchokedPeers (config t) - (u + 1)))) by lia.
      simpl. split_and!.
      * by rewrite Hc.
      * by rewrite Hp.
      * intros r [Hr1 Hr2]%not_elem_of_cons. rewrite Hout by done. by apply Hne1.
      * intros r [->|Hr]%elem_of_cons; [|by apply Htake]. by rewrite Hout.
      * done.
      * intros r. by rewrite Hb.
    + destruct (choke_one pe t Hsome) as (Hc1 & Hp1 & Ha1 & Hne1 & Hb1).
      set (t1 := chokePeer pe t) in *.
      destruct (IH u t1 Hnd) as (Hc & Hp & Hout & Htake & Hdrop & Hb).
      { intros r Hr. rewrite Hne1; [apply Hin; by right|]. intros ->. done. }
      rewrite Hc1 in *.
      replace (Z.to_nat (UnchokedPeers (config t) - u)) with 0%nat in * by lia.
      simpl. split_and!.
      * by rewrite Hc.
      * by rewrite Hp.
      * intros r [Hr1 Hr2]%not_elem_of_cons. rewrite Hout by done. by apply Hne1.
      * by intros r ?%elem_of_nil.
      * intros r [->|Hr]%elem_of_cons; [by rewrite Hout|]. apply Hdrop.
        by rewrite drop_0.
      * intros r. by rewrite Hb.
Qed.

Lemma considered_spec t r :
  r ∈ considered t
  ↔ r ∈ peers t ∧ peer_flag PeerInterested t r = true
    ∧ peer_flag OptimisticUnchoked t r = false.
Proof.
  unfold considered. rewrite list_elem_of_filter, elem_of_elements.
  rewrite andb_true_iff, negb_true_iff. tauto.
Qed.

Lemma considered_in_heap t r : r ∈ considered t → is_Some (heap t !! r).
Proof.
  intros (_ & Hi & _)%considered_spec. unfold peer_flag in Hi.
  destruct (heap t !! r); [by eexists | done].
Qed.

Lemma NoDup_considered t : NoDup (considered t).
Proof. apply NoDup_filter, NoDup_elements. Qed.

(** C6. After a regular unchoke tick there is a ranking [ps] of the
    peers considered, which are exactly the peers of [t.peers] with
    PeerInterested and without OptimisticUnchoked, each once: no peer of
    [ps] has more bytes in the choke period than one before it,
    counting downloaded bytes while leeching and uploaded bytes when
    the torrent is complete; the first [UnchokedPeers] of [ps] are
    unchoked and all the others of [ps] are choked; a peer that is not
    interested or is optimistically unchoked keeps its choke state,
    whatever its counters; and both period counters of every connected
    peer are zero. *)
Theorem tickUnchoke_ranks env t :
  sorts_by (sortSlice env) (less t) →
  let n := Z.to_nat (UnchokedPeers (config t)) in
  let t' := tickUnchoke env t in
  ∃ ps,
    NoDup ps
    ∧ (∀ r, r ∈ ps ↔ r ∈ peers t ∧ peer_flag PeerInterested t r = true
                      ∧ peer_flag OptimisticUnchoked t r = false)
    ∧ (∀ i j x y, (i < j)%nat → ps !! i = Some x → ps !! j = Some y →
                  (period_bytes t y ≤ period_bytes t x)%Z)
    ∧ (∀ r, r ∈ take n ps → AmChoking <$> heap t' !! r = Some false)
    ∧ (∀ r, r ∈ drop n ps → AmChoking <$> heap t' !! r = Some true)
    ∧ (∀ r, r ∉ ps → AmChoking <$> heap t' !! r = AmChoking <$> heap t !! r)
    ∧ (∀ r x, r ∈ peers t → heap t' !! r = Some x →
              BytesDownlaodedInChokePeriod x = 0%Z ∧ BytesUploadedInChokePeriod x = 0%Z)
    ∧ peers t' = peers t.
Proof.
  intros Hsort. destruct (Hsort (considered t)) as [Hperm Hord]. simpl.
  exists (sortSlice env (less t) (considered t)).
  set (ps := sortSlice env (less t) (considered t)) in *.
  set (t0 := for_each_peer reset_period t).
  assert (Hnd : NoDup ps) by (rewrite Hperm; apply NoDup_considered).
  assert (Hh0 : ∀ r, heap t0 !! r
                     = (fun pe => if bool_decide (r ∈ peers t) then reset_period pe else pe)
                         <$> heap t !! r)
    by (intros r; apply for_each_peer_lookup).
  assert (Hin : ∀ r, r ∈ ps → is_Some (heap t0 !! r)).
  { intros r Hr. rewrite Hperm in Hr. apply considered_in_heap in Hr.
    rewrite Hh0. by apply fmap_is_Some. }
  destruct (tickUnchoke_loop_spec ps 0 t0 Hnd Hin) as (Hc & Hp & Hout & Htake & Hdrop & Hb).
  change (config t0) with (config t) in *. change (peers t0) with (peers t) in *.
  rewrite Z.sub_0_r in *. fold (tickUnchoke env t) in *.
  unfold tickUnchoke. fold ps. fold t0.
  split_and!; try done.
  - intros r. rewrite Hperm. apply considered_spec.
  - intros i j x y Hlt Hi Hj.
    assert (Hf : less t y x = false) by (by eapply (Hord i j)).
    rewrite less_period in Hf. lia.
  - intros r Hr. rewrite Hout by done.
    rewrite Hh0. destruct (heap t !! r) as [x|]; [|done]. simpl.
    by case_bool_decide.
  - intros r x Hr Hx.
    assert (Hcx : counters <$> heap (tickUnchoke_loop ps 0 t0) !! r = Some (counters x))
      by (by rewrite Hx).
    rewrite Hb, Hh0 in Hcx. destruct (heap t !! r) as [x0|]; [|done].
    simpl in Hcx. rewrite bool_decide_eq_true_2 in Hcx by done.
    unfold counters in Hcx. simpl in Hcx. by simplify_eq.
Qed.


Lemma StronglySorted_lookup_lt {A} (R : relation A) l i j x y :
  StronglySorted R l → (i < j)%nat → l !! i = Some x → l !! j = Some y → R x y.
Proof.
  intros Hs. revert i j. induction Hs as [|a l Hs IH Hall]; intros i j Hlt Hi Hj.
  - by rewrite lookup_nil in Hi.
  - destruct j as [|j]; [lia|]. simpl in Hj. destruct i as [|i]; simpl in Hi.
    + simplify_eq. rewrite Forall_forall in Hall. apply Hall.
      by eapply list_elem_of_lookup_2.
    + apply (IH i j); [lia | done | done].
Qed.

(** A merge sort on the complement of [less] is a [sort.Slice]. *)
Lemma quiet_sorts t : sorts_by (sortSlice quiet_env) (less t).
Proof.
  intros l. simpl.
  set (R := fun x y : nat => Is_true (negb (less t y x))).
  assert (HR : ∀ x y, R x y ↔ (period_bytes t y ≤ period_bytes t x)%Z).
  { intros x y. unfold R. rewrite less_period.
    destruct (period_bytes t y >? period_bytes t x)%Z eqn:Hg; simpl; split; try done; lia. }
  assert (Htrans : Transitive R).
  { intros x y z. rewrite !HR. lia. }
  assert (Htotal : Total R).
  { intros x y. rewrite !HR. lia. }
  split; [apply merge_sort_Permutation|].
  intros i j x y Hlt Hi Hj.
  pose proof (StronglySorted_merge_sort R l) as Hs.
  pose proof (StronglySorted_lookup_lt R _ i j x y Hs Hlt Hi Hj) as Hxy.
  unfold R in Hxy. by destruct (less t y x).
Qed.

Import EngineSamples.

(** The spec's four interested peers with 3000, 1000, 4000 and 2000
    bytes downloaded in the period and two regular slots, among a peer
    that is not interested and one that is optimistically unchoked,
    both with more bytes: the peers with 4000 and 3000 end unchoked,
    the other two choked, the two others are left as they are, and all
    counters are zero. *)
Lemma tickUnchoke_ranks_witness :
  (∃ ps,
     NoDup ps
     ∧ (∀ r, r ∈ ps ↔ r ∈ peers torrent_six
                       ∧ peer_flag PeerInterested torrent_six r = true
                       ∧ peer_flag OptimisticUnchoked torrent_six r = false)
     ∧ (∀ i j x y, (i < j)%nat → ps !! i = Some x → ps !! j = Some y →
                   (period_bytes torrent_six y ≤ period_bytes torrent_six x)%Z)
     ∧ (∀ r, r ∈ take 2 ps
             → AmChoking <$> heap (tickUnchoke quiet_env torrent_six) !! r = Some false)
     ∧ (∀ r, r ∈ drop 2 ps
             → AmChoking <$> heap (tickUnchoke quiet_env torrent_six) !! r = Some true)
     ∧ (∀ r, r ∉ ps → AmChoking <$> heap (tickUnchoke quiet_env torrent_six) !! r
                      = AmChoking <$> heap torrent_six !! r)
     ∧ (∀ r x, r ∈ peers torrent_six →
               heap (tickUnchoke quiet_env torrent_six) !! r = Some x →
               BytesDownlaodedInChokePeriod x = 0%Z ∧ BytesUploadedInChokePeriod x = 0%Z)
     ∧ peers (tickUnchoke quiet_env torrent_six) = peers torrent_six)
  ∧ map (fun r => AmChoking <$> heap torrent_six !! r)
      [1%nat; 2%nat; 3%nat; 4%nat; 5%nat; 6%nat]
    = [Some true; Some false; Some true; Some false; Some false; Some false]
  ∧ map (fun r => AmChoking <$> heap (tickUnchoke quiet_env torrent_six) !! r)
      [1%nat; 2%nat; 3%nat; 4%nat; 5%nat; 6%nat]
    = [Some false; Some true; Some false; Some true; Some false; Some false]
  ∧ map (fun r => sent <$> heap (tickUnchoke quiet_env torrent_six) !! r)
      [1%nat; 2%nat; 3%nat; 4%nat; 5%nat; 6%nat]
    = [Some [UnchokeMessage]; Some [ChokeMessage]; Some [UnchokeMessage];
       Some [ChokeMessage]; Some []; Some []].
Proof.
  split; [exact (tickUnchoke_ranks quiet_env torrent_six (quiet_sorts torrent_six))|].
  split_and!; vm_compute; reflexivity.
Defined.

End ChokeFacts.

(* ===================================================================== *)
(** * The bitfield only grows                                             *)
(* ===================================================================== *)

Module BitfieldFacts.

Import Bitfield.

Lemma mask_bit i : Z.testbit (mask i) (7 - Z.of_N (i mod 8)) = true.
Proof.
  unfold mask.
  assert (i mod 8 < 8) by (apply N.mod_lt; lia).
  rewrite Z.shiftl_spec by lia. by rewrite Z.sub_diag.
Qed.

Lemma Test_Set_same bf i :
  (N.to_nat (i / 8) < length (Bytes bf))%nat → Test (Set_ bf i) i = true.
Proof.
  intros Hlt. unfold Test, Set_. simpl. rewrite list_lookup_alter_eq.
  destruct (lookup_lt_is_Some_2 _ _ Hlt) as [x ->]. simpl.
  by rewrite Z.lor_spec, mask_bit, orb_true_r.
Qed.

Lemma Test_Set_mono bf i j : Test bf j = true → Test (Set_ bf i) j = true.
Proof.
  unfold Test, Set_. simpl. intros H.
  destruct (decide (N.to_nat (i / 8) = N.to_nat (j / 8))) as [->|Hne].
  - rewrite list_lookup_alter_eq. destruct (Bytes bf !! N.to_nat (j / 8)); [|done].
    simpl. by rewrite Z.lor_spec, H.
  - by rewrite list_lookup_alter_ne.
Qed.

Lemma mask_other_bit i j :
  i / 8 = j / 8 → i ≠ j → Z.testbit (mask i) (7 - Z.of_N (j mod 8)) = false.
Proof.
  intros Hq Hne. unfold mask.
  assert (i mod 8 < 8) by (apply N.mod_lt; lia).
  assert (j mod 8 < 8) by (apply N.mod_lt; lia).
  assert (i mod 8 ≠ j mod 8) as Hmod.
  { intros Hm. apply Hne.
    rewrite (N.Div0.div_mod i 8), (N.Div0.div_mod j 8). congruence. }
  rewrite Z.shiftl_spec by lia.
  assert (Z.of_N (i mod 8) ≠ Z.of_N (j mod 8)) as Hz by lia.
  revert Hz. generalize (Z.of_N (i mod 8)) (Z.of_N (j mod 8)). intros a b Hz.
  destruct (Z.lt_ge_cases (7 - b - (7 - a)) 0) as [Hneg|Hpos].
  - by apply Z.testbit_neg_r.
  - apply Z.bits_above_log2; [lia|]. change (Z.log2 1) with 0%Z. lia.
Qed.

Lemma Test_Set_other bf i j : i ≠ j → Test (Set_ bf i) j = Test bf j.
Proof.
  intros Hne. unfold Test, Set_. simpl.
  destruct (decide (N.to_nat (i / 8) = N.to_nat (j / 8))) as [Heq|Hq].
  - rewrite Heq. rewrite list_lookup_alter_eq.
    destruct (Bytes bf !! N.to_nat (j / 8)); [|done]. simpl.
    rewrite Z.lor_spec, mask_other_bit; [by rewrite orb_false_r | lia | done].
  - by rewrite list_lookup_alter_ne.
Qed.

End BitfieldFacts.

Module MonotoneFacts.

Import Engine.

(** ** Code that leaves the bitfield alone *)

Lemma bitfield_chokePeer pe t : bitfield (chokePeer pe t) = bitfield t.
Proof. unfold chokePeer. by case_match. Qed.

Lemma bitfield_unchokePeer pe t : bitfield (unchokePeer pe t) = bitfield t.
Proof. unfold unchokePeer. by case_match. Qed.

Lemma bitfield_pexAddPeer a t : bitfield (pexAddPeer a t) = bitfield t.
Proof. unfold pexAddPeer. by case_match. Qed.

Lemma bitfield_pexDropPeer a t : bitfield (pexDropPeer a t) = bitfield t.
Proof. unfold pexDropPeer. by case_match. Qed.

Lemma bitfield_picker_call c t : bitfield (picker_call c t) = bitfield t.
Proof. unfold picker_call. by case_match. Qed.

Lemma bitfield_dialAddresses_loop q t : bitfield (dialAddresses_loop q t) = bitfield t.
Proof.
  revert t. induction q as [|a q IH]; intros t; simpl; repeat case_match; try done;
    by rewrite IH.
Qed.

Lemma bitfield_dialAddresses t : bitfield (dialAddresses t) = bitfield t.
Proof. unfold dialAddresses. case_match; [done | apply bitfield_dialAddresses_loop]. Qed.

Lemma bitfield_closePieceDownloader pe i t :
  bitfield (closePieceDownloader pe i t) = bitfield t.
Proof. unfold closePieceDownloader. simpl. by rewrite bitfield_picker_call. Qed.

Lemma bitfield_closeInfoDownloader pe t : bitfield (closeInfoDownloader pe t) = bitfield t.
Proof. reflexivity. Qed.

Lemma bitfield_closePeer pe t : bitfield (closePeer pe t) = bitfield t.
Proof.
  unfold closePeer. case_match; [|done].
  rewrite bitfield_dialAddresses, bitfield_pexDropPeer, bitfield_picker_call. simpl.
  destruct (pieceDownloaders t !! pe); destruct (bool_decide _);
    rewrite ?bitfield_closeInfoDownloader, ?bitfield_closePieceDownloader; done.
Qed.

Lemma bitfield_sendFirstMessage r t : bitfield (sendFirstMessage r t) = bitfield t.
Proof. unfold sendFirstMessage. repeat case_match; done. Qed.

Lemma bitfield_startPeer p incoming t : bitfield (startPeer p incoming t) = bitfield t.
Proof.
  unfold startPeer. case_match.
  - by rewrite bitfield_dialAddresses, bitfield_pexDropPeer; simpl;
      rewrite bitfield_pexAddPeer.
  - case_match; rewrite ?bitfield_unchokePeer, bitfield_sendFirstMessage;
      destruct incoming; simpl; by rewrite bitfield_pexAddPeer.
Qed.

Lemma bitfield_handleNewPeers env addrs t :
  bitfield (handleNewPeers env addrs t) = bitfield t.
Proof.
  unfold handleNewPeers. repeat case_match; try done; by rewrite bitfield_dialAddresses.
Qed.

Lemma bitfield_incomingConn a b t : bitfield (incomingConn a b t) = bitfield t.
Proof. unfold incomingConn. repeat case_match; done. Qed.

Lemma bitfield_tickUnchoke_loop l u t :
  bitfield (tickUnchoke_loop l u t) = bitfield t.
Proof.
  revert u t. induction l as [|pe l IH]; intros u t; simpl; [done|].
  case_match; rewrite IH; simpl; by rewrite ?bitfield_unchokePeer, ?bitfield_chokePeer.
Qed.

Lemma bitfield_tickUnchoke env t : bitfield (tickUnchoke env t) = bitfield t.
Proof. unfold tickUnchoke. by rewrite bitfield_tickUnchoke_loop. Qed.

Lemma bitfield_optimistic_loop n cands rnd t :
  bitfield (optimistic_loop n cands rnd t) = bitfield t.
Proof.
  revert rnd t. induction n as [|n IH]; intros rnd t; simpl; [done|].
  destruct cands; [done|]. rewrite IH. simpl. by rewrite bitfield_unchokePeer.
Qed.

Lemma bitfield_tickOptimisticUnchoke rnd t :
  bitfield (tickOptimisticUnchoke rnd t) = bitfield t.
Proof.
  unfold tickOptimisticUnchoke. rewrite bitfield_optimistic_loop. simpl.
  generalize (optimisticUnchokedPeers t). intros l. revert t.
  induction l as [|pe l IH]; intros t; simpl; [done|].
  rewrite IH. case_match; [apply bitfield_chokePeer | done].
Qed.

Lemma bitfield_deferWriteBitfield t : bitfield (deferWriteBitfield t) = bitfield t.
Proof. unfold deferWriteBitfield. by case_match. Qed.

(** ** Code that may add pieces *)

Lemma pieces_le_refl t : pieces_le t t.
Proof. by intros i. Qed.

Lemma pieces_le_trans t1 t2 t3 : pieces_le t1 t2 → pieces_le t2 t3 → pieces_le t1 t3.
Proof. intros H1 H2 i Hi. by apply H2, H1. Qed.

Lemma pieces_le_bitfield t t' : bitfield t' = bitfield t → pieces_le t t'.
Proof. intros H i. unfold has_piece. by rewrite H. Qed.

Lemma pieces_le_foldl {A} (f : torrent → A → torrent) l t :
  (∀ t x, pieces_le t (f t x)) → pieces_le t (foldl f t l).
Proof.
  intros Hf. revert t. induction l as [|x l IH]; intros t; simpl.
  - apply pieces_le_refl.
  - eapply pieces_le_trans; [apply Hf | apply IH].
Qed.

Section WithEnv.

Variable env : Env.
Hypothesis Habsent : keeps_pieces env.

Lemma pieces_le_absent c t : pieces_le t (absent env c t).
Proof. intros i. apply Habsent. Qed.

Lemma pieces_le_writeBitfield b w t : pieces_le t (writeBitfield env b w t).
Proof.
  unfold writeBitfield. repeat case_match;
    first [ by apply pieces_le_bitfield
          | eapply pieces_le_trans; [|apply pieces_le_absent];
            by apply pieces_le_bitfield ].
Qed.

Lemma pieces_le_peerSnubbed pe t : pieces_le t (peerSnubbed env pe t).
Proof.
  unfold peerSnubbed. repeat case_match;
    first [ by apply pieces_le_bitfield
          | eapply pieces_le_trans; [|apply pieces_le_absent];
            apply pieces_le_bitfield; by rewrite ?bitfield_picker_call ].
Qed.

Lemma pieces_le_checkCompletion t b t' :
  checkCompletion env t = Some (b, t') → pieces_le t t'.
Proof.
  unfold checkCompletion. intros H. repeat case_match; simplify_eq;
    try apply pieces_le_refl.
  eapply pieces_le_trans; [|apply pieces_le_absent].
  eapply pieces_le_trans; [|by apply pieces_le_bitfield].
  eapply pieces_le_trans; [|apply pieces_le_foldl].
  2:{ intros t0 x. eapply pieces_le_trans; [|apply pieces_le_absent].
      apply pieces_le_bitfield, bitfield_closePieceDownloader. }
  eapply pieces_le_trans; [|by apply pieces_le_bitfield].
  eapply pieces_le_trans; [|apply pieces_le_foldl].
  2:{ intros t0 x. case_match; [|apply pieces_le_refl].
      apply pieces_le_bitfield, bitfield_closePeer. }
  by apply pieces_le_bitfield.
Qed.

(** A write that succeeded: the bit was clear, and the bitfield with
    the bit set is below the one the loop goes on with. *)
Lemma pieceWriterResult_ok index w t t' :
  pieceWriterResult env index None w t = Next t' →
  ∃ bf, bitfield t = Some bf ∧ Bitfield.Test bf index = false
        ∧ ∀ i, Bitfield.Test (Bitfield.Set_ bf index) i = true → has_piece t' i = true.
Proof.
  unfold pieceWriterResult. simpl.
  destruct (bitfield t) as [bf|] eqn:Hbf; [|done].
  destruct (Bitfield.Test bf index) eqn:Htest; [done|].
  match goal with
  | |- context [checkCompletion env ?x] =>
      destruct (checkCompletion env x) as [[b t1]|] eqn:Hcc; [|done];
      pose proof (pieces_le_checkCompletion _ _ _ Hcc) as Hle
  end.
  intros [= <-]. exists bf. split; [done|]. split; [done|].
  intros i Hi.
  assert (Hfin : pieces_le t1
            (if resume t1 then
               if b then writeBitfield env true w t1 else deferWriteBitfield t1
             else t1)).
  { destruct (resume t1); [destruct b|];
      first [ apply pieces_le_writeBitfield
            | apply pieces_le_bitfield, bitfield_deferWriteBitfield
            | apply pieces_le_refl ]. }
  apply Hfin, Hle.
  match goal with
  | |- has_piece (foldl ?f ?x ?l) i = true =>
      apply (pieces_le_foldl f l x)
  end.
  - intros t0 x. destruct (DoesHave env _ x index).
    + apply pieces_le_absent.
    + eapply pieces_le_trans; [apply pieces_le_absent | by apply pieces_le_bitfield].
  - unfold has_piece. simpl. done.
Qed.

Lemma pieces_le_pieceWriterResult index err w t t' :
  pieceWriterResult env index err w t = Next t' → pieces_le t t'.
Proof.
  destruct err as [e|].
  - unfold pieceWriterResult. intros [= <-].
    eapply pieces_le_trans; [|apply pieces_le_absent].
    by apply pieces_le_bitfield.
  - intros H. apply pieceWriterResult_ok in H as (bf & Hbf & _ & H).
    intros i Hi. apply H. apply BitfieldFacts.Test_Set_mono.
    unfold has_piece in Hi. by rewrite Hbf in Hi.
Qed.

Lemma pieces_le_step t e t' :
  step env t e = Next t' ∨ step env t e = Exit t' → pieces_le t t'.
Proof.
  intros [H|H]; destruct e; simpl in H; repeat case_match; simplify_eq;
    try apply pieces_le_refl;
    try apply pieces_le_absent;
    try (by apply pieces_le_bitfield);
    try (by eapply pieces_le_pieceWriterResult);
    try apply pieces_le_writeBitfield;
    try apply pieces_le_peerSnubbed;
    try (apply pieces_le_bitfield;
         rewrite ?bitfield_handleNewPeers, ?bitfield_incomingConn, ?bitfield_tickUnchoke,
           ?bitfield_tickOptimisticUnchoke, ?bitfield_startPeer, ?bitfield_dialAddresses,
           ?bitfield_closePeer; done).
  exfalso. revert H. unfold pieceWriterResult. by repeat case_match.
Qed.

Lemma pieces_le_run evs t t' :
  run env t evs = Next t' ∨ run env t evs = Exit t' → pieces_le t t'.
Proof.
  revert t. induction evs as [|e evs IH]; intros t H; simpl in H.
  - destruct H as [H|H]; simplify_eq. apply pieces_le_refl.
  - destruct (step env t e) as [t1|t1| |] eqn:Hs.
    + eapply pieces_le_trans; [|by apply IH]. apply (pieces_le_step t e). by left.
    + destruct H as [H|H]; simplify_eq. apply (pieces_le_step t e). by right.
    + by destruct H.
    + by destruct H.
Qed.

End WithEnv.


(** ** Code that writes the bitfield *)

Lemma bitfield_foldl {A} (f : torrent → A → torrent) l t :
  (∀ t x, bitfield (f t x) = bitfield t) → bitfield (foldl f t l) = bitfield t.
Proof.
  intros Hf. revert t. induction l as [|x l IH]; intros t; simpl; [done|].
  by rewrite IH, Hf.
Qed.

Section WithFrame.

Variable env : Env.
Hypothesis Hframe :
  ∀ c t, (∀ ve, c ≠ call_handleVerificationDone ve) →
         bitfield (absent env c t) = bitfield t.

Lemma bitfield_writeBitfield b w t : bitfield (writeBitfield env b w t) = bitfield t.
Proof.
  unfold writeBitfield. repeat case_match; try done; by rewrite Hframe.
Qed.

Lemma bitfield_peerSnubbed pe t : bitfield (peerSnubbed env pe t) = bitfield t.
Proof.
  unfold peerSnubbed. repeat case_match; try done;
    rewrite Hframe by done; by rewrite ?bitfield_picker_call.
Qed.

Lemma bitfield_checkCompletion t b t' :
  checkCompletion env t = Some (b, t') → bitfield t' = bitfield t.
Proof.
  unfold checkCompletion. intros H. repeat case_match; simplify_eq; try done.
  rewrite Hframe by done. cbn [bitfield set_piecePicker].
  rewrite bitfield_foldl.
  2:{ intros t0 x. rewrite Hframe by done. apply bitfield_closePieceDownloader. }
  cbn [bitfield set_addrList]. rewrite bitfield_foldl.
  2:{ intros t0 x. case_match; [apply bitfield_closePeer | done]. }
  done.
Qed.

(** A write that succeeded leaves the bitfield it found with the bit
    of the piece set, and nothing else changed. *)
Lemma pieceWriterResult_sets index w t t' :
  pieceWriterResult env index None w t = Next t' →
  ∃ bf, bitfield t = Some bf ∧ Bitfield.Test bf index = false
        ∧ bitfield t' = Some (Bitfield.Set_ bf index).
Proof.
  unfold pieceWriterResult. simpl.
  destruct (bitfield t) as [bf|] eqn:Hbf; [|done].
  destruct (Bitfield.Test bf index) eqn:Htest; [done|].
  match goal with
  | |- context [checkCompletion env ?x] =>
      destruct (checkCompletion env x) as [[b t1]|] eqn:Hcc; [|done];
      pose proof (bitfield_checkCompletion _ _ _ Hcc) as Hle
  end.
  intros [= <-]. exists bf. split; [done|]. split; [done|].
  assert (Hfin : bitfield (if resume t1 then
                             if b then writeBitfield env true w t1 else deferWriteBitfield t1
                           else t1) = bitfield t1).
  { destruct (resume t1); [destruct b|];
      first [ apply bitfield_writeBitfield | apply bitfield_deferWriteBitfield | done ]. }
  rewrite Hfin, Hle. rewrite bitfield_foldl; [done|].
  intros t0 x. destruct (DoesHave env _ x index); [by rewrite Hframe|].
  unfold SendMessage, update_peer. cbn [bitfield set_heap]. by rewrite Hframe.
Qed.

(** Every case of the select other than a successful write and a
    verifier result leaves the bitfield as it is. *)
Lemma bitfield_step t e t' :
  step env t e = Next t' ∨ step env t e = Exit t' →
  (∀ index w, e ≠ PieceWriterResult index None w) → (∀ ve, e ≠ VerifierResult ve) →
  bitfield t' = bitfield t.
Proof.
  intros H Hpw Hve.
  destruct e; try (by destruct (Hve ve));
    try (destruct H as [H|H]; simpl in H; repeat case_match; simplify_eq;
         rewrite ?Hframe by done;
         rewrite ?bitfield_handleNewPeers, ?bitfield_incomingConn, ?bitfield_tickUnchoke,
           ?bitfield_tickOptimisticUnchoke, ?bitfield_startPeer, ?bitfield_dialAddresses,
           ?bitfield_closePeer, ?bitfield_writeBitfield, ?bitfield_peerSnubbed;
         done).
  destruct Error as [err|]; [|by destruct (Hpw Index writeErr)].
  destruct H as [H|H]; simpl in H; unfold pieceWriterResult in H; simplify_eq.
  by rewrite Hframe.
Qed.

End WithFrame.

(** ** The handlers modelled from the spec *)

Lemma bitfield_handlers rest verifier c t :
  (∀ ve, c ≠ call_handleVerificationDone ve) →
  bitfield (Handlers.handlers rest verifier c t) = bitfield t.
Proof. intros H. destruct c; try done. by destruct (H ve). Qed.

(** A verifier result gives a torrent without bitfield the verifier's,
    and changes no bitfield there is. *)
Lemma bitfield_handleVerificationDone rest ve t :
  bitfield (Handlers.handleVerificationDone rest ve t)
  = match bitfield t, Handlers.ve_Error ve with
    | None, None => Some (Handlers.ve_Bitfield ve)
    | bf, _ => bf
    end.
Proof.
  unfold Handlers.handleVerificationDone, Handlers.keeps_bitfield.
  by destruct (Handlers.ve_Error ve), (bitfield t).
Qed.

Lemma keeps_pieces_handlers rest verifier st dh ss :
  keeps_pieces (Handlers.spec_env rest verifier st dh ss).
Proof.
  intros c t i Hi. unfold has_piece in *. cbn [absent Handlers.spec_env].
  assert (bitfield (Handlers.handlers rest verifier c t) = bitfield t ∨ bitfield t = None)
    as [->|Hn]; [|done|by rewrite Hn in Hi].
  destruct c; try (left; by apply bitfield_handlers).
  cbn [Handlers.handlers]. rewrite bitfield_handleVerificationDone.
  destruct (bitfield t); [left; by destruct (Handlers.ve_Error (verifier ve)) | by right].
Qed.

Import EngineSamples.



End MonotoneFacts.

(* ===================================================================== *)
(** ** Piece downloader: the pipeline                                     *)
(* ===================================================================== *)

Module PipelineFacts.

Import PieceDownloader PieceDownloaderRuns.

Lemma nextBlock_lowest d i b :
  blocks d !! i = Some b → requested b = false →
  (∀ j b', (j < i)%nat → blocks d !! j = Some b' → requested b' = true) →
  nextBlock d = Some (i, set_blocks d (<[i := set_requested b true]> (blocks d))).
Proof.
  intros Hl Hr Hlow.
  destruct (PieceDownloaderFacts.nextBlock_finds d i b Hl Hr) as (j & d' & Hn & Hle).
  destruct (PieceDownloaderFacts.nextBlock_Some _ _ _ Hn) as (b0 & Hj & Hrj & -> & _).
  destruct (decide (j = i)) as [->|Hne].
  - by simplify_eq.
  - assert (j < i)%nat as Hlt by lia.
    specialize (Hlow j b0 Hlt Hj). congruence.
Qed.

Lemma nextBlock_from_all k bs :
  Forall (fun b => requested b = true) bs → nextBlock_from k bs = None.
Proof.
  intros H. revert k. induction H as [|b bs Hb _ IH]; intros k; simpl; [done|].
  by rewrite Hb, IH.
Qed.

Lemma Tick_step d n i b :
  limiter d = Some n → (n < maxQueuedBlocks)%nat →
  blocks d !! i = Some b → requested b = false →
  (∀ j b', (j < i)%nat → blocks d !! j = Some b' → requested b' = true) →
  step d (Tick None)
  = Continue (mkPD (pd_Piece d) (pd_Peer d)
                (<[i := set_requested b true]> (blocks d)) (Some (S n)))
      [request_for d b].
Proof.
  intros Hlim Hn Hl Hr Hlow. simpl. rewrite Hlim.
  rewrite bool_decide_eq_true_2 by done.
  rewrite (nextBlock_lowest (set_limiter d (Some (S n))) i b Hl Hr Hlow).
  simpl. by rewrite list_lookup_insert_eq by (by eapply lookup_lt_Some).
Qed.

(** Tick, with a free slot in the limiter, asks the peer for the
    unrequested block of lowest index, marks that block and no other,
    and puts one token into the limiter. *)
Theorem Tick_requests_lowest_unrequested d n i b sendErr :
  limiter d = Some n → (n < maxQueuedBlocks)%nat →
  blocks d !! i = Some b → requested b = false →
  (∀ j b', (j < i)%nat → blocks d !! j = Some b' → requested b' = true) →
  let d' := mkPD (pd_Piece d) (pd_Peer d)
              (<[i := set_requested b true]> (blocks d)) (Some (S n)) in
  step d (Tick sendErr)
  = match sendErr with
    | None => Continue d' [SendRequest (Piece_Index (pd_Piece d))
                             (Block_Begin (Block b)) (Block_Length (Block b))]
    | Some err => Return d' [ErrC err]
    end.
Proof.
  intros Hlim Hn Hl Hr Hlow. simpl. rewrite Hlim.
  rewrite bool_decide_eq_true_2 by done.
  rewrite (nextBlock_lowest (set_limiter d (Some (S n))) i b Hl Hr Hlow).
  simpl. rewrite list_lookup_insert_eq by (by eapply lookup_lt_Some).
  by destruct sendErr.
Qed.

Lemma Tick_requests_lowest_unrequested_witness :
  step (Run (New Samples.small_piece Samples.plain_peer) [Tick None]).1.2 (Tick None)
  = Continue
      (mkPD Samples.small_piece Samples.plain_peer
         [mkBlock (mkPieceBlock 0 0 2) true None; mkBlock (mkPieceBlock 1 2 1) true None]
         (Some 2%nat))
      [SendRequest 0 2 1].
Proof.
  apply (Tick_requests_lowest_unrequested
           (Run (New Samples.small_piece Samples.plain_peer) [Tick None]).1.2
           1%nat 1%nat (mkBlock (mkPieceBlock 1 2 1) false None) None).
  - reflexivity.
  - unfold maxQueuedBlocks. lia.
  - reflexivity.
  - reflexivity.
  - intros [|j] b' Hj Hb; [|lia]. vm_compute in Hb. by injection Hb as <-.
Defined.

(** *** Counting outstanding blocks *)

Lemma outstanding_insert bs i (b b' : block) :
  bs !! i = Some b →
  (length (filter (fun b => is_outstanding b = true) (<[i := b']> bs))
   + (if is_outstanding b then 1 else 0)
   = length (filter (fun b => is_outstanding b = true) bs)
     + (if is_outstanding b' then 1 else 0))%nat.
Proof.
  revert i. induction bs as [|a bs IH]; intros [|i] H; simplify_eq/=.
  - rewrite !filter_cons.
    destruct (decide (is_outstanding b' = true)) as [->|Hb'%not_true_is_false];
      destruct (decide (is_outstanding b = true)) as [->|Hb%not_true_is_false];
      rewrite ?Hb, ?Hb'; simpl; lia.
  - rewrite !filter_cons. specialize (IH i H).
    destruct (decide (is_outstanding a = true)); simpl; lia.
Qed.

Lemma outstanding_pos bs i (b : block) :
  bs !! i = Some b → is_outstanding b = true →
  (1 ≤ length (filter (fun b => is_outstanding b = true) bs))%nat.
Proof.
  intros Hl Hb.
  pose proof (outstanding_insert bs i b (set_requested b false) Hl) as H.
  rewrite Hb in H. simpl in H. lia.
Qed.

Lemma outstanding_New pi pe : outstanding (New pi pe) = 0%nat.
Proof.
  unfold outstanding, New. simpl. induction (Piece_Blocks pi) as [|a l IH]; [done|].
  simpl. rewrite filter_cons. by destruct (decide _).
Qed.

(** One case of the select keeps the token count above the number of
    outstanding blocks, and never blocks on the limiter. *)
Lemma step_pipelined d e :
  pipelined d → (e = UnchokeC → outstanding d = 0%nat) → carries_data e = true →
  match step d e with
  | Continue d' _ => pipelined d' ∧ (e = ChokeC → outstanding d' = 0%nat)
  | Return d' _ => (outstanding d' ≤ maxQueuedBlocks)%nat
  | Deadlock => False
  | _ => True
  end.
Proof.
  intros Hp Hun Hdata. destruct e as [sendErr|p|req| | |]; simpl.
  - (* Tick *)
    unfold pipelined in Hp. destruct (limiter d) as [n|] eqn:Hlim; [|done].
    destruct Hp as [Hout Hcap]. case_bool_decide as Hn; [|done].
    destruct (nextBlock (set_limiter d (Some (S n)))) as [[i d2]|] eqn:Hnb.
    + destruct (PieceDownloaderFacts.nextBlock_Some _ _ _ Hnb) as (b & Hl & Hr & -> & _).
      simpl in Hl. simpl. rewrite list_lookup_insert_eq by (by eapply lookup_lt_Some).
      pose proof (outstanding_insert (blocks d) i b (set_requested b true) Hl) as Hc.
      assert (is_outstanding b = false) as Hb by (unfold is_outstanding; by rewrite Hr).
      rewrite Hb in Hc. unfold outstanding in Hout.
      assert (outstanding
                (set_blocks (set_limiter d (Some (S n)))
                   (<[i := set_requested b true]> (blocks d))) ≤ S n)%nat as Hle.
      { unfold outstanding. simpl. destruct (is_outstanding (set_requested b true)); lia. }
      destruct sendErr.
      * unfold maxQueuedBlocks in *. lia.
      * unfold pipelined. simpl. split; [|done]. split; [done|]. unfold maxQueuedBlocks in *. lia.
    + unfold pipelined. simpl. split; [|done]. unfold outstanding in *. simpl. lia.
  - (* Piece *)
    simpl in Hdata. apply bool_decide_eq_true in Hdata.
    destruct (blocks d !! N.to_nat (p_Block_Index p)) as [b|] eqn:Hl; [|done].
    pose proof (outstanding_insert (blocks d) _ b (set_data b (p_Data p)) Hl) as Hc.
    assert (is_outstanding (set_data b (p_Data p)) = false) as Hb'.
    { unfold is_outstanding. simpl. rewrite bool_decide_eq_false_2 by (by intros ?).
      by rewrite andb_false_r. }
    rewrite Hb' in Hc. unfold pipelined in Hp. unfold outstanding in Hp.
    destruct (requested b && bool_decide (data b = None) && bool_decide (limiter d ≠ None))
      eqn:Htake.
    + apply andb_prop in Htake as [Hob Hlim]. apply bool_decide_eq_true in Hlim.
      assert (is_outstanding b = true) as Hb by done. rewrite Hb in Hc.
      destruct (limiter d) as [[|n]|] eqn:Hld; [| |done].
      * lia.
      * destruct (allDone _).
        -- unfold outstanding. simpl. unfold maxQueuedBlocks in *. lia.
        -- split; [|done]. unfold pipelined, outstanding. simpl.
           unfold maxQueuedBlocks in *. lia.
    + assert (outstanding (set_blocks d (<[N.to_nat (p_Block_Index p) := set_data b (p_Data p)]>
                                           (blocks d)))
              ≤ outstanding d)%nat as Hle.
      { unfold outstanding. simpl. destruct (is_outstanding b); lia. }
      destruct (allDone _).
      * unfold outstanding in *. simpl in *. destruct (limiter d); lia.
      * split; [|done]. unfold pipelined. simpl. unfold outstanding in *. simpl in *.
        destruct (limiter d); lia.
  - (* Reject *)
    destruct (blocks d !! N.to_nat (req_Piece_Index req)) as [b|] eqn:Hl; [|done].
    destruct (requested b) eqn:Hr; simpl.
    + split; [|done].
      pose proof (outstanding_insert (blocks d) _ b (set_requested b false) Hl) as Hc.
      assert (is_outstanding (set_requested b false) = false) as Hb' by done.
      rewrite Hb' in Hc. unfold pipelined, outstanding in *. simpl.
      destruct (limiter d); destruct (is_outstanding b); lia.
    + unfold pipelined, outstanding in *. destruct (limiter d); lia.
  - (* Choke *)
    assert (outstanding (set_limiter (set_blocks d (map choke_block (blocks d))) None) = 0%nat)
      as H0 by apply PieceDownloaderFacts.outstanding_choked.
    split; [|done]. unfold pipelined. simpl. rewrite H0. lia.
  - (* Unchoke *)
    specialize (Hun eq_refl). split; [|done]. unfold pipelined. simpl.
    unfold outstanding in *. simpl. unfold maxQueuedBlocks. lia.
  - (* Stop *)
    unfold pipelined, outstanding in *. destruct (limiter d); lia.
Qed.

Lemma Run_pipelined d c evs s d' out :
  pipelined d → (c = true → outstanding d = 0%nat) →
  unchoke_follows_choke c evs = true → forallb carries_data evs = true →
  Run d evs = (s, d', out) →
  (outstanding d' ≤ maxQueuedBlocks)%nat ∧ s ≠ Deadlocked.
Proof.
  revert d c s d' out.
  induction evs as [|e evs IH]; intros d c s d' out Hp Hc Hsched Hdata H; simpl in H.
  - simplify_eq. split; [|done]. unfold pipelined in Hp. destruct (limiter d'); lia.
  - simpl in Hdata. apply andb_prop in Hdata as [He Hdata].
    assert (e = UnchokeC → outstanding d = 0%nat) as Hun.
    { intros ->. simpl in Hsched. apply andb_prop in Hsched as [Hct _].
      apply Hc. by destruct c. }
    pose proof (step_pipelined d e Hp Hun He) as Hs.
    assert (outstanding d ≤ maxQueuedBlocks)%nat as Hd.
    { unfold pipelined in Hp. destruct (limiter d); lia. }
    destruct (step d e) as [d1 o1|d1 o1| | |] eqn:Hst; simplify_eq; try done.
    destruct (Run d1 evs) as [[s2 d2] o2] eqn:Hr. simplify_eq.
    destruct Hs as [Hp1 Hch].
    eapply (IH d1 (match e with ChokeC => true | _ => false end)); [done| | |done|done].
    + intros He'. apply Hch. by destruct e.
    + destruct e; simpl in Hsched; try done.
      by apply andb_prop in Hsched as [_ ?].
Qed.

(** As long as the peer unchokes only after it has choked, and every
    Piece message carries data, a downloader never has more than ten
    requests outstanding, and never blocks on its limiter. *)
Theorem pipeline_bounded pi pe evs s d out :
  unchoke_follows_choke false evs = true → forallb carries_data evs = true →
  Run (New pi pe) evs = (s, d, out) →
  (outstanding d ≤ maxQueuedBlocks)%nat ∧ s ≠ Deadlocked.
Proof.
  intros Hsched Hdata H.
  eapply (Run_pipelined (New pi pe) false); [|done|done|done|done].
  unfold pipelined. simpl. rewrite outstanding_New. unfold maxQueuedBlocks. lia.
Qed.

Lemma pipeline_bounded_witness :
  (outstanding
     (Run (New (Samples.piece_of 0 11) Samples.plain_peer)
        (replicate 10 (Tick None) ++ [ChokeC; UnchokeC; Tick None])).1.2
   ≤ maxQueuedBlocks)%nat
  ∧ (Run (New (Samples.piece_of 0 11) Samples.plain_peer)
       (replicate 10 (Tick None) ++ [ChokeC; UnchokeC; Tick None])).1.1 ≠ Deadlocked.
Proof.
  apply (pipeline_bounded (Samples.piece_of 0 11) Samples.plain_peer
           (replicate 10 (Tick None) ++ [ChokeC; UnchokeC; Tick None])
           _ _
           (Run (New (Samples.piece_of 0 11) Samples.plain_peer)
              (replicate 10 (Tick None) ++ [ChokeC; UnchokeC; Tick None])).2).
  - reflexivity.
  - reflexivity.
  - vm_compute. reflexivity.
Defined.

(** *** With the limiter switched off *)

Lemma Run_disabled_limiter d evs d' out :
  limiter d = None → UnchokeC ∉ evs → Run d evs = (Running, d', out) →
  limiter d' = None.
Proof.
  revert d d' out. induction evs as [|e evs IH]; intros d d' out Hlim Hno H; simpl in H.
  - by simplify_eq.
  - apply not_elem_of_cons in Hno as [Hne Hno].
    pose proof (PieceDownloaderFacts.step_disabled d e Hlim (not_eq_sym Hne)) as Hs.
    destruct (step d e) as [d1 o1|d1 o1| | |] eqn:Hst; simplify_eq.
    destruct (Run d1 evs) as [[s2 d2] o2] eqn:Hr. simplify_eq.
    destruct Hs as [Hl1 _]. eauto.
Qed.

(** Once every block has been marked requested, the next Tick switches
    the limiter off, and nothing is requested again before an Unchoke:
    not even a block whose request the peer rejects afterwards. *)
Theorem exhausted_stops_requesting d n sendErr evs s d' out :
  limiter d = Some n → (n < maxQueuedBlocks)%nat →
  Forall (fun b => requested b = true) (blocks d) →
  UnchokeC ∉ evs →
  Run d (Tick sendErr :: evs) = (s, d', out) →
  Forall (fun o => is_SendRequest o = false) out
  ∧ (s = Running → limiter d' = None).
Proof.
  intros Hlim Hn Hall Hno H. simpl in H. rewrite Hlim in H.
  rewrite bool_decide_eq_true_2 in H by done.
  unfold nextBlock in H. simpl in H. rewrite (nextBlock_from_all _ _ Hall) in H.
  destruct (Run (set_limiter (set_limiter d (Some (S n))) None) evs) as [[s2 d2] o2] eqn:Hr.
  simplify_eq. simpl. split.
  - eapply (PieceDownloaderFacts.Run_disabled _ evs); [|exact Hno|exact Hr]. done.
  - intros ->. eapply (Run_disabled_limiter _ evs); [|exact Hno|exact Hr]. done.
Qed.

Lemma exhausted_stops_requesting_witness :
  Forall (fun o => is_SendRequest o = false)
    (Run (Run (New Samples.one_block_piece Samples.plain_peer) [Tick None]).1.2
       [Tick None; RejectC (mkRequest 0 0 2)]).2
  ∧ limiter (Run (Run (New Samples.one_block_piece Samples.plain_peer) [Tick None]).1.2
               [Tick None; RejectC (mkRequest 0 0 2)]).1.2 = None
  ∧ is_outstanding
      <$> blocks (Run (Run (New Samples.one_block_piece Samples.plain_peer) [Tick None]).1.2
                    [Tick None; RejectC (mkRequest 0 0 2)]).1.2 !! 0%nat = Some false.
Proof.
  destruct (exhausted_stops_requesting
              (Run (New Samples.one_block_piece Samples.plain_peer) [Tick None]).1.2
              1%nat None [RejectC (mkRequest 0 0 2)] Running
              (Run (Run (New Samples.one_block_piece Samples.plain_peer) [Tick None]).1.2
                 [Tick None; RejectC (mkRequest 0 0 2)]).1.2
              (Run (Run (New Samples.one_block_piece Samples.plain_peer) [Tick None]).1.2
                 [Tick None; RejectC (mkRequest 0 0 2)]).2) as [H1 H2].
  - reflexivity.
  - unfold maxQueuedBlocks. lia.
  - vm_compute. repeat constructor.
  - intros Hin. apply list_elem_of_singleton in Hin. discriminate Hin.
  - vm_compute. reflexivity.
  - split; [exact H1|]. split; [exact (H2 eq_refl)|]. reflexivity.
Defined.

(** *** An Unchoke while requests are in flight *)

(** UnchokeC replaces the limiter by an empty one without looking at the
    blocks. The Piece message that then answers a request still in
    flight finds no token to take, and [Run] blocks for ever. *)
Theorem unchoke_in_flight_blocks_answer d p b evs :
  blocks d !! N.to_nat (p_Block_Index p) = Some b →
  is_outstanding b = true →
  (Run d (UnchokeC :: PieceC p :: evs)).1.1 = Deadlocked.
Proof.
  intros Hl Hb. unfold is_outstanding in Hb.
  cbn [Run step]. cbn [set_limiter blocks limiter]. rewrite Hl.
  rewrite Hb. by rewrite bool_decide_eq_true_2 by done.
Qed.

Lemma unchoke_in_flight_blocks_answer_witness :
  (Run (Run (New Samples.one_block_piece Samples.plain_peer) [Tick None]).1.2
     [UnchokeC; PieceC (mkPieceMsg 0 (Some [Byte.x00; Byte.x00]))]).1.1 = Deadlocked.
Proof.
  apply (unchoke_in_flight_blocks_answer
           (Run (New Samples.one_block_piece Samples.plain_peer) [Tick None]).1.2
           (mkPieceMsg 0 (Some [Byte.x00; Byte.x00]))
           (mkBlock (mkPieceBlock 0 0 2) true None) []).
  - reflexivity.
  - reflexivity.
Defined.

(** *** Rejected requests *)

Lemma insert_requested_back (bs : list block) (i : nat) (b : block) :
  bs !! i = Some b → requested b = false →
  <[i := set_requested (set_requested b true) false]> (<[i := set_requested b true]> bs) = bs.
Proof.
  intros Hl Hr. rewrite list_insert_insert_eq.
  apply list_insert_id. rewrite Hl. f_equal. destruct b. simpl in Hr. by subst.
Qed.

Lemma rejected_rounds_run k d n b req :
  limiter d = Some n → (n + k ≤ maxQueuedBlocks)%nat →
  blocks d !! N.to_nat (req_Piece_Index req) = Some b → requested b = false →
  (∀ j b', (j < N.to_nat (req_Piece_Index req))%nat → blocks d !! j = Some b' →
           requested b' = true) →
  Run d (rejected_rounds k req)
  = (Running, set_limiter d (Some (n + k)%nat), replicate k (request_for d b)).
Proof.
  revert d n. induction k as [|k IH]; intros d n Hlim Hcap Hl Hr Hlow.
  - simpl. rewrite Nat.add_0_r. destruct d. simpl in Hlim. by subst.
  - cbn [rejected_rounds Run].
    rewrite (Tick_step d n (N.to_nat (req_Piece_Index req)) b Hlim ltac:(lia) Hl Hr Hlow).
    cbn [step req_Piece_Index blocks].
    rewrite list_lookup_insert_eq by (by eapply lookup_lt_Some).
    cbn [requested set_requested negb].
    rewrite (insert_requested_back _ _ _ Hl Hr).
    rewrite (IH (set_blocks (mkPD (pd_Piece d) (pd_Peer d)
                   (<[N.to_nat (req_Piece_Index req) := set_requested b true]> (blocks d))
                   (Some (S n)))
                   (blocks d)) (S n)); [| done | lia | done | done | done].
    simpl. unfold set_limiter, request_for. simpl. repeat f_equal. lia.
Qed.

(** A Reject clears a flag but leaves the request's token in the
    limiter. For a piece of index 0, where the entry [Run] looks up is
    the first block: after [k] requests for the first block have been
    rejected the limiter holds [k] tokens with no block outstanding,
    and after ten the Tick case can no longer be selected. *)
Theorem rejects_use_up_the_limiter pi pe k b :
  (k ≤ maxQueuedBlocks)%nat → Piece_Index pi = 0 → Piece_Blocks pi !! 0%nat = Some b →
  ∃ d, Run (New pi pe)
         (rejected_rounds k (mkRequest (Piece_Index pi) (Block_Begin b) (Block_Length b)))
       = (Running, d,
          replicate k (SendRequest (Piece_Index pi) (Block_Begin b) (Block_Length b)))
       ∧ limiter d = Some k ∧ blocks d = blocks (New pi pe) ∧ outstanding d = 0%nat
       ∧ (k = maxQueuedBlocks → ∀ sendErr, step d (Tick sendErr) = NotReady).
Proof.
  intros Hk Hidx Hb.
  assert (blocks (New pi pe) !! N.to_nat 0 = Some (mkBlock b false None)) as Hl.
  { change (N.to_nat 0) with 0%nat. unfold New. cbn [blocks].
    by rewrite list_lookup_fmap, Hb. }
  eexists. split.
  - rewrite (rejected_rounds_run k (New pi pe) 0%nat (mkBlock b false None));
      [reflexivity | done | simpl; lia | cbn [req_Piece_Index]; by rewrite Hidx | done | ].
    cbn [req_Piece_Index]. rewrite Hidx. intros j b' Hj. simpl in Hj. lia.
  - simpl. split_and!; [done | done | apply (outstanding_New pi pe) |].
    intros -> sendErr. reflexivity.
Qed.

Lemma rejects_use_up_the_limiter_witness :
  ∃ d, Run (New Samples.one_block_piece Samples.plain_peer)
         (rejected_rounds 10 (mkRequest 0 0 2))
       = (Running, d, replicate 10 (SendRequest 0 0 2))
       ∧ limiter d = Some 10%nat
       ∧ blocks d = blocks (New Samples.one_block_piece Samples.plain_peer)
       ∧ outstanding d = 0%nat
       ∧ (10%nat = maxQueuedBlocks → ∀ sendErr, step d (Tick sendErr) = NotReady).
Proof.
  apply (rejects_use_up_the_limiter Samples.one_block_piece Samples.plain_peer 10
           (mkPieceBlock 0 0 2)).
  - unfold maxQueuedBlocks. lia.
  - reflexivity.
  - reflexivity.
Defined.

End PipelineFacts.

(* ===================================================================== *)
(** ** Metadata downloader: blocks, bounds and reassembly                 *)
(* ===================================================================== *)

Module MetadataFacts.

Import InfoDownloader InfoDownloaderRuns.

Lemma insert_replicate_last {A} (x y : A) n :
  <[n := y]> (replicate (S n) x) = replicate n x ++ [y].
Proof. induction n as [|n IH]; [done|]. simpl in *. by rewrite IH. Qed.

Lemma blockSize_pos : 0 < blockSize.
Proof. unfold blockSize. lia. Qed.

(** Arithmetic of quotient [q] and remainder [r] of a size [m]. *)
Lemma full_block_bounds (bs q r m i : N) :
  0 < bs → m = bs * q + r → r < bs → i + 1 <= q →
  i * bs < m ∧ bs = N.min bs (m - i * bs).
Proof. intros. assert (i * bs + bs <= bs * q) by nia. split; lia. Qed.

Lemma last_block_bounds (bs q r m : N) :
  0 < bs → m = bs * q + r → r < bs → r ≠ 0 →
  q * bs < m ∧ r = N.min bs (m - q * bs).
Proof. intros. split; lia. Qed.

Lemma block_index_bound (bs q r m i : N) :
  0 < bs → m = bs * q + r → r < bs → i * bs < m → i < q + (if decide (r = 0) then 0 else 1).
Proof. intros. destruct (decide (r = 0)); nia. Qed.

(** The block table: full blocks, then the remainder if there is one. *)
Lemma createBlocks_shape m :
  m < 2 ^ 32 →
  createBlocks m
  = replicate (N.to_nat (m / blockSize)) (mkBlock blockSize)
    ++ (if decide (m mod blockSize = 0) then [] else [mkBlock (m mod blockSize)]).
Proof.
  intros Hm. unfold createBlocks.
  assert (m / blockSize <= m) as Hq.
  { apply N.Div0.div_le_upper_bound. unfold blockSize. lia. }
  destruct (decide (m mod blockSize = 0)) as [H0|H0].
  - rewrite (bool_decide_eq_false_2 (m mod blockSize ≠ 0)) by (intros ?; done).
    simpl. by rewrite app_nil_r.
  - rewrite (bool_decide_eq_true_2 (m mod blockSize ≠ 0)) by done.
    assert (m / blockSize < m) as Hlt.
    { apply N.div_lt; [|unfold blockSize; lia].
      destruct (decide (m = 0)) as [->|]; [|lia]. by rewrite N.Div0.mod_0_l in H0. }
    rewrite InfoDownloaderFacts.wrap32_small by lia.
    generalize (m / blockSize). intros q.
    rewrite N2Nat.inj_add. change (N.to_nat 1) with 1%nat. rewrite Nat.add_1_r.
    rewrite length_replicate. rewrite bool_decide_eq_true_2 by lia. simpl andb.
    cbv iota. rewrite Nat.sub_succ, Nat.sub_0_r.
    apply insert_replicate_last.
Qed.

Lemma sumN_replicate {A} (f : A → N) n x :
  PieceDownloader.sumN (map f (replicate n x)) = N.of_nat n * f x.
Proof.
  induction n as [|n IH]; [done|].
  simpl replicate. simpl map. simpl PieceDownloader.sumN. rewrite IH. lia.
Qed.

(** The size of block [i] is what remains of the metadata from offset
    [i * blockSize] on, capped at [blockSize]. *)
Lemma createBlocks_lookup m i b :
  m < 2 ^ 32 → createBlocks m !! i = Some b →
  N.of_nat i * blockSize < m ∧ size b = N.min blockSize (m - N.of_nat i * blockSize).
Proof.
  intros Hm. rewrite (createBlocks_shape m Hm).
  pose proof (N.Div0.div_mod m blockSize) as Hdm.
  pose proof (N.mod_lt m blockSize ltac:(unfold blockSize; lia)) as Hmod.
  pose proof blockSize_pos as Hbs.
  intros Hl. apply lookup_app_Some in Hl as [Hl|[Hlen Hl]].
  - apply lookup_replicate in Hl as [-> Hi]. simpl.
    apply (full_block_bounds _ (m / blockSize) (m mod blockSize)); [done..|]. lia.
  - rewrite length_replicate in Hlen, Hl.
    destruct (decide (m mod blockSize = 0)) as [H0|H0]; [done|].
    apply list_lookup_singleton_Some in Hl as [Hi <-]. simpl.
    assert (N.of_nat i = m / blockSize) as -> by lia.
    by apply last_block_bounds.
Qed.

Lemma createBlocks_lookup_is_Some m i :
  m < 2 ^ 32 → N.of_nat i * blockSize < m → is_Some (createBlocks m !! i).
Proof.
  intros Hm Hi. apply lookup_lt_is_Some. rewrite (createBlocks_shape m Hm).
  pose proof (N.Div0.div_mod m blockSize) as Hdm.
  pose proof (N.mod_lt m blockSize ltac:(unfold blockSize; lia)) as Hmod.
  rewrite length_app, length_replicate.
  pose proof (block_index_bound _ _ _ _ _ blockSize_pos Hdm Hmod Hi) as Hb.
  destruct (decide (m mod blockSize = 0)) as [H0|H0]; simpl; lia.
Qed.

(** The blocks [createBlocks] lays out cover the metadata exactly: no
    block is empty or larger than [blockSize], only the last one may be
    short, and the sizes add up to the advertised metadata size. *)
Theorem createBlocks_covers m :
  m < 2 ^ 32 →
  PieceDownloader.sumN (map size (createBlocks m)) = m
  ∧ Forall (fun b => 0 < size b ∧ size b <= blockSize) (createBlocks m)
  ∧ (∀ i b, createBlocks m !! i = Some b → (S i < length (createBlocks m))%nat →
            size b = blockSize)
  ∧ N.of_nat (length (createBlocks m)) = (m + blockSize - 1) / blockSize.
Proof.
  intros Hm.
  pose proof (N.Div0.div_mod m blockSize) as Hdm.
  pose proof (N.mod_lt m blockSize ltac:(unfold blockSize; lia)) as Hmod.
  pose proof blockSize_pos as Hbs.
  split_and!.
  - rewrite (createBlocks_shape m Hm), map_app, PieceDownloaderFacts.sumN_app.
    rewrite sumN_replicate, N2Nat.id. simpl size.
    destruct (decide (m mod blockSize = 0)) as [H0|H0]; simpl; lia.
  - apply Forall_forall. intros b Hin. apply list_elem_of_lookup in Hin as [i Hi].
    destruct (createBlocks_lookup m i b Hm Hi) as [Hlt ->]. lia.
  - intros i b Hi Hnext.
    apply lookup_lt_is_Some in Hnext as [b' Hb'].
    destruct (createBlocks_lookup m i b Hm Hi) as [_ ->].
    destruct (createBlocks_lookup m (S i) b' Hm Hb') as [Hlt _]. lia.
  - rewrite (createBlocks_shape m Hm), length_app, length_replicate.
    rewrite Nat2N.inj_add, N2Nat.id. revert Hdm Hmod.
    generalize (m / blockSize) (m mod blockSize). intros q r Hdm Hmod.
    destruct (decide (r = 0)) as [H0|H0]; simpl.
    + apply (N.div_unique _ _ _ (blockSize - 1)); lia.
    + apply (N.div_unique _ _ _ (r - 1)); lia.
Qed.

Lemma createBlocks_covers_witness :
  PieceDownloader.sumN (map size (createBlocks 40000)) = 40000
  ∧ Forall (fun b => 0 < size b ∧ size b <= blockSize) (createBlocks 40000)
  ∧ (∀ i b, createBlocks 40000 !! i = Some b → (S i < length (createBlocks 40000))%nat →
            size b = blockSize)
  ∧ N.of_nat (length (createBlocks 40000)) = (40000 + blockSize - 1) / blockSize.
Proof. apply (createBlocks_covers 40000). reflexivity. Defined.

(** *** [GotBlock] *)

(** A requested index has a block, whose bytes lie inside the buffer. *)
Lemma requested_block d i :
  wf d → sized d → i ∈ requested d →
  ∃ b, blocks d !! N.to_nat i = Some b
       ∧ i * blockSize < MetadataSize d
       ∧ size b = N.min blockSize (MetadataSize d - i * blockSize).
Proof.
  intros (Hlen & Hnext & Hreq) (Hm & Hbl & HB) Hi.
  apply Hreq in Hi.
  destruct (lookup_lt_is_Some_2 (blocks d) (N.to_nat i)) as [b Hb]; [lia|].
  exists b. split; [done|]. rewrite Hbl in Hb.
  destruct (createBlocks_lookup _ _ _ Hm Hb) as [H1 H2].
  rewrite N2Nat.id in H1, H2. done.
Qed.

(** What [GotBlock] returns for a requested index and data of the
    block's size. *)
Lemma GotBlock_eq d i data :
  wf d → sized d → i ∈ requested d →
  wrap32 (N.of_nat (length data)) = N.min blockSize (MetadataSize d - i * blockSize) →
  GotBlock d i data
  = inr (mkID (MetadataSize d) (M_ut_metadata d) (peer_sent d)
           (take (N.to_nat (i * blockSize)) (Bytes d)
            ++ take (N.to_nat (N.min blockSize (MetadataSize d - i * blockSize))) data
            ++ drop (N.to_nat (i * blockSize)
                     + N.to_nat (N.min blockSize (MetadataSize d - i * blockSize))) (Bytes d))
           (blocks d) (requested d ∖ {[i]}) (nextBlockIndex d)).
Proof.
  intros Hwf Hsz Hi Hdata.
  destruct (requested_block d i Hwf Hsz Hi) as (b & Hb & Hlt & Hsize).
  destruct Hsz as (Hm & Hbl & HB).
  unfold GotBlock. rewrite bool_decide_eq_false_2 by (intros Hn; by apply Hn).
  rewrite Hb. rewrite bool_decide_eq_false_2 by (intros Hn; apply Hn; congruence).
  rewrite (InfoDownloaderFacts.wrap32_small (i * blockSize)) by lia.
  rewrite (InfoDownloaderFacts.wrap32_small (i * blockSize + size b)) by lia.
  rewrite bool_decide_eq_true_2 by lia.
  replace (i * blockSize + size b - i * blockSize) with (size b) by lia.
  by rewrite Hsize.
Qed.

(** On a downloader built by [New], [GotBlock] never indexes past the
    block table and never slices past the buffer, whatever index and
    data the peer sends: it stores the block or returns one of its two
    errors. *)
Theorem GotBlock_never_panics d i data :
  wf d → sized d →
  ¬ panics (GotBlock d i data)
  ∧ ((∃ d', GotBlock d i data = inr d')
     ∨ GotBlock d i data = inl "peer sent unrequested index for metadata message"
     ∨ GotBlock d i data = inl "peer sent invalid size for metadata message").
Proof.
  intros Hwf Hsz.
  assert ((∃ d', GotBlock d i data = inr d')
     ∨ GotBlock d i data = inl "peer sent unrequested index for metadata message"
     ∨ GotBlock d i data = inl "peer sent invalid size for metadata message") as H.
  { destruct (decide (i ∈ requested d)) as [Hi|Hi].
    - destruct (requested_block d i Hwf Hsz Hi) as (b & Hb & Hlt & Hsize).
      destruct (decide (wrap32 (N.of_nat (length data)) = size b)) as [Hd|Hd].
      + left. eexists. apply GotBlock_eq; [done..|]. congruence.
      + right. right. unfold GotBlock.
        rewrite bool_decide_eq_false_2 by (intros Hn; by apply Hn).
        rewrite Hb. by rewrite bool_decide_eq_true_2.
    - right. left. unfold GotBlock. by rewrite bool_decide_eq_true_2. }
  split; [|done].
  unfold panics. destruct H as [[d' ->]|[-> | ->]]; intros [?|?]; discriminate.
Qed.

Lemma GotBlock_never_panics_witness :
  ¬ panics (GotBlock three_blocks_one_in_flight 7 [Byte.x00])
  ∧ ((∃ d', GotBlock three_blocks_one_in_flight 7 [Byte.x00] = inr d')
     ∨ GotBlock three_blocks_one_in_flight 7 [Byte.x00]
       = inl "peer sent unrequested index for metadata message"
     ∨ GotBlock three_blocks_one_in_flight 7 [Byte.x00]
       = inl "peer sent invalid size for metadata message").
Proof.
  apply (GotBlock_never_panics three_blocks_one_in_flight 7 [Byte.x00]).
  - apply InfoDownloaderFacts.RequestBlocks_wf, InfoDownloaderFacts.New_wf. reflexivity.
  - split_and!; reflexivity.
Defined.

Lemma sized_GotBlock d i data d' : sized d → wf d → GotBlock d i data = inr d' → sized d'.
Proof.
  intros Hsz Hwf H.
  assert (i ∈ requested d) as Hi.
  { destruct (decide (i ∈ requested d)) as [Hi|Hi]; [done|].
    unfold GotBlock in H. by rewrite bool_decide_eq_true_2 in H. }
  destruct (requested_block d i Hwf Hsz Hi) as (b & Hb & Hlt & Hsize).
  assert (wrap32 (N.of_nat (length data)) = size b) as Hd.
  { unfold GotBlock in H. rewrite bool_decide_eq_false_2 in H by (intros Hn; by apply Hn).
    rewrite Hb in H.
    destruct (decide (wrap32 (N.of_nat (length data)) = size b)) as [Hd|Hd]; [done|].
    by rewrite bool_decide_eq_true_2 in H. }
  rewrite GotBlock_eq in H by (done || congruence). simplify_eq.
  destruct Hsz as (Hm & Hbl & HB). unfold sized. simpl. split_and!; [done..|].
  assert (N.min blockSize (MetadataSize d - i * blockSize)
          <= N.of_nat (length data)) as Hle.
  { rewrite <- Hsize, <- Hd. unfold wrap32. apply N.Div0.mod_le. }
  rewrite !length_app, length_take, length_take, length_drop. lia.
Qed.

Lemma GotBlock_effect d i data :
  wf d → sized d → i ∈ requested d →
  N.of_nat (length data) = N.min blockSize (MetadataSize d - i * blockSize) →
  ∃ d', GotBlock d i data = inr d'
        ∧ length (Bytes d') = length (Bytes d)
        ∧ (∀ j, (j < length data)%nat →
                Bytes d' !! (N.to_nat (i * blockSize) + j)%nat = data !! j)
        ∧ (∀ j, (j < N.to_nat (i * blockSize))%nat
                ∨ (N.to_nat (i * blockSize) + length data ≤ j)%nat →
                Bytes d' !! j = Bytes d !! j)
        ∧ requested d' = requested d ∖ {[i]}
        ∧ nextBlockIndex d' = nextBlockIndex d
        ∧ MetadataSize d' = MetadataSize d.
Proof.
  intros Hwf Hsz Hi Hdata.
  destruct (requested_block d i Hwf Hsz Hi) as (b & Hb & Hlt & Hsize).
  pose proof Hsz as (Hm & Hbl & HB).
  assert (wrap32 (N.of_nat (length data))
          = N.min blockSize (MetadataSize d - i * blockSize)) as Hw.
  { rewrite InfoDownloaderFacts.wrap32_small; [done|]. unfold blockSize in *. lia. }
  eexists. split; [by apply GotBlock_eq|]. simpl.
  rewrite <- Hdata, Nat2N.id, firstn_all.
  assert (N.to_nat (i * blockSize) + length data ≤ length (Bytes d))%nat as Hfit by lia.
  split_and!.
  - rewrite !length_app, length_take, length_drop. lia.
  - intros j Hj. rewrite lookup_app_r by (rewrite length_take; lia).
    rewrite length_take. rewrite lookup_app_l by lia. f_equal. lia.
  - intros j [Hj|Hj].
    + rewrite lookup_app_l by (rewrite length_take; lia). by rewrite lookup_take_lt.
    + rewrite lookup_app_r by (rewrite length_take; lia).
      rewrite length_take. rewrite lookup_app_r by lia.
      rewrite lookup_drop. f_equal. lia.
  - done.
  - done.
  - done.
Qed.

(** A block of the right size sent for an index in flight is copied to
    offset [index * blockSize] of the buffer, the rest of the buffer
    and its length stay as they were, and the index is no longer in
    flight, so that a second block for it is refused. *)
Theorem GotBlock_stores d i data :
  wf d → sized d → i ∈ requested d →
  N.of_nat (length data) = N.min blockSize (MetadataSize d - i * blockSize) →
  ∃ d', GotBlock d i data = inr d'
        ∧ length (Bytes d') = length (Bytes d)
        ∧ (∀ j, (j < length data)%nat →
                Bytes d' !! (N.to_nat (i * blockSize) + j)%nat = data !! j)
        ∧ (∀ j, (j < N.to_nat (i * blockSize))%nat
                ∨ (N.to_nat (i * blockSize) + length data ≤ j)%nat →
                Bytes d' !! j = Bytes d !! j)
        ∧ requested d' = requested d ∖ {[i]}
        ∧ nextBlockIndex d' = nextBlockIndex d
        ∧ ∀ data', GotBlock d' i data'
                   = inl "peer sent unrequested index for metadata message".
Proof.
  intros Hwf Hsz Hi Hdata.
  destruct (GotBlock_effect d i data Hwf Hsz Hi Hdata)
    as (d' & Hg & Hlen & Hin & Hout & Hreq & Hnext & _).
  exists d'. split_and!; try done.
  intros data'. unfold GotBlock. rewrite bool_decide_eq_true_2; [done|].
  rewrite Hreq, elem_of_difference, elem_of_singleton. by intros [_ ?].
Qed.

Lemma GotBlock_stores_witness :
  ∃ d', GotBlock (RequestBlocks (New 3 1) 1) 0 [Byte.x61; Byte.x62; Byte.x63] = inr d'
        ∧ Bytes d' = [Byte.x61; Byte.x62; Byte.x63]
        ∧ requested d' = ∅.
Proof.
  destruct (GotBlock_stores (RequestBlocks (New 3 1) 1) 0 [Byte.x61; Byte.x62; Byte.x63])
    as (d' & Hg & _ & _ & _ & Hr & _).
  - apply InfoDownloaderFacts.RequestBlocks_wf, InfoDownloaderFacts.New_wf. reflexivity.
  - split_and!; reflexivity.
  - refine (bool_decide_unpack _ _). vm_compute. exact I.
  - reflexivity.
  - exists d'. split; [exact Hg|].
    assert (GotBlock (RequestBlocks (New 3 1) 1) 0 [Byte.x61; Byte.x62; Byte.x63]
            = inr (mkID 3 1 [mkExtensionMessage 1 0] [Byte.x61; Byte.x62; Byte.x63]
                     [mkBlock 3] (({[0]} ∪ ∅) ∖ {[0]}) 1)) as Heq by reflexivity.
    rewrite Heq in Hg. injection Hg as <-. split; [reflexivity|].
    refine (bool_decide_unpack _ _). vm_compute. exact I.
Defined.

(** *** [RequestBlocks] and [Done] *)

Lemma loop_stops fuel d k :
  RequestBlocks_cond d k = false → RequestBlocks_loop fuel d k = d.
Proof. intros H. destruct fuel; simpl; [done | by rewrite H]. Qed.

Lemma cond_mono d k k' :
  (k' ≤ k)%Z → RequestBlocks_cond d k = false → RequestBlocks_cond d k' = false.
Proof.
  intros Hk H. unfold RequestBlocks_cond in *.
  apply andb_false_iff in H as [H|H]; apply bool_decide_eq_false in H.
  - by rewrite bool_decide_eq_false_2.
  - rewrite (bool_decide_eq_false_2 (_ < k')%Z) by lia. by rewrite andb_false_r.
Qed.

(** [RequestBlocks] fills the queue: calling it again with the same or
    a smaller queue length sends nothing and changes nothing, and so
    does any call whose queue length the requests in flight already
    reach. *)
Theorem RequestBlocks_fills_queue d k k' :
  wf d → (k' ≤ k)%Z →
  RequestBlocks (RequestBlocks d k) k' = RequestBlocks d k
  ∧ ((k' ≤ Z.of_nat (base.size (requested d)))%Z → RequestBlocks d k' = d).
Proof.
  intros Hwf Hk. split.
  - destruct (InfoDownloaderFacts.loop_spec (length (blocks d)) d k Hwf)
      as (_ & _ & _ & _ & Hc & _); [lia|].
    unfold RequestBlocks at 1. apply loop_stops. by eapply cond_mono.
  - intros Hfull. apply loop_stops. unfold RequestBlocks_cond.
    rewrite (bool_decide_eq_false_2 (_ < k')%Z) by lia. by rewrite andb_false_r.
Qed.

Lemma RequestBlocks_fills_queue_witness :
  RequestBlocks (RequestBlocks (New 40000 3) 2) 1 = RequestBlocks (New 40000 3) 2
  ∧ ((1 ≤ Z.of_nat (base.size (requested (New 40000 3))))%Z
     → RequestBlocks (New 40000 3) 1 = New 40000 3).
Proof.
  apply (RequestBlocks_fills_queue (New 40000 3) 2 1).
  - apply InfoDownloaderFacts.New_wf. reflexivity.
  - lia.
Defined.

(** A downloader with nothing in flight is either done, and then
    [RequestBlocks] does nothing, or a call with a positive queue
    length puts the request for the block at the cursor in flight. *)
Theorem idle_is_done_or_requests d k :
  wf d → requested d = ∅ → (0 < k)%Z →
  (Done d = true ∧ RequestBlocks d k = d)
  ∨ (Done d = false
     ∧ nextBlockIndex d ∈ requested (RequestBlocks d k)
     ∧ ∃ rest, peer_sent (RequestBlocks d k)
               = peer_sent d
                 ++ mkExtensionMessage (M_ut_metadata d) (nextBlockIndex d) :: rest).
Proof.
  intros Hwf Hidle Hk. pose proof Hwf as (Hlen & Hnext & _).
  destruct (decide (nextBlockIndex d = N.of_nat (length (blocks d)))) as [Heq|Hne].
  - left. split.
    + unfold Done. rewrite InfoDownloaderFacts.wrap32_small by done.
      rewrite bool_decide_eq_true_2 by done.
      rewrite Hidle, size_empty. done.
    + apply loop_stops. unfold RequestBlocks_cond.
      rewrite InfoDownloaderFacts.wrap32_small by done.
      by rewrite (bool_decide_eq_false_2 (_ < _)) by lia.
  - right. split.
    + unfold Done. rewrite InfoDownloaderFacts.wrap32_small by done.
      by rewrite (bool_decide_eq_false_2 (_ = _)) by done.
    + destruct (InfoDownloaderFacts.loop_spec (length (blocks d)) d k Hwf)
        as (_ & Hs & Hr & _); [lia|].
      fold (RequestBlocks d k) in Hs, Hr.
      assert (∃ n, issue_count d k = S n) as [n Hn].
      { unfold issue_count. rewrite Hidle, size_empty.
        exists (Nat.pred (Nat.min (length (blocks d) - N.to_nat (nextBlockIndex d))
                    (Z.to_nat (k - Z.of_nat 0)))). lia. }
      rewrite Hn in Hs, Hr. simpl in Hs, Hr. split.
      * rewrite Hr. rewrite !elem_of_union, elem_of_singleton. by left; left.
      * eexists. exact Hs.
Qed.

Lemma idle_is_done_or_requests_witness :
  (Done one_block = true ∧ RequestBlocks one_block 1 = one_block)
  ∨ (Done one_block = false
     ∧ nextBlockIndex one_block ∈ requested (RequestBlocks one_block 1)
     ∧ ∃ rest, peer_sent (RequestBlocks one_block 1)
               = peer_sent one_block
                 ++ mkExtensionMessage (M_ut_metadata one_block) (nextBlockIndex one_block)
                    :: rest).
Proof.
  apply (idle_is_done_or_requests one_block 1).
  - apply InfoDownloaderFacts.New_wf. reflexivity.
  - reflexivity.
  - lia.
Defined.

(** *** A whole download *)

Lemma loop_frame fuel d k :
  MetadataSize (RequestBlocks_loop fuel d k) = MetadataSize d
  ∧ Bytes (RequestBlocks_loop fuel d k) = Bytes d
  ∧ blocks (RequestBlocks_loop fuel d k) = blocks d.
Proof.
  revert d. induction fuel as [|fuel IH]; intros d; simpl; [done|].
  destruct (RequestBlocks_cond d k); [|done].
  destruct (IH (RequestBlocks_body d)) as (-> & -> & ->). done.
Qed.

Lemma sized_RequestBlocks d k : sized d → sized (RequestBlocks d k).
Proof.
  intros (Hm & Hbl & HB). unfold sized, RequestBlocks.
  destruct (loop_frame (length (blocks d)) d k) as (-> & -> & ->). done.
Qed.

Lemma length_chunk blob i :
  N.of_nat (length (chunk blob i))
  = N.min blockSize (N.of_nat (length blob) - i * blockSize).
Proof. unfold chunk. rewrite length_take, length_drop. lia. Qed.

Lemma lookup_chunk blob i j :
  (j < N.to_nat blockSize)%nat →
  chunk blob i !! j = blob !! (N.to_nat (i * blockSize) + j)%nat.
Proof. intros Hj. unfold chunk. rewrite lookup_take_lt by done. by rewrite lookup_drop. Qed.

(** The index of the block a byte offset falls into. *)
Lemma offset_block (j : nat) (i : N) :
  N.of_nat j / blockSize = i
  ↔ (N.to_nat (i * blockSize) ≤ j < N.to_nat (i * blockSize) + N.to_nat blockSize)%nat.
Proof.
  pose proof blockSize_pos as Hbs.
  pose proof (N.Div0.div_mod (N.of_nat j) blockSize) as Hdm.
  pose proof (N.mod_lt (N.of_nat j) blockSize ltac:(lia)) as Hmod.
  split.
  - intros <-. revert Hdm Hmod. generalize (N.of_nat j / blockSize) (N.of_nat j mod blockSize).
    intros q r Hdm Hmod. nia.
  - intros [H1 H2]. symmetry.
    apply (N.div_unique _ _ _ (N.of_nat j - i * blockSize)); lia.
Qed.

Lemma deliver_spec blob order :
  ∀ d, wf d → sized d → N.of_nat (length blob) = MetadataSize d →
       NoDup order → requested d = list_to_set order →
  ∃ d', deliver d order blob = inr d'
        ∧ requested d' = ∅ ∧ nextBlockIndex d' = nextBlockIndex d
        ∧ blocks d' = blocks d
        ∧ length (Bytes d') = length (Bytes d)
        ∧ ∀ j, Bytes d' !! j
               = if bool_decide (N.of_nat j / blockSize ∈ order) then blob !! j
                 else Bytes d !! j.
Proof.
  induction order as [|i rest IH]; intros d Hwf Hsz Hblob Hnd Hreq.
  - exists d. simpl. split_and!; try done.
  - apply NoDup_cons in Hnd as [Hi Hnd].
    assert (i ∈ requested d) as Hin.
    { rewrite Hreq, list_to_set_cons, elem_of_union, elem_of_singleton. by left. }
    assert (N.of_nat (length (chunk blob i))
            = N.min blockSize (MetadataSize d - i * blockSize)) as Hlen.
    { by rewrite length_chunk, Hblob. }
    destruct (GotBlock_effect d i (chunk blob i) Hwf Hsz Hin Hlen)
      as (d1 & Hg & Hl1 & Hin1 & Hout1 & Hreq1 & Hnext1 & Hm1).
    pose proof (InfoDownloaderFacts.GotBlock_wf _ _ _ _ Hwf Hg) as Hwf1.
    pose proof (sized_GotBlock _ _ _ _ Hsz Hwf Hg) as Hsz1.
    assert (blocks d1 = blocks d) as Hb1.
    { destruct Hsz as (_ & -> & _). destruct Hsz1 as (_ & -> & _). by rewrite Hm1. }
    destruct (IH d1 Hwf1 Hsz1) as (d' & Hd & Hr' & Hn' & Hb' & Hl' & HB'); [congruence|done| |].
    { rewrite Hreq1, Hreq, list_to_set_cons.
      apply set_eq. intros x.
      rewrite elem_of_difference, elem_of_union, elem_of_singleton, elem_of_list_to_set.
      split; [intros [[?|?] ?]; done|]. intros Hx. split; [by right|]. by intros ->. }
    exists d'. simpl. rewrite Hg. split_and!; try congruence.
    intros j. rewrite HB'.
    destruct (decide (N.of_nat j / blockSize ∈ rest)) as [Hjr|Hjr].
    + rewrite bool_decide_eq_true_2 by done.
      by rewrite bool_decide_eq_true_2 by (apply elem_of_cons; by right).
    + rewrite (bool_decide_eq_false_2 _ Hjr).
      destruct (decide (N.of_nat j / blockSize = i)) as [Hji|Hji].
      * rewrite bool_decide_eq_true_2 by (apply elem_of_cons; by left).
        apply offset_block in Hji as [Hlo Hhi].
        destruct (decide (j - N.to_nat (i * blockSize) < length (chunk blob i))%nat)
          as [Hshort|Hlong].
        -- specialize (Hin1 _ Hshort).
           replace (N.to_nat (i * blockSize) + (j - N.to_nat (i * blockSize)))%nat
             with j in Hin1 by lia.
           rewrite Hin1, lookup_chunk by lia. f_equal. lia.
        -- rewrite Hout1 by lia.
           destruct Hsz as (_ & _ & HB).
           rewrite !lookup_ge_None_2; [done | | ]; lia.
      * rewrite bool_decide_eq_false_2
          by (rewrite elem_of_cons; intros [?|?]; done).
        apply Hout1. rewrite offset_block in Hji.
        assert (length (chunk blob i) ≤ N.to_nat blockSize)%nat by lia. lia.
Qed.

Lemma NoDup_iota a n : NoDup (iota a n).
Proof.
  revert a. induction n as [|n IH]; intros a; simpl; constructor; [|apply IH].
  rewrite InfoDownloaderFacts.iota_elem. lia.
Qed.

(** Requesting every block of a metadata blob and receiving the
    answers, in whatever order the peer sends them, leaves exactly the
    blob in the buffer and the downloader done. *)
Theorem download_reassembles_metadata m ut k order blob :
  m < 2 ^ 32 → N.of_nat (length blob) = m →
  (Z.of_nat (length (createBlocks m)) ≤ k)%Z →
  order ≡ₚ iota 0 (length (createBlocks m)) →
  ∃ d', deliver (RequestBlocks (New m ut) k) order blob = inr d'
        ∧ Bytes d' = blob ∧ Done d' = true.
Proof.
  intros Hm Hblob Hk Hperm.
  pose proof (InfoDownloaderFacts.New_wf m ut Hm) as Hwf0.
  assert (sized (New m ut)) as Hsz0.
  { unfold sized, New. simpl. split_and!; [done..|]. by rewrite length_replicate, N2Nat.id. }
  destruct (InfoDownloaderFacts.loop_spec (length (blocks (New m ut))) (New m ut) k Hwf0)
    as (Hb & _ & Hr & Hn & _ & Hwf); [lia|].
  fold (RequestBlocks (New m ut) k) in Hb, Hr, Hn, Hwf.
  assert (issue_count (New m ut) k = length (createBlocks m)) as Hcount.
  { unfold issue_count.
    change (requested (New m ut)) with (∅ : gset N).
    change (nextBlockIndex (New m ut)) with 0.
    change (blocks (New m ut)) with (createBlocks m).
    rewrite size_empty. lia. }
  rewrite Hcount in Hr, Hn. simpl in Hb, Hr, Hn.
  pose proof (sized_RequestBlocks _ k Hsz0) as Hsz.
  assert (MetadataSize (RequestBlocks (New m ut) k) = m) as Hms.
  { unfold RequestBlocks.
    by destruct (loop_frame (length (blocks (New m ut))) (New m ut) k) as (-> & _ & _). }
  destruct (deliver_spec blob order (RequestBlocks (New m ut) k) Hwf Hsz)
    as (d' & Hd & Hr' & Hn' & Hb' & Hl' & HB').
  { by rewrite Hms. }
  { rewrite Hperm. apply NoDup_iota. }
  { rewrite Hr, union_empty_r_L. apply set_eq. intros x.
    by rewrite !elem_of_list_to_set, Hperm. }
  exists d'. split; [done|]. split.
  - apply list_eq. intros j. rewrite HB'.
    case_bool_decide as Hj; [done|].
    rewrite Hperm, InfoDownloaderFacts.iota_elem in Hj.
    remember (N.of_nat j / blockSize) as q eqn:Hq. symmetry in Hq.
    apply offset_block in Hq as [Hlo _].
    assert (¬ N.of_nat (N.to_nat q) * blockSize < m) as Hbeyond.
    { intros Hlt. apply (createBlocks_lookup_is_Some m _ Hm) in Hlt.
      apply lookup_lt_is_Some in Hlt. lia. }
    rewrite N2Nat.id in Hbeyond.
    destruct Hsz as (_ & _ & HB).
    rewrite !lookup_ge_None_2; [done | |]; lia.
  - unfold Done. rewrite Hr', size_empty, Hn', Hn, Hb', Hb. simpl.
    rewrite InfoDownloaderFacts.wrap32_small
      by (by apply InfoDownloaderFacts.createBlocks_length).
    rewrite bool_decide_eq_true_2 by lia. done.
Qed.

Lemma download_reassembles_metadata_witness :
  ∃ d', deliver (RequestBlocks (New 3 1) 5) [0] [Byte.x61; Byte.x62; Byte.x63] = inr d'
        ∧ Bytes d' = [Byte.x61; Byte.x62; Byte.x63] ∧ Done d' = true.
Proof.
  apply (download_reassembles_metadata 3 1 5 [0] [Byte.x61; Byte.x62; Byte.x63]).
  - reflexivity.
  - reflexivity.
  - vm_compute. discriminate.
  - reflexivity.
Defined.

End MetadataFacts.

(* ===================================================================== *)
(** ** Peer connection: [Run] comes to an end                             *)
(* ===================================================================== *)

Module WindDownFacts.

Import PeerConn PeerConnRuns.

Lemma tasks_started_step p a p' :
  tasks_started p → step p a = Some p' → tasks_started p'.
Proof.
  unfold tasks_started. intros H Hs.
  destruct a; simpl in Hs; repeat case_match; simplify_eq; simpl in *;
    try (intros Hr; split; done);
    try (intros Hr; destruct (H ltac:(congruence)); split; congruence).
Qed.

Lemma tasks_started_exec l p p' :
  tasks_started p → exec p l = Some p' → tasks_started p'.
Proof.
  revert p. induction l as [|a l IH]; intros p Hinv H; simpl in H.
  - by simplify_eq.
  - destruct (step p a) as [p1|] eqn:Hs; [|done].
    eapply IH; [|done]. by eapply tasks_started_step.
Qed.

Lemma exec_app l1 l2 p p1 :
  exec p l1 = Some p1 → exec p (l1 ++ l2) = exec p1 l2.
Proof.
  revert p. induction l1 as [|a l1 IH]; intros p H; simpl in *.
  - by simplify_eq.
  - destruct (step p a) as [p'|]; [|done]. by apply IH.
Qed.

(** With both done channels closed, the receives that are left go
    through and [Run] returns. *)
Lemma receive_all l cC cdC n rd wr cs :
  exec (mkPeer cC cdC Closed Closed n (RunWaiting l) rd wr cs)
    (replicate (length l) RunReceive ++ [RunReturn])
  = Some (mkPeer cC Closed Closed Closed n RunReturned rd wr cs).
Proof.
  induction l as [|w l IH]; [done|].
  simpl. destruct w; simpl; exact IH.
Qed.

(** From every state in which [Run] has been started, [Run] can still
    return without any help from [Close]: once the reader and the
    writer return, the select and the receives after it go through.
    The connection is then closed, and every call of [Close] that is
    waiting can return. *)
Theorem Run_can_always_return p :
  reachable p → run p ≠ RunNotStarted →
  ∃ p', exec p (wind_down p) = Some p'
        ∧ run p' = RunReturned ∧ closedC p' = Closed ∧ connClosed p' = 1%nat
        ∧ callers p' = callers p
        ∧ Forall (fun a => is_close_action a = false) (wind_down p)
        ∧ ∀ c, callers p !! c = Some CloseWaiting →
               ∃ p'', step p' (CloseReturn c) = Some p''
                      ∧ callers p'' !! c = Some CloseReturned.
Proof.
  intros Hr Hrun.
  pose proof (PeerConnFacts.reachable_inv _ Hr) as (I1 & I2 & I3 & I4 & I5 & I6 & I7 & I8 & I9).
  assert (tasks_started p) as Hts.
  { destruct Hr as [l Hl]. eapply tasks_started_exec; [|exact Hl]. by intros ?. }
  destruct (Hts Hrun) as [Hrd Hwr].
  destruct p as [cC cdC rD wD n r rd wr cs]. simpl in *.
  assert (∃ p', exec (mkPeer cC cdC rD wD n r rd wr cs)
                  (wind_down (mkPeer cC cdC rD wD n r rd wr cs)) = Some p'
                ∧ run p' = RunReturned ∧ closedC p' = Closed ∧ connClosed p' = 1%nat
                ∧ callers p' = cs) as (p' & He & Hr' & Hc' & Hn' & Hcs').
  { unfold wind_down. simpl.
    assert (exec (mkPeer cC cdC rD wD n r rd wr cs)
              (match rd with Active => [ReaderExit] | _ => [] end
               ++ match wr with Active => [WriterExit] | _ => [] end)
            = Some (mkPeer cC cdC Closed Closed n r Exited Exited cs)) as H1.
    { destruct rd; [done| |]; (destruct wr; [done| |]); simpl;
        rewrite ?(proj2 I3 eq_refl), ?(proj2 I4 eq_refl); reflexivity. }
    rewrite app_assoc. rewrite (exec_app _ _ _ _ H1).
    destruct r as [| |l|]; [done | | |].
    - eexists. split; [reflexivity|]. simpl. rewrite I8 by (by right). done.
    - rewrite receive_all. eexists. split; [reflexivity|]. simpl.
      destruct (I5 l eq_refl) as (-> & _). done.
    - eexists. split; [reflexivity|]. simpl. destruct (I2 eq_refl) as (-> & _).
      split; [done|]. split; [by apply I1 | done]. }
  exists p'. split_and!; try done.
  - unfold wind_down. simpl. rewrite !Forall_app. split_and!.
    + destruct rd; repeat constructor.
    + destruct wr; repeat constructor.
    + destruct r; repeat constructor.
      rewrite Forall_app. split; [|repeat constructor].
      apply Forall_forall. intros a Ha. apply elem_of_replicate in Ha as [-> _]. done.
  - intros c Hc. simpl. rewrite Hcs', Hc, Hc'. simpl. eexists. split; [done|].
    simpl. by rewrite lookup_insert_eq.
Qed.

Lemma Run_can_always_return_witness :
  ∃ p', exec (mkPeer Closed Open Open Open 0 RunSelect Active Active {[1%nat := CloseWaiting]})
          [ReaderExit; WriterExit; SelectReaderDone; RunReceive; RunReturn] = Some p'
        ∧ run p' = RunReturned
        ∧ ∃ p'', step p' (CloseReturn 1) = Some p''
                 ∧ callers p'' !! 1%nat = Some CloseReturned.
Proof.
  destruct (Run_can_always_return
              (mkPeer Closed Open Open Open 0 RunSelect Active Active
                 {[1%nat := CloseWaiting]}))
    as (p' & He & Hr & _ & _ & _ & _ & Hc).
  - exists [RunStart; CloseCall 1]. reflexivity.
  - discriminate.
  - exists p'. split; [exact He|]. split; [exact Hr|]. apply Hc. reflexivity.
Defined.

(** The connection is closed by [Run] alone, when its select fires,
    and never a second time. *)
Theorem conn_closed_at_most_once p :
  reachable p →
  (connClosed p ≤ 1)%nat
  ∧ (connClosed p = 1%nat ↔ (∃ l, run p = RunWaiting l) ∨ run p = RunReturned)
  ∧ (∀ a p', step p a = Some p' → connClosed p' ≠ connClosed p →
             a = SelectCloseC ∨ a = SelectReaderDone ∨ a = SelectWriterDone).
Proof.
  intros Hr.
  pose proof (PeerConnFacts.reachable_inv _ Hr) as (I1 & I2 & I3 & I4 & I5 & I6 & I7 & I8 & I9).
  assert (connClosed p = 1%nat ↔ (∃ l, run p = RunWaiting l) ∨ run p = RunReturned) as Hiff.
  { destruct (run p) as [| |l|] eqn:Hrun.
    - rewrite I8 by (by left). split; [done | intros [[? ?]|?]; done].
    - rewrite I8 by (by right). split; [done | intros [[? ?]|?]; done].
    - destruct (I5 l eq_refl) as (-> & _). split; [|done]. intros _. left. by exists l.
    - destruct (I2 eq_refl) as (-> & _). split; [|done]. intros _. by right. }
  split_and!; [|done|].
  - destruct (run p) as [| |l|] eqn:Hrun.
    + rewrite I8 by (by left). lia.
    + rewrite I8 by (by right). lia.
    + destruct (I5 l eq_refl) as (-> & _). lia.
    + destruct (I2 eq_refl) as (-> & _). lia.
  - intros a p' Hs Hne.
    destruct a; simpl in Hs; repeat case_match; simplify_eq; simpl in Hne; try done; auto.
Qed.

Lemma conn_closed_at_most_once_witness :
  (connClosed closed_once ≤ 1)%nat
  ∧ (connClosed closed_once = 1%nat
     ↔ (∃ l, run closed_once = RunWaiting l) ∨ run closed_once = RunReturned)
  ∧ (∀ a p', step closed_once a = Some p' → connClosed p' ≠ connClosed closed_once →
             a = SelectCloseC ∨ a = SelectReaderDone ∨ a = SelectWriterDone).
Proof.
  apply (conn_closed_at_most_once closed_once).
  exists close_twice. vm_compute. reflexivity.
Defined.

End WindDownFacts.

(* ===================================================================== *)
(** ** Engine: the connection registry                                    *)
(* ===================================================================== *)

Module RegistryFacts.

Import Engine Registry.

(** *** Code that only writes to peers on the heap *)

Lemma same_registry_refl t : same_registry t t.
Proof. by split. Qed.

Lemma same_registry_trans t1 t2 t3 :
  same_registry t1 t2 → same_registry t2 t3 → same_registry t1 t3.
Proof. intros [H1 H2] [H3 H4]. split; congruence. Qed.

Lemma same_update_peer r f t :
  (∀ x, ident (f x) = ident x) → same_registry t (update_peer r f t).
Proof.
  intros Hf. split; [reflexivity|].
  unfold idents, update_peer. cbn [heap set_heap].
  apply map_eq. intros k. rewrite !lookup_fmap.
  destruct (decide (k = r)) as [->|Hne].
  - rewrite lookup_alter_eq. destruct (heap t !! r); simpl; [by rewrite Hf | done].
  - by rewrite lookup_alter_ne.
Qed.

Lemma same_SendMessage r m t : same_registry t (SendMessage r m t).
Proof. by apply same_update_peer. Qed.

Lemma same_for_each_peer f t :
  (∀ x, ident (f x) = ident x) → same_registry t (for_each_peer f t).
Proof.
  intros Hf. split; [reflexivity|].
  unfold idents. apply map_eq. intros k.
  rewrite !lookup_fmap, EngineFacts.for_each_peer_lookup.
  destruct (heap t !! k); simpl; [|done]. case_bool_decide; [by rewrite Hf | done].
Qed.

Lemma same_chokePeer pe t : same_registry t (chokePeer pe t).
Proof.
  unfold chokePeer. case_match; [|apply same_registry_refl].
  eapply same_registry_trans; [|apply same_SendMessage]. by apply same_update_peer.
Qed.

Lemma same_unchokePeer pe t : same_registry t (unchokePeer pe t).
Proof.
  unfold unchokePeer. case_match; [|apply same_registry_refl].
  eapply same_registry_trans; [|apply same_SendMessage]. by apply same_update_peer.
Qed.

Lemma ident_pex_log c x : ident (pex_log c x) = ident x.
Proof. unfold pex_log. by destruct (PEX x). Qed.

Lemma same_pexAddPeer a t : same_registry t (pexAddPeer a t).
Proof.
  unfold pexAddPeer. case_match; [apply same_registry_refl|].
  apply same_for_each_peer, ident_pex_log.
Qed.

Lemma same_pexDropPeer a t : same_registry t (pexDropPeer a t).
Proof.
  unfold pexDropPeer. case_match; [apply same_registry_refl|].
  apply same_for_each_peer, ident_pex_log.
Qed.

Lemma same_picker_call c t : same_registry t (picker_call c t).
Proof. unfold picker_call. by destruct (piecePicker t). Qed.

Lemma same_sendFirstMessage r t : same_registry t (sendFirstMessage r t).
Proof.
  unfold sendFirstMessage. destruct (heap t !! r); [|apply same_registry_refl].
  cbv zeta. eapply same_registry_trans; [|apply same_SendMessage].
  repeat case_match; first [apply same_SendMessage | apply same_registry_refl].
Qed.

Lemma same_closePieceDownloader pe i t : same_registry t (closePieceDownloader pe i t).
Proof.
  unfold closePieceDownloader. cbv zeta.
  eapply same_registry_trans; [|by apply same_update_peer].
  eapply same_registry_trans; [|apply same_picker_call]. split; reflexivity.
Qed.

Lemma same_set_optimisticUnchokedPeers v t :
  same_registry t (set_optimisticUnchokedPeers v t).
Proof. split; reflexivity. Qed.

Lemma same_closeInfoDownloader pe t : same_registry t (closeInfoDownloader pe t).
Proof. by split. Qed.

Lemma same_tickUnchoke_loop l u t : same_registry t (tickUnchoke_loop l u t).
Proof.
  revert u t. induction l as [|pe l IH]; intros u t; simpl; [apply same_registry_refl|].
  case_bool_decide.
  - eapply same_registry_trans; [|apply IH].
    eapply same_registry_trans; [|by apply same_update_peer]. apply same_unchokePeer.
  - eapply same_registry_trans; [|apply IH]. apply same_chokePeer.
Qed.

Lemma same_tickUnchoke env t : same_registry t (tickUnchoke env t).
Proof.
  unfold tickUnchoke. cbv zeta.
  eapply same_registry_trans; [|apply same_tickUnchoke_loop].
  by apply same_for_each_peer.
Qed.

Lemma same_optimistic_loop n cands rnd t : same_registry t (optimistic_loop n cands rnd t).
Proof.
  revert rnd t. induction n as [|n IH]; intros rnd t; simpl; [apply same_registry_refl|].
  destruct cands as [|c cands]; [apply same_registry_refl|].
  eapply same_registry_trans; [|apply IH].
  eapply same_registry_trans; [|apply same_set_optimisticUnchokedPeers].
  eapply same_registry_trans; [|apply same_unchokePeer].
  by apply same_update_peer.
Qed.

Lemma same_foldl {A} (f : torrent → A → torrent) l t :
  (∀ t a, same_registry t (f t a)) → same_registry t (foldl f t l).
Proof.
  intros Hf. revert t. induction l as [|a l IH]; intros t; simpl; [apply same_registry_refl|].
  eapply same_registry_trans; [apply Hf | apply IH].
Qed.

Lemma same_tickOptimisticUnchoke rnd t : same_registry t (tickOptimisticUnchoke rnd t).
Proof.
  unfold tickOptimisticUnchoke. cbv zeta.
  eapply same_registry_trans; [|apply same_optimistic_loop].
  eapply same_registry_trans; [|apply same_set_optimisticUnchokedPeers].
  apply same_foldl. intros u a. case_match; [apply same_chokePeer | apply same_registry_refl].
Qed.

(** *** The registry under its four changes *)

Lemma wiring_eq t t' :
  wiring t' = wiring t →
  config t' = config t ∧ completed t' = completed t ∧ peers t' = peers t
  ∧ incomingPeers t' = incomingPeers t ∧ outgoingPeers t' = outgoingPeers t
  ∧ peerIDs t' = peerIDs t ∧ connectedPeerIPs t' = connectedPeerIPs t
  ∧ incomingHandshakers t' = incomingHandshakers t
  ∧ outgoingHandshakers t' = outgoingHandshakers t.
Proof. unfold wiring. intros H. injection H. intros. by split_and!. Qed.

Lemma registry_ok_same t t' : same_registry t t' → registry_ok t → registry_ok t'.
Proof.
  intros [Hw Hi]. apply wiring_eq in Hw as (_ & _ & Hp & _ & _ & Hids & Hips & Hin & Hout).
  unfold registry_ok, handshake. by rewrite Hp, Hi, Hids, Hips, Hin, Hout.
Qed.

Lemma limits_ok_same t t' : same_registry t t' → limits_ok t → limits_ok t'.
Proof.
  intros [Hw _]. apply wiring_eq in Hw as (Hc & _ & _ & Hip & Hop & _ & _ & Hin & Hout).
  unfold limits_ok. by rewrite Hc, Hip, Hop, Hin, Hout.
Qed.

Lemma handshake_fun t i h a a' : handshake t i h a → handshake t i h a' → a = a'.
Proof. unfold handshake. destruct i; congruence. Qed.

(** A handshake starts on an address whose IP is not registered. *)
Lemma registry_ok_add_handshake t t' i h a :
  registry_ok t → IP a ∉ connectedPeerIPs t →
  peers t' = peers t → idents t' = idents t → peerIDs t' = peerIDs t →
  connectedPeerIPs t' = {[IP a]} ∪ connectedPeerIPs t →
  (∀ i' h' a', handshake t' i' h' a'
               ↔ (i' = i ∧ h' = h ∧ a' = a) ∨ handshake t i' h' a') →
  registry_ok t'.
Proof.
  intros (R1 & R2 & R3 & R4 & R5 & R6 & R7) Hnew Hp Hi Hids Hips Hhs.
  unfold registry_ok. rewrite Hp, Hi, Hids, Hips. split_and!.
  - done.
  - intros r id a0 Hr Hx. destruct (R2 r id a0 Hr Hx) as [? ?].
    split; [done|]. apply elem_of_union. by right.
  - done.
  - done.
  - intros ip [->%elem_of_singleton|Hip]%elem_of_union.
    + right. exists i, h, a. split; [|done]. apply Hhs. by left.
    + destruct (R5 ip Hip) as [?|(i' & h' & a' & Hh & ?)]; [by left|].
      right. exists i', h', a'. split; [|done]. apply Hhs. by right.
  - intros i' h' a' [(-> & -> & ->)|Hh]%Hhs.
    + split; [apply elem_of_union; left; by apply elem_of_singleton|].
      intros r id a' Hr Hx Heq. destruct (R2 r id a' Hr Hx) as [_ Hin].
      rewrite Heq in Hin. done.
    + destruct (R6 i' h' a' Hh) as [? ?]. split; [|done]. apply elem_of_union. by right.
  - intros i1 h1 a1 i2 h2 a2 [(-> & -> & ->)|H1]%Hhs [(-> & -> & ->)|H2]%Hhs Heq.
    + done.
    + destruct (R6 _ _ _ H2) as [Hin _]. rewrite <- Heq in Hin. done.
    + destruct (R6 _ _ _ H1) as [Hin _]. rewrite Heq in Hin. done.
    + by eapply R7.
Qed.

(** A handshake fails and its IP is released. *)
Lemma registry_ok_drop_handshake t t' i h a :
  registry_ok t → handshake t i h a →
  peers t' = peers t → idents t' = idents t → peerIDs t' = peerIDs t →
  connectedPeerIPs t' = connectedPeerIPs t ∖ {[IP a]} →
  (∀ i' h' a', handshake t' i' h' a'
               ↔ handshake t i' h' a' ∧ ¬ (i' = i ∧ h' = h)) →
  registry_ok t'.
Proof.
  intros (R1 & R2 & R3 & R4 & R5 & R6 & R7) Hh Hp Hi Hids Hips Hhs.
  unfold registry_ok. rewrite Hp, Hi, Hids, Hips. split_and!.
  - done.
  - intros r id a0 Hr Hx. destruct (R2 r id a0 Hr Hx) as [? ?].
    split; [done|]. apply elem_of_difference. split; [done|].
    rewrite elem_of_singleton. destruct (R6 _ _ _ Hh) as [_ Hne]. by eapply Hne.
  - done.
  - done.
  - intros ip [Hip Hne]%elem_of_difference. rewrite elem_of_singleton in Hne.
    destruct (R5 ip Hip) as [?|(i' & h' & a' & Hh' & ?)]; [by left|].
    right. exists i', h', a'. split; [|done]. apply Hhs. split; [done|].
    intros [-> ->]. rewrite (handshake_fun _ _ _ _ _ Hh Hh') in Hne. done.
  - intros i' h' a' [Hh' Hdiff]%Hhs. destruct (R6 _ _ _ Hh') as [? ?].
    split; [|done]. apply elem_of_difference. split; [done|].
    rewrite elem_of_singleton. intros Heq. apply Hdiff. by eapply R7.
  - intros i1 h1 a1 i2 h2 a2 [H1 _]%Hhs [H2 _]%Hhs Heq. by eapply R7.
Qed.

(** A handshake succeeds with a new peer ID and becomes a peer. *)
Lemma registry_ok_promote t t' i h a id pe :
  registry_ok t → handshake t i h a → id ∉ peerIDs t → pe ∉ peers t →
  peers t' = {[pe]} ∪ peers t → idents t' = <[pe := (id, a)]> (idents t) →
  peerIDs t' = {[id]} ∪ peerIDs t → connectedPeerIPs t' = connectedPeerIPs t →
  (∀ i' h' a', handshake t' i' h' a'
               ↔ handshake t i' h' a' ∧ ¬ (i' = i ∧ h' = h)) →
  registry_ok t'.
Proof.
  intros (R1 & R2 & R3 & R4 & R5 & R6 & R7) Hh Hid Hpe Hp Hi Hids Hips Hhs.
  destruct (R6 _ _ _ Hh) as [Hreg Hfree].
  assert (Hold : ∀ r, r ∈ peers t → <[pe := (id, a)]> (idents t) !! r = idents t !! r).
  { intros r Hr. apply lookup_insert_ne. by intros ->. }
  unfold registry_ok. rewrite Hp, Hi, Hids, Hips. split_and!.
  - intros r [->%elem_of_singleton|Hr]%elem_of_union.
    + rewrite lookup_insert_eq. by eexists.
    + rewrite Hold by done. by apply R1.
  - intros r id0 a0 [->%elem_of_singleton|Hr]%elem_of_union Hx.
    + rewrite lookup_insert_eq in Hx. simplify_eq.
      split; [apply elem_of_union; left; by apply elem_of_singleton | done].
    + rewrite Hold in Hx by done. destruct (R2 r id0 a0 Hr Hx) as [? ?].
      split; [apply elem_of_union; by right | done].
  - intros r1 r2 id1 id2 a1 a2
      [->%elem_of_singleton|Hr1]%elem_of_union [->%elem_of_singleton|Hr2]%elem_of_union
      H1 H2 Heq; [done| | |].
    + rewrite lookup_insert_eq in H1. rewrite Hold in H2 by done. simplify_eq.
      destruct (R2 _ _ _ Hr2 H2) as [Hin _]. destruct Heq as [<-|Heq]; [done|].
      by destruct (Hfree _ _ _ Hr2 H2).
    + rewrite lookup_insert_eq in H2. rewrite Hold in H1 by done. simplify_eq.
      destruct (R2 _ _ _ Hr1 H1) as [Hin _]. destruct Heq as [->|Heq]; [done|].
      by destruct (Hfree _ _ _ Hr1 H1).
    + rewrite Hold in H1, H2 by done. by eapply R3.
  - intros id0 [->%elem_of_singleton|Hin]%elem_of_union.
    + exists pe, a. split; [apply elem_of_union; left; by apply elem_of_singleton|].
      by rewrite lookup_insert_eq.
    + destruct (R4 id0 Hin) as (r & a0 & Hr & Hx). exists r, a0.
      split; [apply elem_of_union; by right|]. by rewrite Hold.
  - intros ip Hip. destruct (R5 ip Hip) as [(r & id0 & a0 & Hr & Hx & ?)|(i' & h' & a' & Hh' & ?)].
    + left. exists r, id0, a0. split; [apply elem_of_union; by right|]. by rewrite Hold.
    + destruct (decide (i' = i ∧ h' = h)) as [[-> ->]|Hdiff].
      * left. exists pe, id, a. split; [apply elem_of_union; left; by apply elem_of_singleton|].
        rewrite lookup_insert_eq. split; [done|].
        by rewrite (handshake_fun _ _ _ _ _ Hh Hh').
      * right. exists i', h', a'. split; [|done]. by apply Hhs.
  - intros i' h' a' [Hh' Hdiff]%Hhs. destruct (R6 _ _ _ Hh') as [? Hfree'].
    split; [done|].
    intros r id0 a0 [->%elem_of_singleton|Hr]%elem_of_union Hx.
    + rewrite lookup_insert_eq in Hx. simplify_eq. intros Heq. apply Hdiff.
      by eapply (R7 i' h' a' i h a0).
    + rewrite Hold in Hx by done. by eapply Hfree'.
  - intros i1 h1 a1 i2 h2 a2 [H1 _]%Hhs [H2 _]%Hhs Heq. by eapply R7.
Qed.

(** A connected peer is closed. *)
Lemma registry_ok_close t t' pe id a :
  registry_ok t → pe ∈ peers t → idents t !! pe = Some (id, a) →
  peers t' = peers t ∖ {[pe]} → idents t' = idents t →
  peerIDs t' = peerIDs t ∖ {[id]} → connectedPeerIPs t' = connectedPeerIPs t ∖ {[IP a]} →
  incomingHandshakers t' = incomingHandshakers t →
  outgoingHandshakers t' = outgoingHandshakers t →
  registry_ok t'.
Proof.
  intros (R1 & R2 & R3 & R4 & R5 & R6 & R7) Hpe Hx Hp Hi Hids Hips Hin Hout.
  unfold registry_ok, handshake. rewrite Hp, Hi, Hids, Hips, Hin, Hout.
  fold (handshake t). split_and!.
  - intros r [Hr _]%elem_of_difference. by apply R1.
  - intros r id0 a0 [Hr Hne]%elem_of_difference Hx0. rewrite elem_of_singleton in Hne.
    destruct (R2 r id0 a0 Hr Hx0) as [? ?].
    split; (apply elem_of_difference; split; [done|]); rewrite elem_of_singleton;
      intros Heq; apply Hne; eapply (R3 r pe); eauto.
  - intros r1 r2 id1 id2 a1 a2 [Hr1 _]%elem_of_difference [Hr2 _]%elem_of_difference.
    by apply R3.
  - intros id0 [Hid Hne]%elem_of_difference. rewrite elem_of_singleton in Hne.
    destruct (R4 id0 Hid) as (r & a0 & Hr & Hx0). exists r, a0. split; [|done].
    apply elem_of_difference. split; [done|]. rewrite elem_of_singleton.
    intros ->. rewrite Hx in Hx0. by simplify_eq.
  - intros ip [Hip Hne]%elem_of_difference. rewrite elem_of_singleton in Hne.
    destruct (R5 ip Hip) as [(r & id0 & a0 & Hr & Hx0 & ?)|?]; [|by right].
    left. exists r, id0, a0. split; [|done].
    apply elem_of_difference. split; [done|]. rewrite elem_of_singleton.
    intros ->. rewrite Hx in Hx0. by simplify_eq.
  - intros i h a0 Hh. destruct (R6 _ _ _ Hh) as [? Hfree]. split.
    + apply elem_of_difference. split; [done|]. rewrite elem_of_singleton.
      intros Heq. by eapply (Hfree pe id a).
    + intros r id0 a' [Hr _]%elem_of_difference. by apply Hfree.
  - done.
Qed.

(** *** Dialling and accepting *)

Lemma fresh_handshaker_free t :
  incomingHandshakers t !! fresh_handshaker t = None
  ∧ outgoingHandshakers t !! fresh_handshaker t = None.
Proof.
  pose proof (is_fresh (dom (incomingHandshakers t) ∪ dom (outgoingHandshakers t))) as Hf.
  fold (fresh_handshaker t) in Hf. rewrite elem_of_union, !elem_of_dom in Hf.
  split; apply eq_None_not_Some; intros ?; apply Hf; auto.
Qed.

(** The state after one more address is dialled. *)
Lemma registry_ok_dial t addr :
  registry_ok t → IP addr ∉ connectedPeerIPs t →
  registry_ok
    (set_connectedPeerIPs ({[IP addr]} ∪ connectedPeerIPs t)
       (set_outgoingHandshakers
          (<[fresh_handshaker t := addr]> (outgoingHandshakers t)) t)).
Proof.
  intros Hok Hnew. destruct (fresh_handshaker_free t) as [_ Hfree].
  apply (registry_ok_add_handshake t _ false (fresh_handshaker t) addr Hok Hnew);
    try reflexivity.
  intros i' h' a'. unfold handshake. cbn [incomingHandshakers outgoingHandshakers
    set_connectedPeerIPs set_outgoingHandshakers].
  destruct i'.
  - split; [by right | intros [(? & _)|?]; done].
  - rewrite lookup_insert_Some. split.
    + intros [[<- <-]|[_ ?]]; [by left | by right].
    + intros [(_ & -> & ->)|Hold]; [by left|]. right. split; [|done].
      intros <-. congruence.
Qed.

Lemma registry_ok_dialAddresses_loop q t :
  registry_ok t → registry_ok (dialAddresses_loop q t).
Proof.
  revert t. induction q as [|addr q IH]; intros t Hok; simpl.
  - case_bool_decide; eapply registry_ok_same; [|exact Hok| |exact Hok]; by split.
  - case_bool_decide; [|eapply registry_ok_same; [|exact Hok]; by split].
    case_bool_decide; [by apply IH|]. by apply IH, registry_ok_dial.
Qed.

Lemma registry_ok_dialAddresses t : registry_ok t → registry_ok (dialAddresses t).
Proof.
  intros Hok. unfold dialAddresses. destruct (completed t); [done|].
  by apply registry_ok_dialAddresses_loop.
Qed.

Lemma limits_ok_dialAddresses_loop q t :
  limits_ok t → limits_ok (dialAddresses_loop q t).
Proof.
  revert t. induction q as [|addr q IH]; intros t Hok; simpl.
  - by case_bool_decide.
  - case_bool_decide as Hlt; [|done].
    case_bool_decide; [by apply IH|]. apply IH.
    destruct Hok as [Hin Hout]. destruct (fresh_handshaker_free t) as [_ Hfree].
    split; [done|]. cbn [config outgoingPeers outgoingHandshakers set_connectedPeerIPs
      set_outgoingHandshakers].
    rewrite map_size_insert_None by done. lia.
Qed.

Lemma limits_ok_dialAddresses t : limits_ok t → limits_ok (dialAddresses t).
Proof.
  intros Hok. unfold dialAddresses. destruct (completed t); [done|].
  by apply limits_ok_dialAddresses_loop.
Qed.

Lemma registry_ok_incomingConn remote blocked t :
  registry_ok t → registry_ok (incomingConn remote blocked t).
Proof.
  intros Hok. unfold incomingConn.
  case_bool_decide; [eapply registry_ok_same; [|exact Hok]; by split|].
  destruct blocked; [eapply registry_ok_same; [|exact Hok]; by split|].
  case_bool_decide as Hnew; [eapply registry_ok_same; [|exact Hok]; by split|].
  destruct (fresh_handshaker_free t) as [Hfree _].
  apply (registry_ok_add_handshake t _ true (fresh_handshaker t) remote Hok Hnew);
    try reflexivity.
  intros i' h' a'. unfold handshake. cbn [incomingHandshakers outgoingHandshakers
    set_connectedPeerIPs set_incomingHandshakers].
  destruct i'.
  - rewrite lookup_insert_Some. split.
    + intros [[<- <-]|[_ ?]]; [by left | by right].
    + intros [(_ & -> & ->)|Hold]; [by left|]. right. split; [|done].
      intros <-. congruence.
  - split; [by right | intros [(? & _)|?]; done].
Qed.

Lemma limits_ok_incomingConn remote blocked t :
  limits_ok t → limits_ok (incomingConn remote blocked t).
Proof.
  intros [Hin Hout]. unfold incomingConn.
  case_bool_decide as Hfull; [done|].
  destruct blocked; [done|]. case_bool_decide; [done|].
  destruct (fresh_handshaker_free t) as [Hfree _].
  split; [|done]. cbn [config incomingPeers incomingHandshakers set_connectedPeerIPs
    set_incomingHandshakers].
  rewrite map_size_insert_None by done. lia.
Qed.

(** *** Registering and closing a peer *)

Lemma fresh_peer_free t :
  heap t !! fresh_peer t = None ∧ (fresh_peer t ∉ peers t)
  ∧ (fresh_peer t ∉ incomingPeers t) ∧ (fresh_peer t ∉ outgoingPeers t).
Proof.
  pose proof (is_fresh (dom (heap t) ∪ peers t ∪ incomingPeers t ∪ outgoingPeers t)) as Hf.
  fold (fresh_peer t) in Hf. rewrite !elem_of_union, elem_of_dom in Hf.
  split_and!; [apply eq_None_not_Some|..]; intros ?; apply Hf; auto.
Qed.

(** What [startPeer] leaves when the peer ID is new. *)
Lemma startPeer_new p incoming t :
  conn_ID p ∉ peerIDs t →
  ∃ pe, (pe ∉ peers t) ∧ (pe ∉ incomingPeers t) ∧ (pe ∉ outgoingPeers t)
        ∧ wiring (startPeer p incoming t)
          = (config t, completed t, {[pe]} ∪ peers t,
             (if incoming then {[pe]} ∪ incomingPeers t else incomingPeers t),
             (if incoming then outgoingPeers t else {[pe]} ∪ outgoingPeers t),
             {[conn_ID p]} ∪ peerIDs t, connectedPeerIPs t,
             incomingHandshakers t, outgoingHandshakers t)
        ∧ idents (startPeer p incoming t)
          = <[pe := (conn_ID p, conn_Addr p)]> (idents t).
Proof.
  intros Hid. unfold startPeer.
  destruct (same_pexAddPeer (conn_Addr p) t) as [Hw Hi].
  pose proof (wiring_eq _ _ Hw) as (Hc & Hco & Hp & Hip & Hop & Hids & Hips & Hin & Hout).
  set (t1 := pexAddPeer (conn_Addr p) t) in *.
  cbv zeta. rewrite bool_decide_eq_false_2 by (by rewrite Hids).
  set (t2 := set_peerIDs ({[conn_ID p]} ∪ peerIDs t1) t1).
  destruct (fresh_peer_free t2) as (_ & Hf1 & Hf2 & Hf3).
  change (peers t2) with (peers t1) in Hf1.
  change (incomingPeers t2) with (incomingPeers t1) in Hf2.
  change (outgoingPeers t2) with (outgoingPeers t1) in Hf3.
  set (pe := fresh_peer t2) in *.
  exists pe. rewrite <- Hp, <- Hip, <- Hop. split_and!; [done..| |].
  - match goal with
    | |- wiring (if ?c then unchokePeer pe ?u else ?u) = _ =>
        assert (wiring (if c then unchokePeer pe u else u) = wiring u) as ->
          by (destruct c; [apply same_unchokePeer | done])
    end.
    rewrite (proj1 (same_sendFirstMessage pe _)).
    rewrite <- Hc, <- Hco, <- Hids, <- Hips, <- Hin, <- Hout.
    by destruct incoming.
  - match goal with
    | |- idents (if ?c then unchokePeer pe ?u else ?u) = _ =>
        assert (idents (if c then unchokePeer pe u else u) = idents u) as ->
          by (destruct c; [apply same_unchokePeer | done])
    end.
    rewrite (proj2 (same_sendFirstMessage pe _)), <- Hi.
    unfold idents. destruct incoming; cbn [heap set_heap set_peers set_incomingPeers
      set_outgoingPeers]; by rewrite fmap_insert.
Qed.

(** What [closePeer] does before it dials again. *)
Lemma closePeer_shape pe x t :
  heap t !! pe = Some x →
  ∃ tm, closePeer pe t = dialAddresses tm
        ∧ wiring tm
          = (config t, completed t, peers t ∖ {[pe]}, incomingPeers t ∖ {[pe]},
             outgoingPeers t ∖ {[pe]}, peerIDs t ∖ {[ID x]},
             connectedPeerIPs t ∖ {[IP (Addr x)]},
             incomingHandshakers t, outgoingHandshakers t)
        ∧ idents tm = idents t.
Proof.
  intros Hx. unfold closePeer. rewrite Hx. cbv zeta.
  set (t1 := update_peer pe (set_closed true) t).
  set (t2 := match pieceDownloaders t1 !! pe with
             | Some index => closePieceDownloader pe index t1
             | None => t1
             end).
  set (t3 := if bool_decide (pe ∈ infoDownloaders t2) then closeInfoDownloader pe t2 else t2).
  assert (same_registry t t3) as [Hw Hi].
  { eapply same_registry_trans; [by apply (same_update_peer pe (set_closed true))|].
    fold t1. eapply (same_registry_trans _ t2).
    - unfold t2. destruct (pieceDownloaders t1 !! pe);
        [apply same_closePieceDownloader | apply same_registry_refl].
    - unfold t3. case_bool_decide;
        [apply same_closeInfoDownloader | apply same_registry_refl]. }
  pose proof (wiring_eq _ _ Hw) as (Hc & Hco & Hp & Hip & Hop & Hids & Hips & Hin & Hout).
  eexists. split; [reflexivity|]. split.
  - rewrite (proj1 (same_pexDropPeer _ _)), (proj1 (same_picker_call _ _)).
    unfold wiring. cbn [config completed peers incomingPeers outgoingPeers peerIDs
      connectedPeerIPs incomingHandshakers outgoingHandshakers set_peers set_incomingPeers
      set_outgoingPeers set_peersSnubbed set_peerIDs set_connectedPeerIPs].
    by rewrite Hc, Hco, Hp, Hip, Hop, Hids, Hips, Hin, Hout.
  - rewrite (proj2 (same_pexDropPeer _ _)), (proj2 (same_picker_call _ _)).
    rewrite <- Hi. reflexivity.
Qed.

Lemma idents_lookup t r x : heap t !! r = Some x → idents t !! r = Some (ID x, Addr x).
Proof. intros H. unfold idents. by rewrite lookup_fmap, H. Qed.

Lemma registry_ok_closePeer pe t :
  registry_ok t → pe ∈ peers t → registry_ok (closePeer pe t).
Proof.
  intros Hok Hpe. pose proof Hok as (R1 & _).
  destruct (R1 pe Hpe) as [[id a] Hx]. unfold idents in Hx. rewrite lookup_fmap in Hx.
  destruct (heap t !! pe) as [x|] eqn:Hh; [|done]. simpl in Hx. injection Hx as <- <-.
  destruct (closePeer_shape pe x t Hh) as (tm & -> & Hw & Hi).
  apply registry_ok_dialAddresses.
  unfold wiring in Hw. injection Hw as Hc Hco Hp Hip Hop Hids Hips Hin Hout.
  by apply (registry_ok_close t tm pe (ID x) (Addr x) Hok Hpe (idents_lookup _ _ _ Hh)).
Qed.

Lemma limits_ok_closePeer pe t : limits_ok t → limits_ok (closePeer pe t).
Proof.
  intros [Hin Hout]. destruct (heap t !! pe) as [x|] eqn:Hh.
  - destruct (closePeer_shape pe x t Hh) as (tm & -> & Hw & Hi).
    apply limits_ok_dialAddresses.
    unfold wiring in Hw. injection Hw as Hc Hco Hp Hip Hop Hids Hips Hinh Houth.
    unfold limits_ok. rewrite Hc, Hip, Hop, Hinh, Houth.
    pose proof (subseteq_size (incomingPeers t ∖ {[pe]}) (incomingPeers t)
                  (subseteq_difference_l _ _ _ (reflexivity _))).
    pose proof (subseteq_size (outgoingPeers t ∖ {[pe]}) (outgoingPeers t)
                  (subseteq_difference_l _ _ _ (reflexivity _))).
    split; lia.
  - unfold closePeer. by rewrite Hh.
Qed.

(** *** The cases of the select *)

Lemma handshake_delete_incoming t ih i' h' a' :
  handshake (set_incomingHandshakers (delete ih (incomingHandshakers t)) t) i' h' a'
  ↔ handshake t i' h' a' ∧ ¬ (i' = true ∧ h' = ih).
Proof.
  unfold handshake. cbn [incomingHandshakers outgoingHandshakers set_incomingHandshakers].
  destruct i'.
  - rewrite lookup_delete_Some. split.
    + intros [Hne ?]. split; [done|]. by intros [_ ->].
    + intros [? Hne]. split; [|done]. intros ->. by apply Hne.
  - split; [intros ?; split; [done | by intros [? _]] | by intros [? _]].
Qed.

Lemma handshake_delete_outgoing t oh i' h' a' :
  handshake (set_outgoingHandshakers (delete oh (outgoingHandshakers t)) t) i' h' a'
  ↔ handshake t i' h' a' ∧ ¬ (i' = false ∧ h' = oh).
Proof.
  unfold handshake. cbn [incomingHandshakers outgoingHandshakers set_outgoingHandshakers].
  destruct i'.
  - split; [intros ?; split; [done | by intros [? _]] | by intros [? _]].
  - rewrite lookup_delete_Some. split.
    + intros [Hne ?]. split; [done|]. by intros [_ ->].
    + intros [? Hne]. split; [|done]. intros ->. by apply Hne.
Qed.

(** A handshake that succeeded with a new peer ID. *)
Lemma registry_ok_handshake_done incoming t t0 h a id fast :
  registry_ok t → handshake t incoming h a → id ∉ peerIDs t →
  wiring t0 = (config t, completed t, peers t, incomingPeers t, outgoingPeers t,
               peerIDs t, connectedPeerIPs t,
               (if incoming then delete h (incomingHandshakers t) else incomingHandshakers t),
               (if incoming then outgoingHandshakers t
                else delete h (outgoingHandshakers t))) →
  idents t0 = idents t →
  (∀ i' h' a', handshake t0 i' h' a' ↔ handshake t i' h' a' ∧ ¬ (i' = incoming ∧ h' = h)) →
  registry_ok (startPeer (mkConn id a fast) incoming t0).
Proof.
  intros Hok Hh Hid Hw0 Hi0 Hhs.
  unfold wiring in Hw0. injection Hw0 as Hc Hco Hp Hip Hop Hids Hips Hin Hout.
  destruct (startPeer_new (mkConn id a fast) incoming t0) as (pe & Hpe & _ & _ & Hw & Hi).
  { cbn [conn_ID]. by rewrite Hids. }
  unfold wiring in Hw. cbn [conn_ID conn_Addr] in Hw, Hi.
  injection Hw as Hc' Hco' Hp' Hip' Hop' Hids' Hips' Hin' Hout'.
  apply (registry_ok_promote t _ incoming h a id pe Hok Hh Hid).
  - by rewrite <- Hp.
  - by rewrite Hp', Hp.
  - by rewrite Hi, Hi0.
  - by rewrite Hids', Hids.
  - by rewrite Hips', Hips.
  - intros i' h' a'. rewrite <- Hhs. unfold handshake. by rewrite Hin', Hout'.
Qed.

Lemma registry_ok_step env t e t' :
  registry_ok t → arrives t e = true → step env t e = Next t' → registry_ok t'.
Proof.
  intros Hok Harr Hs.
  destruct e; simpl in Harr; try done; simpl in Hs.
  - (* AddrsFromTrackers *)
    injection Hs as <-. unfold handleNewPeers, setNeedMorePeers.
    repeat case_match; try (eapply registry_ok_same; [|exact Hok]; by split);
      apply registry_ok_dialAddresses; (eapply registry_ok_same; [|exact Hok]); by split.
  - (* AddPeersCommand *)
    injection Hs as <-. unfold handleNewPeers, setNeedMorePeers.
    repeat case_match; try (eapply registry_ok_same; [|exact Hok]; by split);
      apply registry_ok_dialAddresses; (eapply registry_ok_same; [|exact Hok]); by split.
  - (* DhtPeers *)
    injection Hs as <-. unfold handleNewPeers, setNeedMorePeers.
    repeat case_match; try (eapply registry_ok_same; [|exact Hok]; by split);
      apply registry_ok_dialAddresses; (eapply registry_ok_same; [|exact Hok]); by split.
  - (* IncomingConn *)
    injection Hs as <-. by apply registry_ok_incomingConn.
  - (* UnchokeTimer *)
    injection Hs as <-. eapply registry_ok_same; [apply same_tickUnchoke | done].
  - (* OptimisticUnchokeTimer *)
    injection Hs as <-. eapply registry_ok_same; [apply same_tickOptimisticUnchoke | done].
  - (* IncomingHandshakerResult *)
    apply andb_prop in Harr as [Hh%bool_decide_eq_true Hnew].
    destruct Error; injection Hs as <-.
    + apply (registry_ok_drop_handshake t _ true ih remote Hok Hh); try reflexivity.
      apply handshake_delete_incoming.
    + simpl in Hnew. apply bool_decide_eq_true in Hnew.
      refine (registry_ok_handshake_done true t _ ih remote PeerID fast Hok Hh Hnew _ _ _);
        [reflexivity | reflexivity | apply handshake_delete_incoming].
  - (* OutgoingHandshakerResult *)
    apply andb_prop in Harr as [Hh%bool_decide_eq_true Hnew].
    destruct Error; injection Hs as <-.
    + apply registry_ok_dialAddresses.
      apply (registry_ok_drop_handshake t _ false oh addr Hok Hh); try reflexivity.
      apply handshake_delete_outgoing.
    + simpl in Hnew. apply bool_decide_eq_true in Hnew.
      refine (registry_ok_handshake_done false t _ oh addr PeerID fast Hok Hh Hnew _ _ _);
        [reflexivity | reflexivity | apply handshake_delete_outgoing].
  - (* PeerDisconnected *)
    apply bool_decide_eq_true in Harr. injection Hs as <-.
    by apply registry_ok_closePeer.
Qed.

Lemma arrives_Next env t e : arrives t e = true → ∃ t', step env t e = Next t'.
Proof. intros H. destruct e; simpl in H; try done; simpl; repeat case_match; by eexists. Qed.

(** A sound registry gives the consistency of the three maps. *)
Lemma registry_ok_consistent t : registry_ok t → consistent t.
Proof.
  intros (R1 & R2 & R3 & R4 & R5 & R6 & R7). unfold consistent. split_and!.
  - intros r pe Hr Hpe. by apply (R2 r (ID pe) (Addr pe) Hr), idents_lookup.
  - intros id Hid. destruct (R4 id Hid) as (r & a & Hr & Hx).
    unfold idents in Hx. rewrite lookup_fmap in Hx.
    destruct (heap t !! r) as [pe|] eqn:Hpe; [|done]. simpl in Hx.
    exists r, pe. split; [done|]. split; [done|]. by injection Hx.
  - intros ip Hip. destruct (R5 ip Hip) as [(r & id & a & Hr & Hx & <-)|(i & h & a & Hh & <-)].
    + left. unfold idents in Hx. rewrite lookup_fmap in Hx.
      destruct (heap t !! r) as [pe|] eqn:Hpe; [|done]. simpl in Hx.
      exists r, pe. split; [done|]. split; [done|]. by injection Hx as _ ->.
    + right. exists h, a. split; [|done]. unfold handshake in Hh.
      destruct i; [by left | by right].
Qed.

Lemma registry_ok_empty t :
  peers t = ∅ → peerIDs t = ∅ → connectedPeerIPs t = ∅ →
  incomingHandshakers t = ∅ → outgoingHandshakers t = ∅ → registry_ok t.
Proof.
  intros Hp Hids Hips Hin Hout. unfold registry_ok, handshake.
  rewrite Hp, Hids, Hips, Hin, Hout. split_and!.
  - intros r Hr. by apply not_elem_of_empty in Hr.
  - intros r id a Hr. by apply not_elem_of_empty in Hr.
  - intros r1 r2 id1 id2 a1 a2 Hr. by apply not_elem_of_empty in Hr.
  - intros id Hr. by apply not_elem_of_empty in Hr.
  - intros ip Hr. by apply not_elem_of_empty in Hr.
  - intros [] h a Hh; by rewrite lookup_empty in Hh.
  - intros [] h a i' h' a' Hh; by rewrite lookup_empty in Hh.
Qed.

(** *** The limits *)

Lemma limits_ok_handshake_done incoming t t0 h a id fast :
  limits_ok t → handshake t incoming h a → id ∉ peerIDs t →
  wiring t0 = (config t, completed t, peers t, incomingPeers t, outgoingPeers t,
               peerIDs t, connectedPeerIPs t,
               (if incoming then delete h (incomingHandshakers t) else incomingHandshakers t),
               (if incoming then outgoingHandshakers t
                else delete h (outgoingHandshakers t))) →
  limits_ok (startPeer (mkConn id a fast) incoming t0).
Proof.
  intros [Lin Lout] Hh Hid Hw0.
  unfold wiring in Hw0. injection Hw0 as Hc Hco Hp Hip Hop Hids Hips Hin Hout.
  destruct (startPeer_new (mkConn id a fast) incoming t0) as (pe & _ & Hpi & Hpo & Hw & _).
  { cbn [conn_ID]. by rewrite Hids. }
  unfold wiring in Hw. injection Hw as Hc' Hco' Hp' Hip' Hop' Hids' Hips' Hin' Hout'.
  unfold limits_ok. rewrite Hc', Hip', Hop', Hin', Hout', Hc, Hin, Hout.
  rewrite Hip in Hpi. rewrite Hop in Hpo. rewrite Hip, Hop.
  unfold handshake in Hh. destruct incoming.
  - split; [|done].
    rewrite size_union by (by apply disjoint_singleton_l). rewrite size_singleton.
    pose proof (map_size_insert_None h a (delete h (incomingHandshakers t))
                  (lookup_delete_eq (incomingHandshakers t) h)) as Hs.
    rewrite insert_delete_id in Hs by done. lia.
  - split; [done|].
    rewrite size_union by (by apply disjoint_singleton_l). rewrite size_singleton.
    pose proof (map_size_insert_None h a (delete h (outgoingHandshakers t))
                  (lookup_delete_eq (outgoingHandshakers t) h)) as Hs.
    rewrite insert_delete_id in Hs by done. lia.
Qed.

Lemma size_delete_le (m : gmap nat TCPAddr) h : (size (delete h m) ≤ size m)%nat.
Proof.
  destruct (m !! h) as [a|] eqn:Hh.
  - pose proof (map_size_insert_None h a (delete h m) (lookup_delete_eq m h)) as Hs.
    rewrite insert_delete_id in Hs by done. lia.
  - by rewrite delete_id.
Qed.

Lemma limits_ok_step env t e t' :
  limits_ok t → arrives t e = true → step env t e = Next t' → limits_ok t'.
Proof.
  intros Hok Harr Hs.
  destruct e; simpl in Harr; try done; simpl in Hs.
  - (* AddrsFromTrackers *)
    injection Hs as <-. unfold handleNewPeers, setNeedMorePeers.
    repeat case_match; try (eapply limits_ok_same; [|exact Hok]; by split);
      apply limits_ok_dialAddresses; (eapply limits_ok_same; [|exact Hok]); by split.
  - (* AddPeersCommand *)
    injection Hs as <-. unfold handleNewPeers, setNeedMorePeers.
    repeat case_match; try (eapply limits_ok_same; [|exact Hok]; by split);
      apply limits_ok_dialAddresses; (eapply limits_ok_same; [|exact Hok]); by split.
  - (* DhtPeers *)
    injection Hs as <-. unfold handleNewPeers, setNeedMorePeers.
    repeat case_match; try (eapply limits_ok_same; [|exact Hok]; by split);
      apply limits_ok_dialAddresses; (eapply limits_ok_same; [|exact Hok]); by split.
  - (* IncomingConn *)
    injection Hs as <-. by apply limits_ok_incomingConn.
  - (* UnchokeTimer *)
    injection Hs as <-. eapply limits_ok_same; [apply same_tickUnchoke | done].
  - (* OptimisticUnchokeTimer *)
    injection Hs as <-. eapply limits_ok_same; [apply same_tickOptimisticUnchoke | done].
  - (* IncomingHandshakerResult *)
    apply andb_prop in Harr as [Hh%bool_decide_eq_true Hnew].
    destruct Error; injection Hs as <-.
    + destruct Hok as [Lin Lout]. split; [|done].
      cbn [config incomingPeers incomingHandshakers set_connectedPeerIPs
        set_incomingHandshakers].
      pose proof (size_delete_le (incomingHandshakers t) ih). lia.
    + simpl in Hnew. apply bool_decide_eq_true in Hnew.
      by apply (limits_ok_handshake_done true t _ ih remote PeerID fast Hok Hh Hnew).
  - (* OutgoingHandshakerResult *)
    apply andb_prop in Harr as [Hh%bool_decide_eq_true Hnew].
    destruct Error; injection Hs as <-.
    + apply limits_ok_dialAddresses.
      destruct Hok as [Lin Lout]. split; [done|].
      cbn [config outgoingPeers outgoingHandshakers set_connectedPeerIPs
        set_outgoingHandshakers].
      pose proof (size_delete_le (outgoingHandshakers t) oh). lia.
    + simpl in Hnew. apply bool_decide_eq_true in Hnew.
      by apply (limits_ok_handshake_done false t _ oh addr PeerID fast Hok Hh Hnew).
  - (* PeerDisconnected *)
    injection Hs as <-. by apply limits_ok_closePeer.
Qed.

Import EngineSamples.

(** Along every run of the cases that accept, dial, register and close
    connections and of the two choke timers, in which every successful
    handshake presents a peer ID that is not connected yet, the
    registry stays sound: the loop goes on after each case, connected
    peers have pairwise distinct IDs and IPs, both registered, and
    every registered ID and IP belongs to a connected peer or to a
    handshake that is going on. In particular the three maps are
    consistent after each case. *)
Theorem registry_stays_sound env t evs :
  registry_ok t → arrive_all env t evs = true →
  ∃ t', run env t evs = Next t' ∧ registry_ok t' ∧ consistent t'.
Proof.
  revert t. induction evs as [|e evs IH]; intros t Hok Harr; simpl in *.
  - exists t. split; [done|]. split; [done | by apply registry_ok_consistent].
  - apply andb_prop in Harr as [He Harr].
    destruct (arrives_Next env t e He) as [t1 Hs]. rewrite Hs in *.
    apply IH; [|done]. by eapply registry_ok_step.
Qed.

Lemma registry_stays_sound_witness :
  ∃ t', run quiet_env torrent0 one_peer_one_handshake = Next t'
        ∧ registry_ok t' ∧ consistent t'.
Proof.
  apply (registry_stays_sound quiet_env torrent0 one_peer_one_handshake).
  - by apply registry_ok_empty.
  - vm_compute. reflexivity.
Defined.

(** Along every such run the numbers of accepted and of dialled
    connections stay within their limits: incoming handshakes and
    incoming peers together never exceed MaxPeerAccept, outgoing peers
    and outgoing handshakes together never exceed MaxPeerDial. *)
Theorem limits_stay_kept env t evs :
  limits_ok t → arrive_all env t evs = true →
  ∃ t', run env t evs = Next t'
        ∧ (Z.of_nat (size (incomingHandshakers t')) + Z.of_nat (size (incomingPeers t'))
           ≤ MaxPeerAccept (config t'))%Z
        ∧ (Z.of_nat (size (outgoingPeers t')) + Z.of_nat (size (outgoingHandshakers t'))
           ≤ MaxPeerDial (config t'))%Z.
Proof.
  revert t. induction evs as [|e evs IH]; intros t Hok Harr; simpl in *.
  - exists t. split; [done|]. exact Hok.
  - apply andb_prop in Harr as [He Harr].
    destruct (arrives_Next env t e He) as [t1 Hs]. rewrite Hs in *.
    apply IH; [|done]. by eapply limits_ok_step.
Qed.

Lemma limits_stay_kept_witness :
  ∃ t', run quiet_env torrent0 one_peer_one_handshake = Next t'
        ∧ (Z.of_nat (size (incomingHandshakers t')) + Z.of_nat (size (incomingPeers t'))
           ≤ MaxPeerAccept (config t'))%Z
        ∧ (Z.of_nat (size (outgoingPeers t')) + Z.of_nat (size (outgoingHandshakers t'))
           ≤ MaxPeerDial (config t'))%Z.
Proof.
  apply (limits_stay_kept quiet_env torrent0 one_peer_one_handshake).
  - split; vm_compute; discriminate.
  - vm_compute. reflexivity.
Defined.

End RegistryFacts.
